(** * A reliable file transfer over UDP: frame codec, segmenter, server
      session store and client reassembly loop

    Shallow embedding of [protocol.py], [server.py] and [client.py].
    Python integers are [Z]; [bytes] values are lists of [Byte.byte];
    dictionaries are [gmap]s; an exception raised by a function is a
    [Raise] result. *)

From Stdlib Require Import ZArith List Lia Sorted.
From Stdlib.Strings Require Import Byte.
From stdpp Require Import gmap strings list fin_maps.
From Equations Require Import Equations.
From Equations.Prop Require Import Logic.

Open Scope Z_scope.

(** ** Bytes, slices and exceptions *)

Abbreviation bytes := (list byte).

Definition byte_val (b : byte) : Z := Z.of_N (Byte.to_N b).

Definition byte_of (z : Z) : byte :=
  default Byte.x00 (Byte.of_N (Z.to_N (z mod 256))).

(** [len(data)] *)
Definition len {A} (l : list A) : Z := Z.of_nat (length l).

(** [data[lo:hi]] for the non-negative bounds the sources use: Python
    clips a slice to the data, it never raises. *)
Definition slice {A} (lo hi : Z) (data : list A) : list A :=
  take (Z.to_nat (hi - lo)) (drop (Z.to_nat lo) data).

(** The exceptions the codec and its callers can meet.  The three
    [ValueError]s of the codec are told apart by what the source puts in
    the message: "muito curto", "invalido" and "Checksum incorreto";
    [EmptyMax] is the [ValueError] of [max] on an empty sequence. *)
Inductive exn :=
| TooShort
| Invalid
| BadChecksum
| StructError
| UnicodeError
| IndexError
| KeyError
| EmptyMax.

Inductive result (A : Type) :=
| Ok (a : A)
| Raise (e : exn).
Arguments Ok {A} a.
Arguments Raise {A} e.

#[global] Instance result_ret : MRet result := fun A a => Ok a.

#[global] Instance result_bind : MBind result := fun A B k r =>
  match r with
  | Ok a => k a
  | Raise e => Raise e
  end.

#[global] Instance exn_eq_dec : EqDecision exn.
Proof. solve_decision. Defined.

(** ** [struct]: big-endian unsigned fields *)

(** The [n] low-order bytes of [v], most significant first. *)
Fixpoint be_encode (n : nat) (v : Z) : bytes :=
  match n with
  | O => []
  | S n' => byte_of (Z.shiftr v (8 * Z.of_nat n')) :: be_encode n' v
  end.

Definition be_decode (bs : bytes) : Z :=
  fold_left (fun acc b => acc * 256 + byte_val b) bs 0.

(** A format such as [">BBBH"] is the list of its field widths. *)
Definition calcsize (fmt : list nat) : nat := sum_list fmt.

(** [struct.pack(fmt, *vals)]: a value that does not fit its field, or a
    wrong number of values, raises [struct.error]. *)
Fixpoint struct_pack (fmt : list nat) (vals : list Z) : result bytes :=
  match fmt, vals with
  | [], [] => Ok []
  | w :: fmt', v :: vals' =>
      if (0 <=? v) && (v <? 2 ^ (8 * Z.of_nat w)) then
        rest ← struct_pack fmt' vals';
        Ok (be_encode w v ++ rest)
      else Raise StructError
  | _, _ => Raise StructError
  end.

Fixpoint unpack_fields (fmt : list nat) (data : bytes) : list Z :=
  match fmt with
  | [] => []
  | w :: fmt' => be_decode (take w data) :: unpack_fields fmt' (drop w data)
  end.

(** [struct.unpack(fmt, data)]: the buffer must have exactly the size of
    the format. *)
Definition struct_unpack (fmt : list nat) (data : bytes) : result (list Z) :=
  if decide (length data = calcsize fmt) then Ok (unpack_fields fmt data)
  else Raise StructError.

(** ** CRC-32 ([zlib.crc32])

    [zlib] is not part of the repository; this is its CRC-32 (the
    reflected IEEE 802.3 polynomial [0xEDB88320], register preset to and
    finally complemented with [0xFFFFFFFF]) in the bit-at-a-time form. *)

Definition crc_poly : Z := 0xEDB88320.
Definition mask32 : Z := 0xFFFFFFFF.

Definition crc_round (c : Z) : Z :=
  if Z.testbit c 0 then Z.lxor (Z.shiftr c 1) crc_poly else Z.shiftr c 1.

Definition crc_byte (c : Z) (b : byte) : Z :=
  Nat.iter 8 crc_round (Z.lxor c (byte_val b)).

(** [zlib.crc32(data, value)] *)
Definition zlib_crc32 (data : bytes) (value : Z) : Z :=
  Z.lxor (fold_left crc_byte data (Z.lxor value mask32)) mask32.

(** [crc32] of [protocol.py] and [utils.py] *)
Definition crc32 (data : bytes) : Z := Z.land (zlib_crc32 data 0) mask32.

Definition ascii_bytes (s : string) : bytes :=
  map (fun a => byte_of (Z.of_N (Ascii.N_of_ascii a))) (String.list_ascii_of_string s).

(** ** UTF-8 ([str.encode] and [bytes.decode] with the strict handler)

    A [str] is the list of its code points. *)

Abbreviation str := (list Z).

Definition is_cont (b : byte) : bool :=
  (0x80 <=? byte_val b) && (byte_val b <=? 0xBF).

Definition cont_bits (b : byte) : Z := Z.land (byte_val b) 0x3F.

Fixpoint utf8_decode (bs : bytes) : result str :=
  match bs with
  | [] => Ok []
  | b0 :: rest =>
      let v0 := byte_val b0 in
      if v0 <? 0x80 then
        s ← utf8_decode rest; Ok (v0 :: s)
      else if (0xC2 <=? v0) && (v0 <=? 0xDF) then
        match rest with
        | b1 :: rest1 =>
            if is_cont b1 then
              s ← utf8_decode rest1;
              Ok (Z.lor (Z.shiftl (Z.land v0 0x1F) 6) (cont_bits b1) :: s)
            else Raise UnicodeError
        | _ => Raise UnicodeError
        end
      else if (0xE0 <=? v0) && (v0 <=? 0xEF) then
        match rest with
        | b1 :: b2 :: rest2 =>
            let cp := Z.lor (Z.shiftl (Z.land v0 0x0F) 12)
                        (Z.lor (Z.shiftl (cont_bits b1) 6) (cont_bits b2)) in
            if is_cont b1 && is_cont b2 && (0x800 <=? cp)
               && negb ((0xD800 <=? cp) && (cp <=? 0xDFFF)) then
              s ← utf8_decode rest2; Ok (cp :: s)
            else Raise UnicodeError
        | _ => Raise UnicodeError
        end
      else if (0xF0 <=? v0) && (v0 <=? 0xF4) then
        match rest with
        | b1 :: b2 :: b3 :: rest3 =>
            let cp := Z.lor (Z.shiftl (Z.land v0 0x07) 18)
                        (Z.lor (Z.shiftl (cont_bits b1) 12)
                           (Z.lor (Z.shiftl (cont_bits b2) 6) (cont_bits b3))) in
            if is_cont b1 && is_cont b2 && is_cont b3
               && (0x10000 <=? cp) && (cp <=? 0x10FFFF) then
              s ← utf8_decode rest3; Ok (cp :: s)
            else Raise UnicodeError
        | _ => Raise UnicodeError
        end
      else Raise UnicodeError
  end.

Definition utf8_encode_cp (cp : Z) : result bytes :=
  if (0 <=? cp) && (cp <? 0x80) then Ok [byte_of cp]
  else if (0x80 <=? cp) && (cp <? 0x800) then
    Ok [byte_of (Z.lor 0xC0 (Z.shiftr cp 6));
        byte_of (Z.lor 0x80 (Z.land cp 0x3F))]
  else if (0xD800 <=? cp) && (cp <=? 0xDFFF) then Raise UnicodeError
  else if (0x800 <=? cp) && (cp <? 0x10000) then
    Ok [byte_of (Z.lor 0xE0 (Z.shiftr cp 12));
        byte_of (Z.lor 0x80 (Z.land (Z.shiftr cp 6) 0x3F));
        byte_of (Z.lor 0x80 (Z.land cp 0x3F))]
  else if (0x10000 <=? cp) && (cp <=? 0x10FFFF) then
    Ok [byte_of (Z.lor 0xF0 (Z.shiftr cp 18));
        byte_of (Z.lor 0x80 (Z.land (Z.shiftr cp 12) 0x3F));
        byte_of (Z.lor 0x80 (Z.land (Z.shiftr cp 6) 0x3F));
        byte_of (Z.lor 0x80 (Z.land cp 0x3F))]
  else Raise UnicodeError.

Fixpoint utf8_encode (s : str) : result bytes :=
  match s with
  | [] => Ok []
  | cp :: s' =>
      b ← utf8_encode_cp cp;
      rest ← utf8_encode s';
      Ok (b ++ rest)
  end.

(** ** The frame codec ([protocol.py]) *)

Definition VERSION : Z := 1.

Definition T_GET : Z := 0x01.
Definition T_DATA : Z := 0x02.
Definition T_END : Z := 0x03.
Definition T_ERR : Z := 0x7F.
Definition T_NACK : Z := 0x11.
Definition T_OK : Z := 0x12.

Definition F_FINAL : Z := 0x01.

Definition DEFAULT_SEGMENT_SIZE : Z := 1200.

Definition GET_HDR : list nat := [1; 1; 1; 2]%nat.
Definition GET_HDR_SIZE : Z := Z.of_nat (calcsize GET_HDR).

Definition DATA_HDR_WO_CRC : list nat := [1; 1; 1; 1; 4; 8; 8; 2]%nat.
Definition DATA_HDR : list nat := [1; 1; 1; 1; 4; 8; 8; 2; 4]%nat.
Definition DATA_HDR_SIZE : Z := Z.of_nat (calcsize DATA_HDR).

Definition END_HDR : list nat := [1; 1; 1; 4; 4]%nat.
Definition END_HDR_SIZE : Z := Z.of_nat (calcsize END_HDR).

Definition ERR_HDR : list nat := [1; 1; 1; 2]%nat.
Definition ERR_HDR_SIZE : Z := Z.of_nat (calcsize [1; 1; 1; 2]%nat).

Definition NACK_HDR : list nat := [1; 1; 1; 2]%nat.
Definition NACK_HDR_SIZE : Z := Z.of_nat (calcsize [1; 1; 1; 2]%nat).

Definition pack_get (filename : str) : result bytes :=
  name_b ← utf8_encode filename;
  hdr ← struct_pack GET_HDR [T_GET; VERSION; 0; len name_b];
  Ok (hdr ++ name_b).

Definition unpack_get (data : bytes) : result str :=
  if len data <? GET_HDR_SIZE then Raise TooShort
  else
    fields ← struct_unpack GET_HDR (slice 0 GET_HDR_SIZE data);
    match fields with
    | [t; v; flags; name_len] =>
        if negb (t =? T_GET) || negb (v =? VERSION) then Raise Invalid
        else
          let name_b := slice GET_HDR_SIZE (GET_HDR_SIZE + name_len) data in
          utf8_decode name_b
    | _ => Raise StructError
    end.

Definition pack_data (win_id seq total_size offset : Z) (payload : bytes)
    (flags : Z) : result bytes :=
  let payload_len := len payload in
  header_wo_crc ← struct_pack DATA_HDR_WO_CRC
    [T_DATA; VERSION; flags; Z.land win_id 0xFF; seq; total_size; offset;
     payload_len];
  let csum := crc32 (header_wo_crc ++ payload) in
  header ← struct_pack DATA_HDR
    [T_DATA; VERSION; flags; Z.land win_id 0xFF; seq; total_size; offset;
     payload_len; csum];
  Ok (header ++ payload).

(** The tuple [unpack_data] returns:
    [(win_id, seq, total_size, offset, payload_len, payload, is_final)]. *)
Definition data_fields : Type := Z * Z * Z * Z * Z * bytes * bool.

Definition unpack_data (data : bytes) : result data_fields :=
  if len data <? DATA_HDR_SIZE then Raise TooShort
  else
    fields ← struct_unpack DATA_HDR (slice 0 DATA_HDR_SIZE data);
    match fields with
    | [t; v; flags; win_id; seq; total_size; offset; payload_len; rx_crc] =>
        if negb (t =? T_DATA) || negb (v =? VERSION) then Raise Invalid
        else
          let payload :=
            slice DATA_HDR_SIZE (DATA_HDR_SIZE + payload_len) data in
          let calc_crc := crc32 (slice 0 (DATA_HDR_SIZE - 4) data ++ payload) in
          if negb (rx_crc =? calc_crc) then Raise BadChecksum
          else
            let is_final := negb (Z.land flags F_FINAL =? 0) in
            Ok (win_id, seq, total_size, offset, payload_len, payload, is_final)
    | _ => Raise StructError
    end.

Definition pack_end (total_segments file_crc32 : Z) : result bytes :=
  struct_pack END_HDR [T_END; VERSION; F_FINAL; total_segments; file_crc32].

Definition unpack_end (data : bytes) : result (Z * Z) :=
  if len data <? END_HDR_SIZE then Raise TooShort
  else
    fields ← struct_unpack END_HDR (slice 0 END_HDR_SIZE data);
    match fields with
    | [t; v; flags; total_segments; file_crc] =>
        if negb (t =? T_END) || negb (v =? VERSION) then Raise Invalid
        else Ok (total_segments, file_crc)
    | _ => Raise StructError
    end.

Definition pack_err (code : Z) (msg : str) : result bytes :=
  b ← utf8_encode msg;
  hdr ← struct_pack ERR_HDR [T_ERR; VERSION; code; len b];
  Ok (hdr ++ b).

Definition unpack_err (data : bytes) : result (Z * str) :=
  if len data <? ERR_HDR_SIZE then Raise TooShort
  else
    fields ← struct_unpack ERR_HDR (slice 0 ERR_HDR_SIZE data);
    match fields with
    | [t; v; code; mlen] =>
        if negb (t =? T_ERR) || negb (v =? VERSION) then Raise Invalid
        else
          msg ← utf8_decode (slice ERR_HDR_SIZE (ERR_HDR_SIZE + mlen) data);
          Ok (code, msg)
    | _ => Raise StructError
    end.

Fixpoint pack_seqs (seqs : list Z) : result bytes :=
  match seqs with
  | [] => Ok []
  | s :: seqs' =>
      b ← struct_pack [4%nat] [s];
      rest ← pack_seqs seqs';
      Ok (b ++ rest)
  end.

Definition pack_nack (missing : list Z) : result bytes :=
  hdr ← struct_pack NACK_HDR [T_NACK; VERSION; 0; len missing];
  body ← pack_seqs missing;
  Ok (hdr ++ body).

(** The [for _ in range(count)] loop of [unpack_nack]: [off] is the read
    position, the loop breaks at the first entry that does not fit. *)
Fixpoint nack_loop (count : nat) (data : bytes) (off : Z) : list Z :=
  match count with
  | O => []
  | S count' =>
      if len data <? off + 4 then []
      else be_decode (slice off (off + 4) data)
             :: nack_loop count' data (off + 4)
  end.

Definition unpack_nack (data : bytes) : result (list Z) :=
  if len data <? NACK_HDR_SIZE then Raise TooShort
  else
    fields ← struct_unpack NACK_HDR (slice 0 NACK_HDR_SIZE data);
    match fields with
    | [t; v; flags; count] =>
        if negb (t =? T_NACK) || negb (v =? VERSION) then Raise Invalid
        else Ok (nack_loop (Z.to_nat count) data NACK_HDR_SIZE)
    | _ => Raise StructError
    end.

Definition pack_ok : result bytes := struct_pack [1; 1; 1]%nat [T_OK; VERSION; 0].

(** ** The segmenter and the server ([server.py]) *)

(** [f.read(n)] on a file whose unread part is [rest]: the bytes read
    and the part left unread.  A negative [n] reads to the end. *)
Definition file_read (n : Z) (rest : bytes) : bytes * bytes :=
  if n <? 0 then (rest, [])
  else (take (Z.to_nat n) rest, drop (Z.to_nat n) rest).

(** The [while True] loop of [chunk_file]; the triples it yields, in
    order.  It stops at the first empty read. *)
Equations? chunk_loop (segment_size : Z) (rest : bytes) (seq offset : Z)
  : list (Z * Z * bytes) by wf (length rest) lt :=
  chunk_loop segment_size rest seq offset
    with inspect (file_read segment_size rest) := {
    | exist _ ([], _) _ => [];
    | exist _ (b :: data, rest') e =>
        (seq, offset, b :: data)
          :: chunk_loop segment_size rest' (seq + 1) (offset + len (b :: data)) }.
Proof.
  unfold file_read in e. destruct (segment_size <? 0).
  - injection e as Hd Hr. subst rest rest'. simpl. lia.
  - injection e as Hd Hr. subst rest'. rewrite length_drop.
    apply (f_equal length) in Hd. rewrite length_take in Hd.
    simpl in Hd. lia.
Qed.

Definition chunk_file (contents : bytes) (segment_size : Z)
  : list (Z * Z * bytes) :=
  chunk_loop segment_size contents 0 0.

Abbreviation ClientAddr := (string * Z)%type.

Record UDPServer := {
  segment_size : Z;
  client_segments : gmap ClientAddr (gmap Z bytes);
  client_meta : gmap ClientAddr (str * Z * Z);
}.

(** [UDPServer.__init__]: the segment size is clamped to [1..1300]. *)
Definition UDPServer_init (segment_size : Z) : UDPServer :=
  {| segment_size := Z.max 1 (Z.min segment_size 1300);
     client_segments := ∅;
     client_meta := ∅ |}.

(** What the path checks and the file system answer for a requested
    name (lines 80 to 92 of [handle_get]). *)
Inductive resolved :=
| InvalidPath
| NotFound
| Found (contents : bytes).

Definition ascii_str (s : string) : str :=
  map (fun a => Z.of_N (Ascii.N_of_ascii a)) (String.list_ascii_of_string s).

Definition msg_invalid_path (filename : str) : str :=
  ascii_str "Caminho inv" ++ [0xE1] ++ ascii_str "lido: " ++ filename.

Definition msg_not_found (filename : str) : str :=
  ascii_str "Arquivo n" ++ [0xE3] ++ ascii_str "o encontrado: " ++ filename.

(** One turn of the [for seq, offset, payload in chunk_file(...)] loop;
    the accumulator is [(segments, total_segments, file_crc)]. *)
Definition get_step (total_size : Z) (acc : gmap Z bytes * Z * Z)
    (chunk : Z * Z * bytes) : result (gmap Z bytes * Z * Z) :=
  let '(segments, total_segments, file_crc) := acc in
  let '(seq, offset, payload) := chunk in
  let is_last := total_size <=? offset + len payload in
  let flags := if is_last then Z.lor 0 F_FINAL else 0 in
  pkt ← pack_data 0 seq total_size offset payload flags;
  Ok (<[seq := pkt]> segments, total_segments + 1,
      Z.land (zlib_crc32 payload file_crc) mask32).

Fixpoint get_loop (total_size : Z) (acc : gmap Z bytes * Z * Z)
    (chunks : list (Z * Z * bytes)) : result (gmap Z bytes * Z * Z) :=
  match chunks with
  | [] => Ok acc
  | c :: chunks' =>
      acc' ← get_step total_size acc c;
      get_loop total_size acc' chunks'
  end.

(** [for seq in range(total_segments): sendto(segments[seq], addr)] *)
Fixpoint send_all (segments : gmap Z bytes) (seqs : list Z)
  : result (list bytes) :=
  match seqs with
  | [] => Ok []
  | seq :: seqs' =>
      match segments !! seq with
      | Some pkt => rest ← send_all segments seqs'; Ok (pkt :: rest)
      | None => Raise KeyError
      end
  end.

(** [handle_get]: the new server state and the datagrams sent to [addr],
    or the exception that escapes the handler. *)
Definition handle_get (fs : str -> resolved) (srv : UDPServer) (data : bytes)
    (addr : ClientAddr) : result (UDPServer * list bytes) :=
  match unpack_get data with
  | Raise _ => Ok (srv, [])
  | Ok filename =>
      match fs filename with
      | InvalidPath =>
          pkt ← pack_err 0x02 (msg_invalid_path filename); Ok (srv, [pkt])
      | NotFound =>
          pkt ← pack_err 0x01 (msg_not_found filename); Ok (srv, [pkt])
      | Found contents =>
          let total_size := len contents in
          '(segments, total_segments, file_crc) ←
            get_loop total_size (∅, 0, 0)
              (chunk_file contents (segment_size srv));
          let srv' :=
            {| segment_size := segment_size srv;
               client_segments := <[addr := segments]> (client_segments srv);
               client_meta :=
                 <[addr := (filename, total_size, total_segments)]>
                   (client_meta srv) |} in
          pkts ← send_all segments (seqZ 0 total_segments);
          e ← pack_end total_segments file_crc;
          Ok (srv', pkts ++ [e])
      end
  end.

(** The [for s in seqs] loop of [handle_nack]: [if pkt] is false for a
    missing entry and for an empty one. *)
Fixpoint nack_sends (segs : gmap Z bytes) (seqs : list Z) : list bytes :=
  match seqs with
  | [] => []
  | s :: seqs' =>
      match segs !! s with
      | Some (b :: pkt) => (b :: pkt) :: nack_sends segs seqs'
      | _ => nack_sends segs seqs'
      end
  end.

Definition handle_nack (srv : UDPServer) (data : bytes) (addr : ClientAddr)
  : UDPServer * list bytes :=
  match unpack_nack data with
  | Raise _ => (srv, [])
  | Ok seqs =>
      match client_segments srv !! addr with
      | None => (srv, [])
      | Some segs =>
          if decide (segs = ∅) then (srv, [])
          else (srv, nack_sends segs seqs)
      end
  end.

(** The [T_OK] branch of [serve_forever]. *)
Definition handle_ok (srv : UDPServer) (addr : ClientAddr) : UDPServer :=
  {| segment_size := segment_size srv;
     client_segments := delete addr (client_segments srv);
     client_meta := delete addr (client_meta srv) |}.

(** One datagram through the body of [serve_forever]. *)
Definition serve_one (fs : str -> resolved) (srv : UDPServer) (data : bytes)
    (addr : ClientAddr) : result (UDPServer * list bytes) :=
  match data with
  | [] => Ok (srv, [])
  | b :: _ =>
      let t := byte_val b in
      if t =? T_GET then handle_get fs srv data addr
      else if t =? T_NACK then Ok (handle_nack srv data addr)
      else if t =? T_OK then Ok (handle_ok srv addr, [])
      else Ok (srv, [])
  end.

(** The server states that can arise: the initial one, and any state
    one handled datagram later. *)
Inductive reachable (fs : str -> resolved) : UDPServer -> Prop :=
| reach_init segment_size : reachable fs (UDPServer_init segment_size)
| reach_step srv data addr srv' out :
    reachable fs srv ->
    serve_one fs srv data addr = Ok (srv', out) ->
    reachable fs srv'.

(** ** The client ([client.py]) *)

(** The local variables of [request_file] that live across iterations
    of its receive loop, and [self.already_dropped]. *)
Record loop_state := {
  segments : gmap Z bytes;
  total_size : option Z;
  total_segments : option Z;
  file_crc_from_server : option Z;
  max_seq : Z;
  timeout_count : Z;
  already_dropped : gset Z;
}.

Definition max_timeouts : Z := 3.

(** What [recvfrom] gives one iteration: [socket.timeout], or a datagram.
    [rnd_drop] is the value of
    [self.drop_prob > 0 and random.random() < self.drop_prob]
    should the iteration come to evaluate it. *)
Inductive event :=
| Timeout
| Datagram (data : bytes) (rnd_drop : bool).

(** [max(segments.keys())] *)
Definition max_key (m : gmap Z bytes) : result Z :=
  match map_to_list m with
  | [] => Raise EmptyMax
  | (k, _) :: l => Ok (foldr (fun p acc => Z.max p.1 acc) k l)
  end.

Definition absent (m : gmap Z bytes) (i : Z) : bool :=
  bool_decide (m !! i = None).

Definition _missing_segments (segs : gmap Z bytes) (total : option Z)
  : result (list Z) :=
  if decide (segs = ∅) then Ok []
  else
    match total with
    | None => m ← max_key segs; Ok (filter (absent segs) (seqZ 0 (m + 1)))
    | Some t => Ok (filter (absent segs) (seqZ 0 t))
    end.

(** How one iteration of the [while True] loop ends. [sent] lists the
    datagrams passed to [sendto] during the iteration. *)
Inductive outcome :=
| Continue (st : loop_state) (sent : list bytes)
| Break (st : loop_state) (sent : list bytes)
| ReturnFalse (sent : list bytes)
| Crash (e : exn).

Definition set_timeout_count (st : loop_state) (n : Z) : loop_state :=
  {| segments := segments st; total_size := total_size st;
     total_segments := total_segments st;
     file_crc_from_server := file_crc_from_server st;
     max_seq := max_seq st; timeout_count := n;
     already_dropped := already_dropped st |}.

(** Send one packed frame and go on with the loop. *)
Definition send_continue (st : loop_state) (pkt : result bytes) : outcome :=
  match pkt with
  | Ok p => Continue st [p]
  | Raise e => Crash e
  end.

Definition send_break (st : loop_state) (pkt : result bytes) : outcome :=
  match pkt with
  | Ok p => Break st [p]
  | Raise e => Crash e
  end.

(** The [except socket.timeout] branch. *)
Definition on_timeout (req : bytes) (st : loop_state) : outcome :=
  let st := set_timeout_count st (timeout_count st + 1) in
  if max_timeouts <=? timeout_count st then ReturnFalse []
  else
    match _missing_segments (segments st) (total_segments st) with
    | Raise e => Crash e
    | Ok (s :: missing) => send_continue st (pack_nack (s :: missing))
    | Ok [] =>
        if decide (segments st = ∅) then Continue st [req]
        else if bool_decide (total_segments st = None) && (0 <=? max_seq st)
        then send_continue st (pack_nack [max_seq st])
        else ReturnFalse []
    end.

(** The [if t == T_DATA] branch. *)
Definition on_data (drop_map : gmap Z bool) (st : loop_state) (data : bytes)
    (rnd_drop : bool) : outcome :=
  match unpack_data data with
  | Raise _ => Continue st []
  | Ok (win_id, seq, tsize, offset, plen, payload, is_final) =>
      if bool_decide (is_Some (drop_map !! seq))
         && bool_decide (seq ∉ already_dropped st) then
        Continue
          {| segments := segments st; total_size := total_size st;
             total_segments := total_segments st;
             file_crc_from_server := file_crc_from_server st;
             max_seq := max_seq st; timeout_count := timeout_count st;
             already_dropped := {[seq]} ∪ already_dropped st |} []
      else if rnd_drop then Continue st []
      else
        let st' :=
          {| segments := <[seq := payload]> (segments st);
             total_size :=
               match total_size st with None => Some tsize | Some ts => Some ts end;
             total_segments :=
               if is_final then Some (seq + 1) else total_segments st;
             file_crc_from_server := file_crc_from_server st;
             max_seq := Z.max (max_seq st) seq;
             timeout_count := timeout_count st;
             already_dropped := already_dropped st |} in
        match total_segments st' with
        | Some ts =>
            if ts <=? Z.of_nat (size (segments st')) then send_break st' pack_ok
            else Continue st' []
        | None => Continue st' []
        end
  end.

(** The [elif t == T_END] branch. *)
Definition on_end (st : loop_state) (data : bytes) : outcome :=
  match unpack_end data with
  | Raise _ => Continue st []
  | Ok (tseg, fcrc) =>
      let st' :=
        {| segments := segments st; total_size := total_size st;
           total_segments := Some tseg;
           file_crc_from_server := Some fcrc;
           max_seq := max_seq st; timeout_count := timeout_count st;
           already_dropped := already_dropped st |} in
      if Z.of_nat (size (segments st')) <? tseg then
        match _missing_segments (segments st') (total_segments st') with
        | Raise e => Crash e
        | Ok (s :: miss) => send_continue st' (pack_nack (s :: miss))
        | Ok [] => send_break st' pack_ok
        end
      else send_break st' pack_ok
  end.

(** One iteration of the receive loop. *)
Definition loop_step (req : bytes) (drop_map : gmap Z bool) (st : loop_state)
    (ev : event) : outcome :=
  match ev with
  | Timeout => on_timeout req st
  | Datagram data rnd_drop =>
      let st := set_timeout_count st 0 in
      match data with
      | [] => Crash IndexError
      | b :: _ =>
          let t := byte_val b in
          if t =? T_ERR then ReturnFalse []
          else if t =? T_DATA then on_data drop_map st data rnd_drop
          else if t =? T_END then on_end st data
          else Continue st []
      end
  end.

(** How the loop and the checks after it end: [Saved data_bytes] when
    every check has passed and [data_bytes] is what the code goes on to
    write to the output file (the write-out itself is [write_out] below),
    [Failed] is [return False]. *)
Inductive verdict :=
| Saved (data_bytes : bytes)
| Failed.

(** [b"".join(segments.get(i, b"") for i in range(total_segments))] *)
Definition join_segments (segs : gmap Z bytes) (total : Z) : bytes :=
  concat (map (fun i => default [] (segs !! i)) (seqZ 0 total)).

(** The checks after the loop, up to the point where the file is
    written. *)
Definition finalize (st : loop_state) : result verdict :=
  if decide (segments st = ∅) then Ok Failed
  else
    total ← match total_segments st with
            | None => m ← max_key (segments st); Ok (m + 1)
            | Some t => Ok t
            end;
    let data_bytes := join_segments (segments st) total in
    if match total_size st with
       | Some ts => negb (len data_bytes =? ts)
       | None => false
       end
    then Ok Failed
    else if match file_crc_from_server st with
            | Some c => negb (Z.land (zlib_crc32 data_bytes 0) mask32 =? c)
            | None => false
            end
    then Ok Failed
    else Ok (Saved data_bytes).

(** A run of the client against a list of [recvfrom] results: still
    blocked in [recvfrom] when the list is used up, or ended. *)
Inductive run :=
| Receiving (st : loop_state) (sent : list bytes)
| Ended (v : verdict) (sent : list bytes)
| Crashed (e : exn) (sent : list bytes).

Fixpoint run_loop (req : bytes) (drop_map : gmap Z bool) (st : loop_state)
    (sent : list bytes) (evs : list event) : run :=
  match evs with
  | [] => Receiving st sent
  | ev :: evs' =>
      match loop_step req drop_map st ev with
      | Continue st' out => run_loop req drop_map st' (sent ++ out) evs'
      | Break st' out =>
          match finalize st' with
          | Ok v => Ended v (sent ++ out)
          | Raise e => Crashed e (sent ++ out)
          end
      | ReturnFalse out => Ended Failed (sent ++ out)
      | Crash e => Crashed e sent
      end
  end.

(** The state in which the loop is entered. *)
Definition initial_state (dropped : gset Z) : loop_state :=
  {| segments := ∅; total_size := None; total_segments := None;
     file_crc_from_server := None; max_seq := -1; timeout_count := 0;
     already_dropped := dropped |}.

(** [request_file]: [None] while the client is still blocked in its
    first [recvfrom]. *)
Definition request_file (drop_map : gmap Z bool) (dropped : gset Z)
    (filename : str) (evs : list event) : option run :=
  match pack_get filename with
  | Raise e => Some (Crashed e [])
  | Ok req =>
      match evs with
      | [] => None
      | Timeout :: _ => Some (Ended Failed [req])
      | Datagram data _ :: evs' =>
          match data with
          | [] => Some (Crashed IndexError [req])
          | b :: _ =>
              let t := byte_val b in
              Some (run_loop req drop_map (initial_state dropped) [req] evs')
          end
      end
  end.

(** [fits n c]: [c] is an unsigned [n]-bit number. *)
Definition fits (n c : Z) : Prop := 0 <= c < 2 ^ n.

(** The values [pack_data] hands to [struct.pack] for the header
    without its checksum. *)
Definition data_header_vals (win_id seq tsize offset : Z) (payload : bytes)
    (flags : Z) : list Z :=
  [T_DATA; VERSION; flags; Z.land win_id 0xFF; seq; tsize; offset; len payload].

(** The three components of a triple yielded by [chunk_file]. *)
Definition chunk_seq (c : Z * Z * bytes) : Z := c.1.1.
Definition chunk_offset (c : Z * Z * bytes) : Z := c.1.2.
Definition chunk_payload (c : Z * Z * bytes) : bytes := c.2.

(** The flags [handle_get] gives the frame of a chunk. *)
Definition chunk_flags (total : Z) (c : Z * Z * bytes) : Z :=
  if total <=? chunk_offset c + len (chunk_payload c) then Z.lor 0 F_FINAL
  else 0.

(** [built total c pkt]: [pkt] is the frame [handle_get] builds for the
    chunk [c] of a file of [total] bytes. *)
Definition built (total : Z) (c : Z * Z * bytes) (pkt : bytes) : Prop :=
  pack_data 0 (chunk_seq c) total (chunk_offset c) (chunk_payload c)
    (chunk_flags total c) = Ok pkt.

(** The final flag of a buffer that holds a DATA frame. *)
Definition is_final_frame (pkt : bytes) : bool :=
  match unpack_data pkt with
  | Ok (_, _, _, _, _, _, is_final) => is_final
  | Raise _ => false
  end.

(** How many of the given frames carry the final flag. *)
Definition final_count (pkts : list bytes) : nat :=
  length (List.filter is_final_frame pkts).

(** ** A concrete requester, for running the server on given files *)

Definition demo_addr : ClientAddr := ("127.0.0.1"%string, 50000).
Definition demo_name : str := ascii_str "a.bin".

Definition demo_get : bytes :=
  match pack_get demo_name with
  | Ok b => b
  | Raise _ => []
  end.

(** A fresh server asked for a file with the given contents. *)
Definition serve (contents : bytes) (size0 : Z) : result (UDPServer * list bytes) :=
  handle_get (fun _ => Found contents) (UDPServer_init size0) demo_get demo_addr.

(** The datagrams of a successful [serve], none if it raised. *)
Definition served (contents : bytes) (size0 : Z) : list bytes :=
  match serve contents size0 with
  | Ok (_, out) => out
  | Raise _ => []
  end.

(** Every cached frame is a packed DATA frame, and the segment size is
    positive. *)
Definition store_ok (srv : UDPServer) : Prop :=
  1 <= segment_size srv /\
  forall addr segs s pkt,
    client_segments srv !! addr = Some segs -> segs !! s = Some pkt ->
    exists ts c, built ts c pkt.

(** The loop state after a decoded END frame: [total_segments] and
    [file_crc_from_server] are set, and the datagram has reset the
    timeout counter. *)
Definition after_end (st : loop_state) (tseg fcrc : Z) : loop_state :=
  {| segments := segments st; total_size := total_size st;
     total_segments := Some tseg; file_crc_from_server := Some fcrc;
     max_seq := max_seq st; timeout_count := 0;
     already_dropped := already_dropped st |}.

Definition demo_ok : bytes :=
  match pack_ok with
  | Ok b => b
  | Raise _ => []
  end.

(** A two-byte file served with the default segment size: one DATA frame
    and the END frame. *)
Definition hi_data0 : bytes :=
  default [] (served (ascii_bytes "hi") DEFAULT_SEGMENT_SIZE !! 0%nat).
Definition hi_end : bytes :=
  default [] (served (ascii_bytes "hi") DEFAULT_SEGMENT_SIZE !! 1%nat).

(** The END frame of a served zero-length file. *)
Definition empty_end : bytes :=
  default [] (served [] DEFAULT_SEGMENT_SIZE !! 0%nat).

(** Buffers whose declared length reads past their end: a GET that
    declares a 5-byte name and carries 2 bytes, an ERR that declares a
    9-byte message and carries 1, and a DATA frame that declares a 10-byte
    payload and carries 2, its checksum computed over what it carries. *)
Definition short_get : bytes :=
  map byte_of [0x01; 0x01; 0x00; 0x00; 0x05] ++ ascii_bytes "ab".

Definition short_err : bytes :=
  map byte_of [0x7F; 0x01; 0x01; 0x00; 0x09] ++ ascii_bytes "x".

Definition short_data_header : bytes :=
  map byte_of [0x02; 0x01; 0x00; 0x00] ++ be_encode 4 0 ++ be_encode 8 2
    ++ be_encode 8 0 ++ be_encode 2 10.

Definition short_data : bytes :=
  short_data_header
    ++ be_encode 4 (crc32 (short_data_header ++ ascii_bytes "ab"))
    ++ ascii_bytes "ab".

(** ** Bit flips in transit *)

(** The byte [b] with its bit [k] inverted. *)
Definition flip_byte (k : Z) (b : byte) : byte :=
  byte_of (Z.lxor (byte_val b) (2 ^ k)).

(** The buffer [data] with bit [k] of its byte [i] inverted. *)
Definition flip_bit (i : nat) (k : Z) (data : bytes) : bytes :=
  alter (flip_byte k) i data.

(** The first two bytes of every DATA frame: type and version. *)
Definition data_tv : bytes := be_encode 1 T_DATA ++ be_encode 1 VERSION.

(** A four-byte file whose only DATA frame, with bit 2 of its payload
    length field inverted in transit (4 becomes 0), still passes the
    checksum. *)
Definition collide_file : bytes := map byte_of [68; 83; 55; 161].

Definition collide_frame : bytes :=
  default [] (served collide_file DEFAULT_SEGMENT_SIZE !! 0%nat).

(** The loop state an iteration leaves behind, if it leaves one. *)
Definition outcome_state (o : outcome) : option loop_state :=
  match o with
  | Continue st _ | Break st _ => Some st
  | ReturnFalse _ | Crash _ => None
  end.

(** A ten-byte file served in segments of four bytes: three DATA frames
    and the END frame. *)
Definition abc : bytes := ascii_bytes "ABCDEFGHIJ".

Definition abc_fs : str -> resolved := fun _ => Found abc.

Definition abc_chunks : list (Z * Z * bytes) :=
  Eval vm_compute in chunk_file abc 4.

(** A client buffer holding every payload of the file. *)
Definition abc_buffer : gmap Z bytes :=
  list_to_map (map (fun c => (chunk_seq c, chunk_payload c)) abc_chunks).

Definition abc_srv : UDPServer :=
  match serve abc 4 with
  | Ok (srv, _) => srv
  | Raise _ => UDPServer_init 4
  end.

Definition abc_out : list bytes := served abc 4.

(** A NACK asking for sequence numbers 1 and 7. *)
Definition nack_1_7 : bytes :=
  match pack_nack [1; 7] with
  | Ok b => b
  | Raise _ => []
  end.

(** The loop state of a client that has stored the second and third
    DATA frame of the file and not the first. *)
Definition abc_partial : loop_state :=
  match run_loop demo_get ∅ (initial_state ∅) []
          [Datagram (default [] (abc_out !! 1%nat)) false;
           Datagram (default [] (abc_out !! 2%nat)) false] with
  | Receiving st _ => st
  | _ => initial_state ∅
  end.

Definition abc_end : bytes := default [] (abc_out !! 3%nat).

Definition empty_srv : UDPServer :=
  match serve [] DEFAULT_SEGMENT_SIZE with
  | Ok (srv, _) => srv
  | Raise _ => UDPServer_init DEFAULT_SEGMENT_SIZE
  end.

(** ** Further constants and helpers of [protocol.py] *)

Definition MAX_UDP_PAYLOAD : Z := 1472.

(** [is_type(data, t)] *)
Definition is_type (data : bytes) (t : Z) : bool :=
  match data with
  | [] => false
  | b :: _ => byte_val b =? t
  end.

(** [decodes data t]: the decoder of the frame type [t] accepts [data]. *)
Inductive decodes (data : bytes) : Z -> Prop :=
| decodes_get r : unpack_get data = Ok r -> decodes data T_GET
| decodes_data r : unpack_data data = Ok r -> decodes data T_DATA
| decodes_end r : unpack_end data = Ok r -> decodes data T_END
| decodes_err r : unpack_err data = Ok r -> decodes data T_ERR
| decodes_nack r : unpack_nack data = Ok r -> decodes data T_NACK.

(** The exceptions the source raises itself in its decoders. *)
Definition is_value_error (e : exn) : bool :=
  match e with
  | TooShort | Invalid | BadChecksum => true
  | _ => false
  end.

(** ** Well-formed sessions of the server *)

(** The cache [segs] and the metadata [meta] of one requester agree: the
    cached sequence numbers are [0..total_segments-1], and the frame cached
    under a number carries that number and the recorded total size. *)
Definition session_ok (segs : gmap Z bytes) (meta : str * Z * Z) : Prop :=
  0 <= meta.2 /\
  (forall k, is_Some (segs !! k) <-> 0 <= k < meta.2) /\
  (forall k pkt, segs !! k = Some pkt ->
     exists off payload fin,
       unpack_data pkt = Ok (0, k, meta.1.2, off, len payload, payload, fin)).

(** Every requester has both a cache and metadata, or neither. *)
Definition sessions_ok (srv : UDPServer) : Prop :=
  forall addr,
    match client_segments srv !! addr, client_meta srv !! addr with
    | Some segs, Some meta => session_ok segs meta
    | None, None => True
    | _, _ => False
    end.

(** ** Invariant of the client's receive loop *)

(** What holds of the local variables whenever the loop is about to
    call [recvfrom]. *)
Definition loop_inv (st : loop_state) : Prop :=
  0 <= timeout_count st < max_timeouts /\
  (forall k, is_Some (segments st !! k) -> 0 <= k <= max_seq st) /\
  (segments st = ∅ ->
   max_seq st = -1 /\ total_size st = None /\ total_segments st = None /\
   file_crc_from_server st = None) /\
  (segments st <> ∅ ->
   is_Some (segments st !! max_seq st) /\ is_Some (total_size st)) /\
  (forall t, total_segments st = Some t -> Z.of_nat (size (segments st)) < t).

(** ** The client against the frames of one served file *)

(** [agrees contents ss st]: what the loop state holds is part of the
    file [contents] cut into segments of [ss] bytes. *)
Definition agrees (contents : bytes) (ss : Z) (st : loop_state) : Prop :=
  (forall k p, segments st !! k = Some p ->
     exists c, c ∈ chunk_file contents ss /\ chunk_seq c = k /\
               chunk_payload c = p) /\
  (forall ts, total_size st = Some ts -> ts = len contents) /\
  (forall t, total_segments st = Some t -> t = len (chunk_file contents ss)) /\
  (forall c, file_crc_from_server st = Some c -> c = crc32 contents).

(** Every datagram the events deliver is one of [frames]. *)
Definition received_from (frames : list bytes) (evs : list event) : Prop :=
  Forall (fun ev => match ev with
                    | Timeout => True
                    | Datagram d _ => d ∈ frames
                    end) evs.

(** The frames of the file [contents]: its DATA frames and its END
    frame. *)
Definition file_frame (contents : bytes) (ss : Z) (d : bytes) : Prop :=
  (exists c, c ∈ chunk_file contents ss /\ built (len contents) c d) \/
  pack_end (len (chunk_file contents ss)) (crc32 contents) = Ok d.

(** The client of the ten-byte file that receives the second and third
    DATA frame, the END frame and, after its NACK, the first DATA frame. *)
Definition abc_events : list event :=
  [Datagram (default [] (abc_out !! 1%nat)) false;
   Datagram (default [] (abc_out !! 2%nat)) false;
   Datagram abc_end false;
   Datagram (default [] (abc_out !! 0%nat)) false].

Definition abc_saved : bytes :=
  match run_loop demo_get ∅ (initial_state ∅) [] abc_events with
  | Ended (Saved d) _ => d
  | _ => []
  end.

Definition abc_sent : list bytes :=
  match run_loop demo_get ∅ (initial_state ∅) [] abc_events with
  | Ended _ sent => sent
  | _ => []
  end.



(** A data directory without the requested file, and the reply of a
    fresh server to the request. *)
Definition no_fs : str -> resolved := fun _ => NotFound.

Definition missing_reply : bytes :=
  match handle_get no_fs (UDPServer_init 4) demo_get demo_addr with
  | Ok (_, [pkt]) => pkt
  | _ => []
  end.



(** An END frame that announces 70000 segments. *)
Definition big_end : bytes :=
  match pack_end 70000 0 with
  | Ok b => b
  | Raise _ => []
  end.

(** A drop map that names sequence number 1, and the second DATA frame
    of the ten-byte file. *)
Definition drop_1 : gmap Z bool := {[1 := true]}.

Definition abc_data1 : bytes := default [] (abc_out !! 1%nat).

(** ** Writing the file ([request_file], after the checks)

    [os.path] is [posixpath]; a path is the list of its code points. *)

Definition slash : Z := 47.

(** [p.rfind('/') + 1] *)
Fixpoint rfind_slash (p : str) : nat :=
  match p with
  | [] => O
  | c :: p' =>
      match rfind_slash p' with
      | O => if c =? slash then 1%nat else O
      | S i => S (S i)
      end
  end.

(** [os.path.basename(p)] *)
Definition basename (p : str) : str := drop (rfind_slash p) p.

(** [s.lstrip('/')] and [s.rstrip('/')] *)
Fixpoint lstrip_slash (s : str) : str :=
  match s with
  | [] => []
  | c :: s' => if c =? slash then lstrip_slash s' else s
  end.

Definition rstrip_slash (s : str) : str := reverse (lstrip_slash (reverse s)).

(** [os.path.dirname(p)] *)
Definition dirname (p : str) : str :=
  let head := take (rfind_slash p) p in
  if bool_decide (head <> [])
     && negb (bool_decide (head = replicate (length head) slash))
  then rstrip_slash head
  else head.

(** [os.path.join(a, b)] *)
Definition path_join (a b : str) : str :=
  if match b with c :: _ => c =? slash | [] => false end then b
  else if bool_decide (a = [])
          || match last a with Some c => c =? slash | None => false end
  then a ++ b
  else a ++ slash :: b.

(** The calls the write-out makes to the operating system:
    [os.makedirs(name, exist_ok=True)], and [open(path, 'wb')] followed by
    [f.write(data)]. *)
Inductive os_call :=
| Makedirs (name : str)
| WriteFile (path : str) (data : bytes).

(** What such a call can raise: [FileNotFoundError], or another
    [OSError]. *)
Inductive os_error :=
| FileNotFoundError
| OSError.

(** The operating system as the write-out meets it: whether a call
    raises, given the calls made before it. *)
Abbreviation os_model := (list os_call -> os_call -> option os_error).

(** [os.makedirs(name, exist_ok=True)]: the empty name is no directory
    and cannot be created, so the call raises [FileNotFoundError] for it
    whatever the file system holds. *)
Definition os_makedirs (os : os_model) (done : list os_call) (name : str)
  : option os_error :=
  match name with
  | [] => Some FileNotFoundError
  | _ => os done (Makedirs name)
  end.

(** How the write-out ends: the file [path] holds [data], or an
    exception of the operating system escapes. *)
Inductive written :=
| Written (path : str) (data : bytes)
| WriteRaises (e : os_error).

Definition downloads : str := ascii_str "downloads".

(** The last statements of [request_file]:
    [os.makedirs(os.path.dirname(out_path), exist_ok=True)] and the
    [with open(out_path, 'wb')] block. *)
Definition write_at (os : os_model) (done : list os_call) (out_path : str)
    (data_bytes : bytes) : written :=
  match os_makedirs os done (dirname out_path) with
  | Some e => WriteRaises e
  | None =>
      match os (done ++ [Makedirs (dirname out_path)])
              (WriteFile out_path data_bytes) with
      | Some e => WriteRaises e
      | None => Written out_path data_bytes
      end
  end.

(** The write-out of [request_file], from [if out_path is None] on. *)
Definition write_out (os : os_model) (filename : str) (out_path : option str)
    (data_bytes : bytes) : written :=
  match out_path with
  | None =>
      match os_makedirs os [] downloads with
      | Some e => WriteRaises e
      | None =>
          write_at os [Makedirs downloads]
            (path_join downloads (basename filename)) data_bytes
      end
  | Some p => write_at os [] p data_bytes
  end.

(** How a call of [request_file] ends, the write-out included:
    [return True] with the file written, [return False], an exception, or
    still waiting in [recvfrom]. *)
Inductive returned :=
| ReturnsTrue (path : str) (data : bytes)
| ReturnsFalse
| RaisesOS (e : os_error)
| Raises (e : exn)
| Waiting.

(** What a run of the loop and the checks leads to. *)
Definition finish (os : os_model) (filename : str) (out_path : option str)
    (r : run) : returned :=
  match r with
  | Receiving _ _ => Waiting
  | Ended Failed _ => ReturnsFalse
  | Ended (Saved data_bytes) _ =>
      match write_out os filename out_path data_bytes with
      | Written path data => ReturnsTrue path data
      | WriteRaises e => RaisesOS e
      end
  | Crashed e _ => Raises e
  end.

(** [request_file] as a whole. *)
Definition request_file_returns (os : os_model) (drop_map : gmap Z bool)
    (dropped : gset Z) (filename : str) (out_path : option str)
    (evs : list event) : returned :=
  match request_file drop_map dropped filename evs with
  | None => Waiting
  | Some r => finish os filename out_path r
  end.


(** * Properties *)

(** ** Bytes and unsigned ranges *)

Lemma byte_val_range b : 0 <= byte_val b < 256.
Proof.
  unfold byte_val. pose proof (Byte.to_N_bounded b). lia.
Qed.

Lemma byte_of_val b : byte_of (byte_val b) = b.
Proof.
  unfold byte_of. rewrite Z.mod_small by apply byte_val_range.
  unfold byte_val. rewrite N2Z.id, Byte.of_to_N. reflexivity.
Qed.

Lemma byte_val_of z : byte_val (byte_of z) = z mod 256.
Proof.
  unfold byte_of, byte_val.
  assert (Hr : 0 <= z mod 256 < 256) by (apply Z.mod_pos_bound; lia).
  destruct (Byte.of_N (Z.to_N (z mod 256))) as [b|] eqn:E.
  - apply Byte.to_of_N in E. simpl. rewrite E. lia.
  - apply Byte.of_N_None_iff in E. lia.
Qed.

Lemma byte_val_inj b1 b2 : byte_val b1 = byte_val b2 -> b1 = b2.
Proof.
  intros H. rewrite <- (byte_of_val b1), <- (byte_of_val b2), H. reflexivity.
Qed.

Lemma fits_shiftr n c : 0 <= n -> fits n c <-> 0 <= c /\ Z.shiftr c n = 0.
Proof.
  intros Hn. unfold fits. rewrite Z.shiftr_div_pow2 by lia.
  assert (0 < 2 ^ n) by (apply Z.pow_pos_nonneg; lia).
  rewrite Z.div_small_iff by lia. lia.
Qed.

Lemma fits_lxor n a b : 0 <= n -> fits n a -> fits n b -> fits n (Z.lxor a b).
Proof.
  intros Hn Ha Hb. apply fits_shiftr in Ha as [Ha0 Ha], Hb as [Hb0 Hb]; try lia.
  apply fits_shiftr; [lia|]. split.
  - apply Z.lxor_nonneg. tauto.
  - rewrite Z.shiftr_lxor, Ha, Hb. reflexivity.
Qed.

Lemma fits_land n a b : 0 <= n -> 0 <= a -> fits n b -> fits n (Z.land a b).
Proof.
  intros Hn Ha Hb. apply fits_shiftr in Hb as [Hb0 Hb]; try lia.
  apply fits_shiftr; [lia|]. split.
  - apply Z.land_nonneg. auto.
  - rewrite Z.shiftr_land, Hb. apply Z.land_0_r.
Qed.

Lemma fits_shiftr_1 n c : fits n c -> fits n (Z.shiftr c 1).
Proof.
  unfold fits. intros H. rewrite Z.shiftr_div_pow2 by lia.
  change (2 ^ 1) with 2. split.
  - apply Z.div_pos; lia.
  - apply Z.le_lt_trans with c; [|lia]. apply Z.div_le_upper_bound; lia.
Qed.

Lemma fits_mono n m c : n <= m -> fits n c -> fits m c.
Proof.
  unfold fits. intros Hnm [H0 H]. split; [lia|].
  apply Z.lt_le_trans with (2 ^ n); [lia|].
  destruct (Z_lt_le_dec n 0) as [Hneg|Hpos].
  - rewrite Z.pow_neg_r in H by lia. lia.
  - apply Z.pow_le_mono_r; lia.
Qed.

Lemma land_mask32 c : fits 32 c -> Z.land c mask32 = c.
Proof.
  intros H. change mask32 with (Z.ones 32). rewrite Z.land_ones by lia.
  apply Z.mod_small. exact H.
Qed.

Lemma lxor_cancel_r a b c : Z.lxor a c = Z.lxor b c -> a = b.
Proof.
  intros H. apply (f_equal (fun x => Z.lxor x c)) in H.
  rewrite !Z.lxor_assoc, Z.lxor_nilpotent, !Z.lxor_0_r in H. exact H.
Qed.

Lemma lxor_cancel_l a b c : Z.lxor c a = Z.lxor c b -> a = b.
Proof.
  rewrite !(Z.lxor_comm c). apply lxor_cancel_r.
Qed.

(** ** CRC-32 *)

(** The model agrees with the published check value of CRC-32. *)
Example crc32_check_value : crc32 (ascii_bytes "123456789") = 0xCBF43926.
Proof. vm_compute. reflexivity. Qed.

Example crc32_empty : crc32 [] = 0.
Proof. reflexivity. Qed.

Lemma crc_round_fits c : fits 32 c -> fits 32 (crc_round c).
Proof.
  intros H. unfold crc_round. destruct (Z.testbit c 0).
  - apply fits_lxor; [lia|apply fits_shiftr_1; exact H|].
    unfold fits, crc_poly. lia.
  - apply fits_shiftr_1. exact H.
Qed.

Lemma crc_rounds_fits k c : fits 32 c -> fits 32 (Nat.iter k crc_round c).
Proof.
  intros H. induction k; simpl; [exact H|]. apply crc_round_fits, IHk.
Qed.

Lemma crc_byte_fits c b : fits 32 c -> fits 32 (crc_byte c b).
Proof.
  intros H. unfold crc_byte. apply crc_rounds_fits.
  apply fits_lxor; [lia|exact H|].
  apply fits_mono with 8; [lia|]. apply byte_val_range.
Qed.

Lemma crc_fold_fits data c : fits 32 c -> fits 32 (fold_left crc_byte data c).
Proof.
  revert c. induction data as [|b data IH]; intros c H; simpl; [exact H|].
  apply IH, crc_byte_fits, H.
Qed.

Lemma mask32_fits : fits 32 mask32.
Proof. unfold fits, mask32. lia. Qed.

Lemma zlib_crc32_fits data v : fits 32 v -> fits 32 (zlib_crc32 data v).
Proof.
  intros H. unfold zlib_crc32.
  apply fits_lxor; [lia| |apply mask32_fits].
  apply crc_fold_fits, fits_lxor; [lia|exact H|apply mask32_fits].
Qed.

Lemma crc32_fits data : fits 32 (crc32 data).
Proof.
  unfold crc32. rewrite land_mask32; apply zlib_crc32_fits; unfold fits; lia.
Qed.

Lemma crc32_zlib data : crc32 data = zlib_crc32 data 0.
Proof.
  unfold crc32. apply land_mask32, zlib_crc32_fits. unfold fits. lia.
Qed.

(** Feeding the checksum of a prefix back as the start value continues
    the checksum: [zlib.crc32(a + b, v) == zlib.crc32(b, zlib.crc32(a, v))]. *)
Lemma zlib_crc32_app a b v :
  zlib_crc32 (a ++ b) v = zlib_crc32 b (zlib_crc32 a v).
Proof.
  unfold zlib_crc32. rewrite fold_left_app. f_equal. f_equal.
  rewrite Z.lxor_assoc, Z.lxor_nilpotent, Z.lxor_0_r. reflexivity.
Qed.

(** The register update is one-to-one: bit 31 of the result tells
    whether the polynomial was folded in. *)
Lemma crc_round_bit31 c : fits 32 c -> Z.testbit (crc_round c) 31 = Z.testbit c 0.
Proof.
  intros H. unfold crc_round.
  assert (Hs : Z.testbit (Z.shiftr c 1) 31 = false).
  { rewrite Z.shiftr_spec by lia. change (31 + 1) with 32.
    apply fits_shiftr in H as [H0 H]; [|lia].
    rewrite <- (Z.add_0_l 32), <- Z.shiftr_spec by lia. rewrite H.
    apply Z.bits_0. }
  destruct (Z.testbit c 0) eqn:E.
  - rewrite Z.lxor_spec, Hs. reflexivity.
  - exact Hs.
Qed.

Lemma crc_round_inj c1 c2 :
  fits 32 c1 -> fits 32 c2 -> crc_round c1 = crc_round c2 -> c1 = c2.
Proof.
  intros H1 H2 E.
  assert (Hb : Z.testbit c1 0 = Z.testbit c2 0).
  { rewrite <- (crc_round_bit31 c1), <- (crc_round_bit31 c2), E by assumption.
    reflexivity. }
  unfold crc_round in E. rewrite <- Hb in E.
  assert (Hs : Z.shiftr c1 1 = Z.shiftr c2 1).
  { destruct (Z.testbit c1 0); [apply lxor_cancel_r in E|]; exact E. }
  rewrite <- !Z.div2_spec in Hs.
  rewrite (Z.div2_odd c1), (Z.div2_odd c2), Hs.
  rewrite <- !Z.bit0_odd, Hb. reflexivity.
Qed.

Lemma crc_rounds_inj k c1 c2 :
  fits 32 c1 -> fits 32 c2 ->
  Nat.iter k crc_round c1 = Nat.iter k crc_round c2 -> c1 = c2.
Proof.
  intros H1 H2. induction k; simpl; intros E; [exact E|].
  apply IHk, crc_round_inj; auto using crc_rounds_fits.
Qed.

Lemma byte_fits32 b : fits 32 (byte_val b).
Proof. apply fits_mono with 8; [lia|apply byte_val_range]. Qed.

Lemma crc_byte_inj_state c1 c2 b :
  fits 32 c1 -> fits 32 c2 -> crc_byte c1 b = crc_byte c2 b -> c1 = c2.
Proof.
  intros H1 H2 E. unfold crc_byte in E.
  apply crc_rounds_inj in E; auto using fits_lxor, byte_fits32 with lia.
  eapply lxor_cancel_r, E.
Qed.

Lemma crc_byte_inj_byte c b1 b2 :
  fits 32 c -> crc_byte c b1 = crc_byte c b2 -> b1 = b2.
Proof.
  intros H E. unfold crc_byte in E.
  apply crc_rounds_inj in E; auto using fits_lxor, byte_fits32 with lia.
  apply byte_val_inj. eapply lxor_cancel_l, E.
Qed.

Lemma crc_fold_inj data c1 c2 :
  fits 32 c1 -> fits 32 c2 ->
  fold_left crc_byte data c1 = fold_left crc_byte data c2 -> c1 = c2.
Proof.
  revert c1 c2. induction data as [|b data IH]; simpl; intros c1 c2 H1 H2 E.
  - exact E.
  - apply IH in E; auto using crc_byte_fits.
    eapply crc_byte_inj_state; eauto.
Qed.

(** Two messages that differ in exactly one byte have different
    checksums. *)
Lemma crc32_one_byte pre b1 b2 suf :
  b1 <> b2 -> crc32 (pre ++ b1 :: suf) <> crc32 (pre ++ b2 :: suf).
Proof.
  intros Hne E. rewrite !crc32_zlib in E. unfold zlib_crc32 in E.
  apply lxor_cancel_r in E. rewrite !fold_left_app in E. simpl in E.
  set (c := fold_left crc_byte pre (Z.lxor 0 mask32)) in *.
  assert (Hc : fits 32 c).
  { apply crc_fold_fits, fits_lxor; [lia| |apply mask32_fits]. unfold fits. lia. }
  apply crc_fold_inj in E; auto using crc_byte_fits.
  apply crc_byte_inj_byte in E; auto.
Qed.

(** ** [struct] round trips *)

Lemma be_encode_length n v : length (be_encode n v) = n.
Proof. induction n; simpl; congruence. Qed.

Lemma be_decode_fold n v acc :
  fold_left (fun a b => a * 256 + byte_val b) (be_encode n v) acc
  = acc * 2 ^ (8 * Z.of_nat n) + v mod 2 ^ (8 * Z.of_nat n).
Proof.
  revert acc. induction n as [|n IH]; intros acc.
  - simpl. rewrite Z.mod_1_r. lia.
  - cbn [be_encode fold_left]. rewrite IH, byte_val_of.
    rewrite Z.shiftr_div_pow2 by lia.
    replace (8 * Z.of_nat (S n)) with (8 * Z.of_nat n + 8) by lia.
    rewrite Z.pow_add_r by lia. change (2 ^ 8) with 256.
    assert (0 < 2 ^ (8 * Z.of_nat n)) by (apply Z.pow_pos_nonneg; lia).
    rewrite Z.rem_mul_r by lia. lia.
Qed.

Lemma be_decode_encode n v :
  fits (8 * Z.of_nat n) v -> be_decode (be_encode n v) = v.
Proof.
  intros H. unfold be_decode. rewrite be_decode_fold.
  rewrite Z.mod_small by exact H. lia.
Qed.

Lemma struct_pack_inv_cons w fmt v vals bs :
  struct_pack (w :: fmt) (v :: vals) = Ok bs ->
  fits (8 * Z.of_nat w) v /\
  exists rest, struct_pack fmt vals = Ok rest /\ bs = be_encode w v ++ rest.
Proof.
  cbn [struct_pack].
  destruct (0 <=? v) eqn:E1; [|discriminate].
  destruct (v <? 2 ^ (8 * Z.of_nat w)) eqn:E2; [|discriminate].
  cbn [andb]. destruct (struct_pack fmt vals) as [rest|] eqn:E; [|discriminate].
  intros [= <-]. split; [unfold fits; lia|]. eauto.
Qed.

Lemma struct_pack_length fmt vals bs :
  struct_pack fmt vals = Ok bs -> length bs = calcsize fmt.
Proof.
  revert vals bs. induction fmt as [|w fmt IH]; intros [|v vals] bs H;
    try discriminate.
  - injection H as <-. reflexivity.
  - apply struct_pack_inv_cons in H as (_ & rest & Hr & ->).
    rewrite length_app, be_encode_length. unfold calcsize. simpl.
    f_equal. apply (IH _ _ Hr).
Qed.

(** Unpacking a packed buffer gives the values back, whatever follows
    the buffer. *)
Lemma unpack_fields_pack fmt vals bs extra :
  struct_pack fmt vals = Ok bs -> unpack_fields fmt (bs ++ extra) = vals.
Proof.
  revert vals bs. induction fmt as [|w fmt IH]; intros [|v vals] bs H;
    try discriminate.
  - reflexivity.
  - apply struct_pack_inv_cons in H as (Hv & rest & Hr & ->).
    cbn [unpack_fields]. rewrite <- app_assoc.
    rewrite take_app_length' by (symmetry; apply be_encode_length).
    rewrite drop_app_length' by (symmetry; apply be_encode_length).
    rewrite be_decode_encode by exact Hv. f_equal. apply (IH _ _ Hr).
Qed.

Lemma struct_unpack_pack fmt vals bs :
  struct_pack fmt vals = Ok bs -> struct_unpack fmt bs = Ok vals.
Proof.
  intros H. unfold struct_unpack.
  rewrite decide_True by (eapply struct_pack_length; eauto).
  rewrite <- (app_nil_r bs), (unpack_fields_pack _ _ _ _ H). reflexivity.
Qed.

(** Packing with one more trailing field appends that field. *)
Lemma struct_pack_snoc fmt vals bs w v :
  struct_pack fmt vals = Ok bs -> fits (8 * Z.of_nat w) v ->
  struct_pack (fmt ++ [w]) (vals ++ [v]) = Ok (bs ++ be_encode w v).
Proof.
  revert vals bs. induction fmt as [|w' fmt IH]; intros [|v' vals] bs H Hv;
    try discriminate.
  - injection H as <-. cbn. unfold fits in Hv.
    rewrite (proj2 (Z.leb_le _ _)), (proj2 (Z.ltb_lt _ _)) by lia.
    cbn. rewrite app_nil_r. reflexivity.
  - pose proof H as H'. apply struct_pack_inv_cons in H' as (Hv' & rest & Hr & ->).
    cbn [app struct_pack]. unfold fits in Hv'.
    rewrite (proj2 (Z.leb_le _ _)), (proj2 (Z.ltb_lt _ _)) by lia.
    cbn [andb]. rewrite (IH _ _ Hr Hv). cbn. rewrite app_assoc. reflexivity.
Qed.

(** ** Slices *)

Lemma slice_prefix {A} (a b : list A) n :
  n = len a -> slice 0 n (a ++ b) = a.
Proof.
  intros ->. unfold slice, len. rewrite Z.sub_0_r, Nat2Z.id. simpl.
  apply take_app_length.
Qed.

Lemma slice_prefix_le {A} (a b : list A) n :
  0 <= n <= len a -> slice 0 n (a ++ b) = slice 0 n a.
Proof.
  intros H. unfold slice, len in *. rewrite Z.sub_0_r.
  change (Z.to_nat 0) with O. rewrite !drop_0. apply take_app_le. lia.
Qed.

Lemma slice_after {A} (a b : list A) n k :
  n = len a -> slice n (n + k) (a ++ b) = take (Z.to_nat k) b.
Proof.
  intros ->. unfold slice, len. rewrite Nat2Z.id.
  replace (Z.of_nat (length a) + k - Z.of_nat (length a)) with k by lia.
  rewrite drop_app_length. reflexivity.
Qed.

Lemma len_app {A} (a b : list A) : len (a ++ b) = len a + len b.
Proof. unfold len. rewrite length_app. lia. Qed.

Lemma len_nonneg {A} (a : list A) : 0 <= len a.
Proof. unfold len. lia. Qed.

(** ** DATA frames *)

Lemma pack_data_inv w s ts off p fl frame :
  pack_data w s ts off p fl = Ok frame ->
  exists hw,
    struct_pack DATA_HDR_WO_CRC (data_header_vals w s ts off p fl) = Ok hw /\
    frame = (hw ++ be_encode 4 (crc32 (hw ++ p))) ++ p.
Proof.
  unfold pack_data. fold (data_header_vals w s ts off p fl).
  destruct (struct_pack DATA_HDR_WO_CRC _) as [hw|] eqn:E; [|discriminate].
  cbn [mbind result_bind].
  change DATA_HDR with (DATA_HDR_WO_CRC ++ [4%nat]).
  change [T_DATA; VERSION; fl; Z.land w 255; s; ts; off; len p; crc32 (hw ++ p)]
    with (data_header_vals w s ts off p fl ++ [crc32 (hw ++ p)]).
  rewrite (struct_pack_snoc _ _ _ 4 _ E) by apply (crc32_fits (hw ++ p)).
  intros [= <-]. eauto.
Qed.

Lemma DATA_HDR_SIZE_eq : DATA_HDR_SIZE = 30.
Proof. reflexivity. Qed.

(** A packed DATA frame decodes to the values it was packed from,
    whatever bytes follow it in the buffer. *)
Lemma unpack_data_packed w s ts off p fl frame extra :
  pack_data w s ts off p fl = Ok frame ->
  unpack_data (frame ++ extra)
  = Ok (Z.land w 0xFF, s, ts, off, len p, p, negb (Z.land fl F_FINAL =? 0)).
Proof.
  intros H. apply pack_data_inv in H as (hw & Hhw & ->).
  pose proof (struct_pack_length _ _ _ Hhw) as Lhw.
  set (crcb := be_encode 4 (crc32 (hw ++ p))).
  assert (Lc : length crcb = 4%nat) by apply be_encode_length.
  assert (Hhdr : struct_pack DATA_HDR
                   (data_header_vals w s ts off p fl ++ [crc32 (hw ++ p)])
                 = Ok (hw ++ crcb)).
  { apply (struct_pack_snoc DATA_HDR_WO_CRC _ _ 4 _ Hhw), crc32_fits. }
  assert (Lh : len (hw ++ crcb) = DATA_HDR_SIZE).
  { unfold len. rewrite (struct_pack_length _ _ _ Hhdr). reflexivity. }
  unfold unpack_data.
  assert (Hlen : (len (((hw ++ crcb) ++ p) ++ extra) <? DATA_HDR_SIZE) = false).
  { apply Z.ltb_ge. rewrite !len_app in *. pose proof (len_nonneg p).
    pose proof (len_nonneg extra). lia. }
  rewrite Hlen.
  rewrite <- (app_assoc (hw ++ crcb) p extra).
  rewrite (slice_prefix (hw ++ crcb) _ DATA_HDR_SIZE) by (symmetry; exact Lh).
  rewrite (struct_unpack_pack _ _ _ Hhdr).
  cbn [mbind result_bind data_header_vals app].
  change (negb (T_DATA =? T_DATA) || negb (VERSION =? VERSION)) with false.
  cbv iota.
  rewrite (slice_after (hw ++ crcb) _ DATA_HDR_SIZE) by (symmetry; exact Lh).
  assert (Htake : take (Z.to_nat (len p)) (p ++ extra) = p).
  { unfold len. rewrite Nat2Z.id. apply take_app_length. }
  rewrite Htake.
  rewrite <- (app_assoc hw crcb (p ++ extra)).
  rewrite (slice_prefix hw _ (DATA_HDR_SIZE - 4)).
  2:{ unfold len. rewrite Lhw. reflexivity. }
  rewrite Z.eqb_refl. reflexivity.
Qed.

(** ** The segmenter *)

Lemma chunk_loop_step ss rest seq off :
  0 <= ss ->
  chunk_loop ss rest seq off =
  match take (Z.to_nat ss) rest with
  | [] => []
  | b :: data =>
      (seq, off, b :: data)
        :: chunk_loop ss (drop (Z.to_nat ss) rest) (seq + 1)
             (off + len (b :: data))
  end.
Proof.
  intros Hss. funelim (chunk_loop ss rest seq off);
    match goal with e : file_read _ _ = _ |- _ =>
      pose proof e as e'; unfold file_read in e';
      rewrite (proj2 (Z.ltb_ge _ _)) in e' by lia;
      injection e' as Hd Hr; rewrite Hd, ?Hr; reflexivity
    end.
Qed.

Lemma chunk_loop_nil ss seq off : 0 <= ss -> chunk_loop ss [] seq off = [].
Proof.
  intros H. rewrite chunk_loop_step by exact H. rewrite take_nil. reflexivity.
Qed.

Lemma chunk_loop_cons ss rest seq off :
  1 <= ss -> rest <> [] ->
  chunk_loop ss rest seq off
  = (seq, off, take (Z.to_nat ss) rest)
      :: chunk_loop ss (drop (Z.to_nat ss) rest) (seq + 1)
           (off + len (take (Z.to_nat ss) rest)).
Proof.
  intros Hss Hne. rewrite chunk_loop_step by lia.
  destruct rest as [|b rest]; [congruence|].
  destruct (Z.to_nat ss) as [|n] eqn:E; [lia|]. reflexivity.
Qed.

(** Induction along the reads of [chunk_file]. *)
Lemma chunk_ind (n : nat) (Hn : (1 <= n)%nat) (P : bytes -> Prop) :
  P [] ->
  (forall rest, rest <> [] -> P (drop n rest) -> P rest) ->
  forall rest, P rest.
Proof.
  intros Hnil Hstep rest.
  remember (length rest) as k eqn:Hk. revert rest Hk.
  induction k as [k IH] using lt_wf_ind. intros rest Hk.
  destruct rest as [|b rest]; [exact Hnil|].
  apply Hstep; [discriminate|].
  apply (IH (length (drop n (b :: rest)))); [|reflexivity].
  rewrite length_drop. subst k. simpl. lia.
Qed.

Section Chunks.
Variable ss : Z.
Hypothesis Hss : 1 <= ss.

Let n := Z.to_nat ss.

Lemma reads_progress : (1 <= n)%nat.
Proof. unfold n. lia. Qed.

Lemma chunk_payloads rest seq off :
  concat (map chunk_payload (chunk_loop ss rest seq off)) = rest.
Proof.
  revert seq off. induction rest as [|rest Hne IH]
    using (chunk_ind n reads_progress); intros seq off.
  - rewrite chunk_loop_nil by lia. reflexivity.
  - rewrite chunk_loop_cons by assumption. cbn [map concat chunk_payload snd].
    fold n. rewrite IH. apply take_drop.
Qed.

Lemma chunk_seqs rest seq off :
  map chunk_seq (chunk_loop ss rest seq off)
  = seqZ seq (len (chunk_loop ss rest seq off)).
Proof.
  revert seq off. induction rest as [|rest Hne IH]
    using (chunk_ind n reads_progress); intros seq off.
  - rewrite chunk_loop_nil by lia. reflexivity.
  - rewrite chunk_loop_cons by assumption. fold n.
    cbn [map]. rewrite IH. unfold len. cbn [length].
    rewrite (seqZ_cons seq) by lia. f_equal. f_equal; lia.
Qed.

Lemma chunk_count rest seq off :
  len (chunk_loop ss rest seq off) <= len rest.
Proof.
  revert seq off. induction rest as [|rest Hne IH]
    using (chunk_ind n reads_progress); intros seq off.
  - rewrite chunk_loop_nil by lia. reflexivity.
  - rewrite chunk_loop_cons by assumption. fold n.
    specialize (IH (seq + 1) (off + len (take n rest))).
    unfold len in *. cbn [length]. rewrite length_drop in IH.
    destruct rest; [congruence|]. simpl in *. lia.
Qed.

(** Every chunk is non-empty, no longer than the segment size, and
    lies within the file. *)
Lemma chunk_bounds rest seq off :
  Forall (fun c => 0 < len (chunk_payload c) <= ss /\
                   off <= chunk_offset c /\
                   chunk_offset c + len (chunk_payload c) <= off + len rest)
    (chunk_loop ss rest seq off).
Proof.
  revert seq off. induction rest as [|rest Hne IH]
    using (chunk_ind n reads_progress); intros seq off.
  - rewrite chunk_loop_nil by lia. constructor.
  - rewrite chunk_loop_cons by assumption. fold n.
    assert (Hl : len rest = len (take n rest) + len (drop n rest)).
    { rewrite <- len_app, take_drop. reflexivity. }
    assert (Ht : 0 < len (take n rest) <= ss).
    { unfold len. rewrite length_take. destruct rest; [congruence|].
      simpl. lia. }
    pose proof (len_nonneg (drop n rest)).
    constructor.
    + cbn. lia.
    + eapply Forall_impl; [apply IH|]. cbn. intros c. lia.
Qed.

(** Only the last chunk reaches the end of the file. *)
Lemma chunk_last rest seq off total :
  total = off + len rest ->
  map (fun c => total <=? chunk_offset c + len (chunk_payload c))
    (chunk_loop ss rest seq off)
  = replicate (length (chunk_loop ss rest seq off) - 1) false
      ++ (if decide (rest = []) then [] else [true]).
Proof.
  revert seq off. induction rest as [|rest Hne IH]
    using (chunk_ind n reads_progress); intros seq off Ht.
  - rewrite chunk_loop_nil by lia. reflexivity.
  - rewrite chunk_loop_cons by assumption. fold n.
    assert (Hl : len rest = len (take n rest) + len (drop n rest)).
    { rewrite <- len_app, take_drop. reflexivity. }
    rewrite decide_False by assumption.
    cbn [map length chunk_offset chunk_payload fst snd].
    rewrite IH by lia.
    destruct (decide (drop n rest = [])) as [E|E].
    + rewrite E in *. rewrite chunk_loop_nil by lia. cbn.
      f_equal. apply Z.leb_le. unfold len in *. simpl in *. lia.
    + assert (0 < len (drop n rest)).
      { unfold len. destruct (drop n rest); [congruence|]. simpl. lia. }
      assert (Hc : (1 <= length (chunk_loop ss (drop n rest) (seq + 1)
                                  (off + len (take n rest))))%nat).
      { rewrite (chunk_loop_cons ss (drop n rest)) by assumption.
        simpl. lia. }
      set (cs' := chunk_loop ss (drop n rest) (seq + 1)
                    (off + len (take n rest))) in *.
      replace (S (length cs') - 1)%nat with (S (length cs' - 1)) by lia.
      cbn [replicate app]. f_equal. apply Z.leb_gt. lia.
Qed.
End Chunks.

(** ** The frames [handle_get] builds *)

Lemma get_step_inv ts segs0 n0 crc0 c acc :
  get_step ts (segs0, n0, crc0) c = Ok acc ->
  exists pkt, built ts c pkt /\
    acc = (<[chunk_seq c := pkt]> segs0, n0 + 1,
           Z.land (zlib_crc32 (chunk_payload c) crc0) mask32).
Proof.
  unfold get_step, built, chunk_flags, chunk_seq, chunk_offset, chunk_payload.
  destruct c as [[seq off] payload]. cbn [fst snd].
  destruct (pack_data _ _ _ _ _ _) as [pkt|]; [|discriminate].
  intros [= <-]. eauto.
Qed.

Lemma get_loop_spec ts chunks segs0 n0 crc0 segs n crc :
  get_loop ts (segs0, n0, crc0) chunks = Ok (segs, n, crc) ->
  fits 32 crc0 ->
  NoDup (map chunk_seq chunks) ->
  n = n0 + len chunks /\
  crc = zlib_crc32 (concat (map chunk_payload chunks)) crc0 /\
  exists pkts,
    Forall2 (built ts) chunks pkts /\
    Forall2 (fun c pkt => segs !! chunk_seq c = Some pkt) chunks pkts /\
    (forall k, k ∉ map chunk_seq chunks -> segs !! k = segs0 !! k).
Proof.
  revert segs0 n0 crc0. induction chunks as [|c chunks IH];
    intros segs0 n0 crc0 H Hcrc Hnd.
  - injection H as <- <- <-. unfold len. cbn.
    split; [lia|]. split.
    + unfold zlib_crc32. cbn.
      rewrite Z.lxor_assoc, Z.lxor_nilpotent, Z.lxor_0_r. reflexivity.
    + exists []. auto.
  - cbn [get_loop] in H.
    destruct (get_step ts (segs0, n0, crc0) c) as [acc|] eqn:E; [|discriminate].
    apply get_step_inv in E as (pkt & Hb & ->). cbn [mbind result_bind] in H.
    cbn [map] in Hnd. apply NoDup_cons in Hnd as [Hc Hnd].
    rewrite land_mask32 in H by (apply zlib_crc32_fits, Hcrc).
    apply IH in H as (Hn & Hcr & pkts & Hbs & Hlk & Hout);
      [|apply zlib_crc32_fits, Hcrc|exact Hnd].
    split; [unfold len in *; cbn [length]; lia|]. split.
    + cbn [map concat]. rewrite zlib_crc32_app. exact Hcr.
    + exists (pkt :: pkts). split; [constructor; assumption|]. split.
      * constructor; [|exact Hlk].
        rewrite Hout by exact Hc. apply lookup_insert_eq.
      * intros k Hk. cbn [map] in Hk. apply not_elem_of_cons in Hk as [Hk1 Hk2].
        rewrite Hout by exact Hk2. apply lookup_insert_ne. congruence.
Qed.

Lemma send_all_ok segs keys pkts :
  Forall2 (fun k pkt => segs !! k = Some pkt) keys pkts ->
  send_all segs keys = Ok pkts.
Proof.
  induction 1 as [|k pkt keys pkts Hk _ IH]; [reflexivity|].
  cbn [send_all]. rewrite Hk, IH. reflexivity.
Qed.

Lemma join_segments_chunks (buffer : gmap Z bytes) chunks :
  map chunk_seq chunks = seqZ 0 (len chunks) ->
  (forall c, c ∈ chunks -> buffer !! chunk_seq c = Some (chunk_payload c)) ->
  join_segments buffer (len chunks) = concat (map chunk_payload chunks).
Proof.
  intros Hs Hb. unfold join_segments. rewrite <- Hs. f_equal.
  rewrite map_map. apply map_ext_in. intros c Hc.
  rewrite Hb by (apply list_elem_of_In; exact Hc). reflexivity.
Qed.

Lemma clamped_segment_size size0 :
  1 <= segment_size (UDPServer_init size0) <= 1300.
Proof. cbn. lia. Qed.

Lemma struct_pack_ok fmt vals :
  Forall2 (fun w v => fits (8 * Z.of_nat w) v) fmt vals ->
  exists bs, struct_pack fmt vals = Ok bs.
Proof.
  induction 1 as [|w v fmt vals Hv _ [bs IH]]; [eexists; reflexivity|].
  cbn [struct_pack]. unfold fits in Hv.
  rewrite (proj2 (Z.leb_le _ _)), (proj2 (Z.ltb_lt _ _)) by lia.
  cbn [andb]. rewrite IH. eexists. reflexivity.
Qed.

Lemma pack_data_ok s ts off p fl :
  fits 8 fl -> fits 32 s -> fits 64 ts -> fits 64 off -> fits 16 (len p) ->
  exists frame, pack_data 0 s ts off p fl = Ok frame.
Proof.
  intros Hfl Hs Hts Hoff Hp. unfold pack_data.
  destruct (struct_pack_ok DATA_HDR_WO_CRC
              [T_DATA; VERSION; fl; Z.land 0 255; s; ts; off; len p])
    as [hw Hhw].
  { repeat match goal with |- Forall2 _ _ _ => constructor end;
      try assumption; unfold fits, T_DATA, VERSION;
      change (2 ^ (8 * Z.of_nat 1)) with 256; change (Z.land 0 255) with 0; lia. }
  rewrite Hhw. cbn [mbind result_bind].
  change DATA_HDR with (DATA_HDR_WO_CRC ++ [4%nat]).
  change [T_DATA; VERSION; fl; Z.land 0 255; s; ts; off; len p; crc32 (hw ++ p)]
    with ([T_DATA; VERSION; fl; Z.land 0 255; s; ts; off; len p]
            ++ [crc32 (hw ++ p)]).
  rewrite (struct_pack_snoc _ _ _ 4 _ Hhw) by apply (crc32_fits (hw ++ p)).
  eexists. reflexivity.
Qed.

Lemma get_loop_ok ts chunks acc :
  fits 64 ts ->
  Forall (fun c => fits 32 (chunk_seq c) /\ fits 64 (chunk_offset c) /\
                   fits 16 (len (chunk_payload c))) chunks ->
  exists r, get_loop ts acc chunks = Ok r.
Proof.
  intros Hts H. revert acc.
  induction H as [|c chunks (Hs & Ho & Hp) _ IH]; intros acc;
    [eexists; reflexivity|].
  cbn [get_loop]. destruct acc as [[segs n] crc], c as [[seq off] payload].
  unfold chunk_seq, chunk_offset, chunk_payload in *. cbn [fst snd] in *.
  unfold get_step.
  destruct (pack_data_ok seq ts off payload
              (if ts <=? off + len payload then Z.lor 0 F_FINAL else 0))
    as [pkt Hpkt]; try assumption.
  { change (Z.lor 0 F_FINAL) with 1. destruct (ts <=? _); unfold fits; lia. }
  rewrite Hpkt. cbn [mbind result_bind]. apply IH.
Qed.

(** Every file shorter than 4 GiB is segmented and framed without error. *)
Lemma get_loop_succeeds contents ss acc :
  1 <= ss <= 1300 -> len contents < 2 ^ 32 ->
  exists r, get_loop (len contents) acc (chunk_file contents ss) = Ok r.
Proof.
  intros Hss Hlen. pose proof (len_nonneg contents) as H0.
  apply get_loop_ok; [unfold fits; lia|].
  assert (Hseq := chunk_seqs ss (proj1 Hss) contents 0 0).
  assert (Hcnt := chunk_count ss (proj1 Hss) contents 0 0).
  assert (Hb := chunk_bounds ss (proj1 Hss) contents 0 0).
  fold (chunk_file contents ss) in Hseq, Hcnt, Hb.
  apply Forall_forall. intros c Hc.
  rewrite Forall_forall in Hb. specialize (Hb c Hc) as (Hp & Ho & Hend).
  assert (Hin : chunk_seq c ∈ map chunk_seq (chunk_file contents ss)).
  { apply list_elem_of_fmap. exists c. auto. }
  rewrite Hseq in Hin. apply elem_of_seqZ in Hin.
  unfold fits. lia.
Qed.

(** C1. Round trip: for every file contents and every segment size the
    server accepts (any requested size, clamped to 1..1300), the payloads
    yielded by [chunk_file], taken in ascending sequence order, concatenate
    to the contents; a client buffer that holds every payload under its
    sequence number reassembles to the contents; and the CRC-32 the server
    accumulates over the payloads equals the CRC-32 the client computes
    over the reassembled bytes. *)
Theorem segment_reassemble_roundtrip (contents : bytes) (size0 : Z)
    (buffer : gmap Z bytes) :
  let chunks := chunk_file contents (segment_size (UDPServer_init size0)) in
  (forall c, c ∈ chunks -> buffer !! chunk_seq c = Some (chunk_payload c)) ->
  map chunk_seq chunks = seqZ 0 (len chunks) /\
  concat (map chunk_payload chunks) = contents /\
  join_segments buffer (len chunks) = contents /\
  (forall segs n crc,
     get_loop (len contents) (∅, 0, 0) chunks = Ok (segs, n, crc) ->
     n = len chunks /\
     crc = Z.land (zlib_crc32 (join_segments buffer n) 0) mask32) /\
  (len contents < 2 ^ 32 ->
   exists segs crc,
     get_loop (len contents) (∅, 0, 0) chunks = Ok (segs, len chunks, crc)).
Proof.
  intros chunks Hbuf.
  pose proof (clamped_segment_size size0) as Hss.
  assert (Hseq : map chunk_seq chunks = seqZ 0 (len chunks))
    by (apply chunk_seqs; lia).
  assert (Hcat : concat (map chunk_payload chunks) = contents)
    by (apply chunk_payloads; lia).
  assert (Hjoin : join_segments buffer (len chunks) = contents).
  { rewrite (join_segments_chunks buffer chunks Hseq Hbuf). exact Hcat. }
  assert (Hspec : forall segs n crc,
             get_loop (len contents) (∅, 0, 0) chunks = Ok (segs, n, crc) ->
             n = len chunks /\
             crc = Z.land (zlib_crc32 (join_segments buffer n) 0) mask32).
  { intros segs n crc Hloop.
    apply get_loop_spec in Hloop as (Hn & Hcrc & _).
    2:{ unfold fits. lia. }
    2:{ rewrite Hseq. apply NoDup_seqZ. }
    rewrite Z.add_0_l in Hn. subst n. split; [reflexivity|].
    rewrite Hjoin, Hcrc, Hcat. symmetry. apply (crc32_zlib contents). }
  split; [exact Hseq|]. split; [exact Hcat|]. split; [exact Hjoin|].
  split; [exact Hspec|].
  intros Hlen.
  destruct (get_loop_succeeds contents _ (∅, 0, 0) Hss Hlen) as [[[segs n] crc] H].
  fold chunks in H. destruct (Hspec _ _ _ H) as [-> _]. eauto.
Qed.

Lemma unpack_end_packed n c e :
  pack_end n c = Ok e -> unpack_end e = Ok (n, c).
Proof.
  unfold pack_end, unpack_end. intros H.
  pose proof (struct_pack_length _ _ _ H) as L.
  assert (Hl : len e = END_HDR_SIZE) by (unfold len; rewrite L; reflexivity).
  rewrite Hl, Z.ltb_irrefl.
  rewrite <- (app_nil_r e) at 1.
  rewrite (slice_prefix e [] END_HDR_SIZE) by (symmetry; exact Hl).
  rewrite (struct_unpack_pack _ _ _ H). reflexivity.
Qed.

Lemma is_final_built ts c pkt :
  built ts c pkt ->
  unpack_data pkt
  = Ok (0, chunk_seq c, ts, chunk_offset c, len (chunk_payload c),
        chunk_payload c, ts <=? chunk_offset c + len (chunk_payload c)).
Proof.
  intros H. unfold built in H.
  rewrite <- (app_nil_r pkt), (unpack_data_packed _ _ _ _ _ _ _ [] H).
  unfold chunk_flags. destruct (ts <=? _); reflexivity.
Qed.

Lemma final_count_map pkts :
  final_count pkts = length (List.filter id (map is_final_frame pkts)).
Proof.
  unfold final_count. induction pkts as [|p pkts IH]; [reflexivity|].
  cbn [List.filter map]. unfold id at 1. destruct (is_final_frame p); cbn [length];
    rewrite IH; reflexivity.
Qed.

Lemma filter_id_replicate_false k tl :
  List.filter id (replicate k false ++ tl) = List.filter id tl.
Proof. induction k; [reflexivity|exact IHk]. Qed.

(** What [handle_get] does for a file it finds. *)
Lemma handle_get_found fs srv data addr filename contents srv' out :
  1 <= segment_size srv ->
  unpack_get data = Ok filename ->
  fs filename = Found contents ->
  handle_get fs srv data addr = Ok (srv', out) ->
  let chunks := chunk_file contents (segment_size srv) in
  exists segs pkts e,
    Forall2 (built (len contents)) chunks pkts /\
    Forall2 (fun c pkt => segs !! chunk_seq c = Some pkt) chunks pkts /\
    (forall k, k ∉ map chunk_seq chunks -> segs !! k = None) /\
    pack_end (len chunks) (crc32 contents) = Ok e /\
    out = pkts ++ [e] /\
    client_segments srv' = <[addr := segs]> (client_segments srv) /\
    segment_size srv' = segment_size srv.
Proof.
  intros Hss Hname Hfs H chunks. unfold handle_get in H.
  rewrite Hname, Hfs in H. fold chunks in H.
  destruct (get_loop (len contents) (∅, 0, 0) chunks) as [[[segs n] crc]|] eqn:E;
    [|discriminate].
  cbn [mbind result_bind] in H.
  assert (Hseq : map chunk_seq chunks = seqZ 0 (len chunks))
    by (apply chunk_seqs; exact Hss).
  apply get_loop_spec in E as (Hn & Hcrc & pkts & Hb & Hlk & Hout).
  2:{ unfold fits. lia. }
  2:{ rewrite Hseq. apply NoDup_seqZ. }
  rewrite Z.add_0_l in Hn. subst n.
  rewrite (send_all_ok segs _ pkts) in H.
  2:{ rewrite <- Hseq. apply Forall2_fmap_l. exact Hlk. }
  cbn [mbind result_bind] in H.
  destruct (pack_end (len chunks) crc) as [e|] eqn:Ee; [|discriminate].
  injection H as <- <-.
  exists segs, pkts, e.
  split; [exact Hb|]. split; [exact Hlk|]. split.
  { intros k Hk. rewrite Hout by exact Hk. apply lookup_empty. }
  split.
  { rewrite <- Ee. f_equal. rewrite Hcrc.
    unfold chunks, chunk_file. rewrite chunk_payloads by exact Hss.
    apply crc32_zlib. }
  split; [reflexivity|]. split; reflexivity.
Qed.

Lemma final_flags_built ts chunks pkts :
  Forall2 (built ts) chunks pkts ->
  map is_final_frame pkts
  = map (fun c => ts <=? chunk_offset c + len (chunk_payload c)) chunks.
Proof.
  induction 1 as [|c pkt chunks pkts Hb _ IH]; [reflexivity|].
  cbn [map]. rewrite IH. f_equal.
  unfold is_final_frame. rewrite (is_final_built _ _ _ Hb). reflexivity.
Qed.

(** C6, as the code has it. For every file the server serves, a DATA
    frame carries the final flag if and only if its offset plus its payload
    length equals the file's total size; exactly one DATA frame carries the
    flag when the file is not empty, and a zero-length file gets no DATA
    frame at all, hence none with the flag. *)
Theorem final_flag_count fs srv data addr filename contents srv' out :
  1 <= segment_size srv ->
  unpack_get data = Ok filename ->
  fs filename = Found contents ->
  handle_get fs srv data addr = Ok (srv', out) ->
  exists pkts e,
    out = pkts ++ [e] /\
    unpack_end e = Ok (len pkts, crc32 contents) /\
    final_count pkts = (if decide (contents = []) then 0 else 1)%nat /\
    (contents = [] -> pkts = []) /\
    Forall (fun pkt => exists seq off payload fin,
              unpack_data pkt
              = Ok (0, seq, len contents, off, len payload, payload, fin) /\
              (fin = true <-> off + len payload = len contents)) pkts.
Proof.
  intros Hss Hname Hfs H.
  destruct (handle_get_found _ _ _ _ _ _ _ _ Hss Hname Hfs H)
    as (segs & pkts & e & Hb & _ & _ & He & -> & _).
  set (chunks := chunk_file contents (segment_size srv)) in *.
  exists pkts, e. split; [reflexivity|].
  assert (Hlen : len pkts = len chunks).
  { unfold len. rewrite (Forall2_length _ _ _ Hb). reflexivity. }
  split; [rewrite Hlen; apply unpack_end_packed, He|]. split.
  { rewrite final_count_map, (final_flags_built _ _ _ Hb).
    unfold chunks, chunk_file.
    rewrite (chunk_last _ Hss contents 0 0 (len contents)) by lia.
    rewrite filter_id_replicate_false. destruct (decide (contents = [])); reflexivity. }
  split.
  { intros ->. unfold chunks, chunk_file in Hb.
    rewrite chunk_loop_nil in Hb by lia. inversion Hb. reflexivity. }
  eapply Forall2_Forall_r; [exact Hb|].
  eapply Forall_impl; [apply (chunk_bounds _ Hss contents 0 0)|].
  intros c (Hp & Ho & Htot) pkt Hpkt. cbn beta in *.
  exists (chunk_seq c), (chunk_offset c), (chunk_payload c),
    (len contents <=? chunk_offset c + len (chunk_payload c)).
  split; [apply is_final_built, Hpkt|].
  rewrite Z.leb_le. lia.
Qed.

(** C6, counterexample to the claim as stated: served a zero-length file,
    the server builds no DATA frame (its cache for the requester is empty
    and the only datagram is the END frame), so no frame carries the final
    flag. *)
Lemma empty_file_has_no_final_frame :
  exists srv' e,
    serve [] DEFAULT_SEGMENT_SIZE = Ok (srv', [e]) /\
    client_segments srv' !! demo_addr = Some ∅ /\
    unpack_end e = Ok (0, 0) /\
    final_count [e] <> 1%nat.
Proof.
  eexists _, _. split; [vm_compute; reflexivity|].
  split; [vm_compute; reflexivity|].
  split; [vm_compute; reflexivity|].
  vm_compute. discriminate.
Qed.

(** C10. A well-formed DATA frame followed by any trailing bytes decodes
    successfully and to the same result as the frame alone: the payload is
    cut at the declared [payload_len] and the checksum is recomputed over
    the header without its checksum plus that payload only. *)
Theorem unpack_data_trailing_bytes w s ts off p fl frame extra :
  pack_data w s ts off p fl = Ok frame ->
  unpack_data (frame ++ extra) = unpack_data frame /\
  unpack_data (frame ++ extra)
  = Ok (Z.land w 0xFF, s, ts, off, len p, p, negb (Z.land fl F_FINAL =? 0)).
Proof.
  intros H. split.
  - rewrite (unpack_data_packed _ _ _ _ _ _ _ extra H).
    rewrite <- (app_nil_r frame) at 1.
    rewrite (unpack_data_packed _ _ _ _ _ _ _ [] H). reflexivity.
  - apply unpack_data_packed, H.
Qed.

(** ** The session store *)

Lemma built_lookup ts chunks pkts (segs : gmap Z bytes) k pkt :
  Forall2 (built ts) chunks pkts ->
  Forall2 (fun c p => segs !! chunk_seq c = Some p) chunks pkts ->
  k ∈ map chunk_seq chunks ->
  segs !! k = Some pkt ->
  exists c, built ts c pkt.
Proof.
  intros Hb. revert k pkt.
  induction Hb as [|c p chunks pkts Hc _ IH]; intros k pkt Hl Hk Hs.
  - inversion Hk.
  - inversion Hl; subst. cbn [map] in Hk. apply elem_of_cons in Hk as [->|Hk].
    + exists c. congruence.
    + eauto.
Qed.

Lemma handle_get_store_ok fs srv data addr srv' out :
  store_ok srv -> handle_get fs srv data addr = Ok (srv', out) -> store_ok srv'.
Proof.
  intros [Hss Hst] H.
  destruct (unpack_get data) as [filename|] eqn:Hname.
  2:{ unfold handle_get in H. rewrite Hname in H. injection H as <- <-.
      split; assumption. }
  destruct (fs filename) as [| |contents] eqn:Hfs.
  1,2: unfold handle_get in H; rewrite Hname, Hfs in H;
    match type of H with context [pack_err ?c ?m] =>
      destruct (pack_err c m); [|discriminate] end;
    injection H as <- <-; split; assumption.
  destruct (handle_get_found _ _ _ _ _ _ _ _ Hss Hname Hfs H)
    as (segs & pkts & e & Hb & Hlk & Hnone & _ & _ & Hcs & Hsz).
  split; [lia|]. intros a sg s pkt Ha Hs. rewrite Hcs in Ha.
  destruct (decide (addr = a)) as [->|Hne].
  - rewrite lookup_insert_eq in Ha. injection Ha as <-.
    destruct (decide (s ∈ map chunk_seq (chunk_file contents (segment_size srv))))
      as [Hin|Hout].
    + destruct (built_lookup _ _ _ _ _ _ Hb Hlk Hin Hs) as [c Hc]. eauto.
    + rewrite Hnone in Hs by exact Hout. discriminate.
  - rewrite lookup_insert_ne in Ha by exact Hne. eauto.
Qed.

Lemma handle_nack_state srv data addr : (handle_nack srv data addr).1 = srv.
Proof.
  unfold handle_nack. destruct (unpack_nack data); [|reflexivity].
  destruct (client_segments srv !! addr); [|reflexivity].
  destruct (decide (g = ∅)); reflexivity.
Qed.

Lemma reachable_store_ok fs srv : reachable fs srv -> store_ok srv.
Proof.
  induction 1 as [size0|srv data addr srv' out _ IH Hstep].
  - split; [apply clamped_segment_size|].
    intros addr segs s pkt Ha. cbn in Ha. rewrite lookup_empty in Ha.
    discriminate.
  - unfold serve_one in Hstep. destruct data as [|b data].
    { injection Hstep as <- <-. exact IH. }
    destruct (byte_val b =? T_GET).
    { eapply handle_get_store_ok; eauto. }
    destruct (byte_val b =? T_NACK).
    { injection Hstep as Hs.
      pose proof (handle_nack_state srv (b :: data) addr) as E.
      rewrite Hs in E. cbn in E. subst. exact IH. }
    destruct (byte_val b =? T_OK).
    { injection Hstep as <- <-. destruct IH as [Hss Hst]. split; [exact Hss|].
      intros a segs s pkt Ha. cbn in Ha.
      apply lookup_delete_Some in Ha as [_ Ha]. eauto. }
    injection Hstep as <- <-. exact IH.
Qed.

Lemma built_nonempty ts c pkt : built ts c pkt -> pkt <> [].
Proof.
  intros H. apply pack_data_inv in H as (hw & Hhw & ->).
  apply struct_pack_length in Hhw. destruct hw; [discriminate|]. discriminate.
Qed.

Lemma nack_sends_omap (segs : gmap Z bytes) seqs :
  (forall s pkt, segs !! s = Some pkt -> pkt <> []) ->
  nack_sends segs seqs = omap (fun s => segs !! s) seqs.
Proof.
  intros Hne. induction seqs as [|s seqs IH]; [reflexivity|].
  simpl. destruct (segs !! s) as [[|b pkt]|] eqn:E.
  - exfalso. eapply Hne; eauto.
  - f_equal. exact IH.
  - exact IH.
Qed.

(** The first header field of a buffer is its first byte. *)
Lemma first_field b (rest : bytes) n :
  1 <= n -> be_decode (take 1 (slice 0 n (b :: rest))) = byte_val b.
Proof.
  intros Hn. unfold slice. rewrite Z.sub_0_r. change (Z.to_nat 0) with O.
  rewrite drop_0. destruct (Z.to_nat n) as [|k] eqn:E; [lia|].
  unfold be_decode. cbn. rewrite take_0. cbn. lia.
Qed.

Lemma unpack_nack_type data seqs :
  unpack_nack data = Ok seqs ->
  exists b data', data = b :: data' /\ byte_val b = T_NACK.
Proof.
  unfold unpack_nack. destruct (len data <? NACK_HDR_SIZE) eqn:El; [discriminate|].
  destruct data as [|b data']; [discriminate|].
  unfold struct_unpack. destruct (decide _); [|discriminate].
  cbn [mbind result_bind unpack_fields NACK_HDR].
  destruct (negb (_ =? T_NACK) || _) eqn:E; [discriminate|]. intros _.
  apply orb_false_elim in E as [E _]. apply negb_false_iff, Z.eqb_eq in E.
  exists b, data'. split; [reflexivity|]. rewrite <- E.
  symmetry. apply first_field. vm_compute. discriminate.
Qed.

Lemma omap_lookup_empty (seqs : list Z) :
  omap (fun s => (∅ : gmap Z bytes) !! s) seqs = [].
Proof.
  induction seqs as [|s seqs IH]; [reflexivity|].
  simpl. rewrite lookup_empty. exact IH.
Qed.

(** C3. In every state the server can reach, a decoded NACK makes it
    send exactly the cached frames of the requested sequence numbers that
    are in the requester's cache, one per request and in the order asked,
    and nothing else; numbers not in the cache are skipped; a requester
    without a session gets nothing; the handler returns normally and the
    store is unchanged. *)
Theorem nack_retransmits_cached fs srv data addr seqs :
  reachable fs srv ->
  unpack_nack data = Ok seqs ->
  serve_one fs srv data addr
  = Ok (srv, match client_segments srv !! addr with
             | Some segs => omap (fun s => segs !! s) seqs
             | None => []
             end).
Proof.
  intros Hr Hn. apply reachable_store_ok in Hr as [_ Hst].
  destruct (unpack_nack_type _ _ Hn) as (b & data' & -> & Hb).
  unfold serve_one. rewrite Hb. cbn [Z.eqb T_NACK T_GET Pos.eqb]. f_equal.
  unfold handle_nack. rewrite Hn.
  destruct (client_segments srv !! addr) as [segs|] eqn:Ea; [|reflexivity].
  destruct (decide (segs = ∅)) as [->|Hne].
  - rewrite omap_lookup_empty. reflexivity.
  - f_equal. apply nack_sends_omap. intros s pkt Hs.
    destruct (Hst _ _ _ _ Ea Hs) as (ts & c & Hc).
    eapply built_nonempty, Hc.
Qed.

(** ** The client's END handling *)

Lemma be_decode_snoc bs b : be_decode (bs ++ [b]) = be_decode bs * 256 + byte_val b.
Proof. unfold be_decode. rewrite fold_left_app. reflexivity. Qed.

Lemma be_decode_fits bs : fits (8 * len bs) (be_decode bs).
Proof.
  induction bs as [|b bs IH] using rev_ind.
  - unfold fits, be_decode, len. cbn. lia.
  - rewrite be_decode_snoc, len_app. unfold fits in *.
    change (len [b]) with 1.
    replace (8 * (len bs + 1)) with (8 * len bs + 8) by lia.
    pose proof (len_nonneg bs). rewrite Z.pow_add_r by lia.
    change (2 ^ 8) with 256. pose proof (byte_val_range b). lia.
Qed.

Lemma be_decode_fits_le bs n : len bs <= n -> fits (8 * n) (be_decode bs).
Proof.
  intros H. eapply fits_mono; [|apply be_decode_fits]. lia.
Qed.

Lemma unpack_end_inv data tseg fcrc :
  unpack_end data = Ok (tseg, fcrc) ->
  fits 32 tseg /\ fits 32 fcrc /\
  exists b data', data = b :: data' /\ byte_val b = T_END.
Proof.
  unfold unpack_end. destruct (len data <? END_HDR_SIZE) eqn:El; [discriminate|].
  destruct data as [|b data']; [discriminate|].
  unfold struct_unpack. destruct (decide _); [|discriminate].
  cbn [mbind result_bind unpack_fields END_HDR].
  destruct (negb (_ =? T_END) || _) eqn:E; [discriminate|]. intros [= <- <-].
  apply orb_false_elim in E as [E _]. apply negb_false_iff, Z.eqb_eq in E.
  split; [|split].
  - apply (be_decode_fits_le _ 4). unfold len. rewrite length_take. lia.
  - apply (be_decode_fits_le _ 4). unfold len. rewrite length_take. lia.
  - exists b, data'. split; [reflexivity|]. rewrite <- E.
    symmetry. apply first_field. vm_compute. discriminate.
Qed.

Lemma elem_of_missing (segs : gmap Z bytes) t i :
  i ∈ filter (absent segs) (seqZ 0 t) <-> 0 <= i < t /\ segs !! i = None.
Proof.
  rewrite list_elem_of_filter, elem_of_seqZ. unfold absent.
  rewrite bool_decide_spec. intuition lia.
Qed.

(** A buffer with fewer than [t] entries lacks one of [0..t-1]. *)
Lemma missing_nonempty (segs : gmap Z bytes) t :
  Z.of_nat (size segs) < t -> filter (absent segs) (seqZ 0 t) <> [].
Proof.
  intros Hsz Hnil.
  assert (Hsub : (list_to_set (seqZ 0 t) : gset Z) ⊆ dom segs).
  { intros i Hi. apply elem_of_list_to_set in Hi. apply elem_of_dom.
    destruct (segs !! i) eqn:E; [eauto|].
    assert (Hin : i ∈ filter (absent segs) (seqZ 0 t)).
    { apply elem_of_missing. apply elem_of_seqZ in Hi. split; [lia|exact E]. }
    rewrite Hnil in Hin. inversion Hin. }
  apply subseteq_size in Hsub.
  rewrite size_list_to_set in Hsub by apply NoDup_seqZ.
  rewrite length_seqZ, size_dom in Hsub. lia.
Qed.

Lemma pack_seqs_ok l : Forall (fits 32) l -> exists b, pack_seqs l = Ok b.
Proof.
  induction 1 as [|s l Hs _ [b IH]]; [eexists; reflexivity|].
  cbn [pack_seqs struct_pack]. unfold fits in Hs.
  change (2 ^ (8 * Z.of_nat 4)) with (2 ^ 32).
  rewrite (proj2 (Z.leb_le _ _)), (proj2 (Z.ltb_lt _ _)) by lia.
  rewrite IH. eexists. reflexivity.
Qed.

Lemma pack_nack_ok l :
  Forall (fits 32) l -> len l <= 65535 -> exists nack, pack_nack l = Ok nack.
Proof.
  intros Hl Hn. destruct (pack_seqs_ok l Hl) as [body Hb].
  unfold pack_nack. rewrite Hb. cbn [struct_pack NACK_HDR].
  pose proof (len_nonneg l).
  change (2 ^ (8 * Z.of_nat 2)) with 65536.
  rewrite (proj2 (Z.leb_le 0 (len l))), (proj2 (Z.ltb_lt (len l) 65536)) by lia.
  eexists. reflexivity.
Qed.



(** ** The zero-length file *)

(** An END frame with an empty buffer: the loop is left with OK sent,
    and the code after the loop reports failure. *)
Lemma end_step_empty req dm st data rnd tseg fcrc :
  unpack_end data = Ok (tseg, fcrc) ->
  segments st = ∅ ->
  loop_step req dm st (Datagram data rnd)
  = Break (after_end st tseg fcrc) [demo_ok] /\
  finalize (after_end st tseg fcrc) = Ok Failed.
Proof.
  intros Hend Hempty.
  destruct (unpack_end_inv _ _ _ Hend) as (_ & _ & b & data' & -> & Hb).
  split.
  - unfold loop_step. rewrite Hb. cbn [Z.eqb T_END T_ERR T_DATA Pos.eqb].
    unfold on_end. rewrite Hend.
    cbn [segments set_timeout_count total_segments].
    fold (after_end st tseg fcrc).
    destruct (_ <? tseg); [|reflexivity].
    unfold _missing_segments. rewrite decide_True by exact Hempty. reflexivity.
  - unfold finalize. cbn [segments after_end].
    rewrite decide_True by exact Hempty. reflexivity.
Qed.

(** C5, as the code has it. For a zero-length file the server builds no
    DATA segment (the requester's cache is empty) and sends a single END
    frame declaring [total_segments = 0] with the CRC-32 of empty data,
    which is 0.  A client that receives this END frame in its receive loop,
    its buffer being empty, sends OK and leaves the loop, and the request
    reports failure: with no segment received the code after the loop
    returns [False]. *)
Theorem zero_length_file fs srv data addr filename srv' out req dm st sent rnd evs :
  1 <= segment_size srv ->
  unpack_get data = Ok filename ->
  fs filename = Found [] ->
  handle_get fs srv data addr = Ok (srv', out) ->
  segments st = ∅ ->
  exists e,
    out = [e] /\
    unpack_end e = Ok (0, crc32 []) /\
    crc32 [] = 0 /\
    client_segments srv' !! addr = Some ∅ /\
    loop_step req dm st (Datagram e rnd) = Break (after_end st 0 0) [demo_ok] /\
    run_loop req dm st sent (Datagram e rnd :: evs)
    = Ended Failed (sent ++ [demo_ok]).
Proof.
  intros Hss Hname Hfs H Hempty.
  destruct (handle_get_found _ _ _ _ _ _ _ _ Hss Hname Hfs H)
    as (segs & pkts & e & Hb & _ & Hnone & He & -> & Hcs & _).
  unfold chunk_file in *. rewrite chunk_loop_nil in * by lia.
  inversion Hb; subst. exists e.
  apply unpack_end_packed in He. change (len []) with 0 in He.
  destruct (end_step_empty req dm st e rnd _ _ He Hempty) as [Hstep Hfin].
  change (crc32 []) with 0 in *.
  split; [reflexivity|]. split; [exact He|]. split; [reflexivity|]. split.
  { rewrite Hcs, lookup_insert_eq. f_equal. apply map_empty.
    intros k. apply Hnone. cbn. apply not_elem_of_nil. }
  split; [exact Hstep|].
  cbn [run_loop]. rewrite Hstep, Hfin. reflexivity.
Qed.

(** C5, counterexample to the claim as stated: the client asks for a
    zero-length file.  The first END frame is the first datagram and is
    not decoded; after a timeout the client repeats the GET, the server
    answers with the same END frame, and on receiving it the client sends
    OK and the request fails. *)
Lemma zero_length_request_fails :
  served [] DEFAULT_SEGMENT_SIZE = [empty_end] /\
  unpack_end empty_end = Ok (0, crc32 []) /\
  request_file ∅ ∅ demo_name
    [Datagram empty_end false; Timeout; Datagram empty_end false]
  = Some (Ended Failed [demo_get; demo_get; demo_ok]).
Proof.
  split; [vm_compute; reflexivity|].
  split; vm_compute; reflexivity.
Qed.

(** ** The timeout counter and the first datagram *)

Lemma send_continue_inv st pkt st' out :
  send_continue st pkt = Continue st' out -> st' = st.
Proof. unfold send_continue. destruct pkt; [intros [= <- _]|]; easy. Qed.

Lemma on_timeout_continue req st st' out :
  on_timeout req st = Continue st' out ->
  timeout_count st' = timeout_count st + 1.
Proof.
  unfold on_timeout. cbn [timeout_count set_timeout_count segments
    total_segments max_seq].
  set (s1 := set_timeout_count st (timeout_count st + 1)).
  assert (Hs1 : timeout_count s1 = timeout_count st + 1) by reflexivity.
  destruct (max_timeouts <=? _); [discriminate|].
  destruct (_missing_segments _ _) as [[|s missing]|]; [| |discriminate].
  - destruct (decide _); [intros [= <- _]; exact Hs1|].
    destruct (_ && _); [|discriminate].
    intros H. apply send_continue_inv in H as ->. exact Hs1.
  - intros H. apply send_continue_inv in H as ->. exact Hs1.
Qed.

Lemma on_timeout_no_break req st st' out : on_timeout req st <> Break st' out.
Proof.
  unfold on_timeout, send_continue.
  destruct (max_timeouts <=? _); [discriminate|].
  destruct (_missing_segments _ _) as [[|s missing]|]; [| |discriminate].
  - destruct (decide _); [discriminate|].
    destruct (_ && _); [|discriminate]. destruct (pack_nack _); discriminate.
  - destruct (pack_nack _); discriminate.
Qed.

Lemma on_timeout_ceiling req st :
  max_timeouts <= timeout_count st + 1 -> on_timeout req st = ReturnFalse [].
Proof.
  intros H. unfold on_timeout. cbn [timeout_count set_timeout_count].
  rewrite (proj2 (Z.leb_le _ _) H). reflexivity.
Qed.

Lemma on_data_count dm st data rnd st' out :
  on_data dm st data rnd = Continue st' out \/
  on_data dm st data rnd = Break st' out ->
  timeout_count st' = timeout_count st.
Proof.
  unfold on_data, send_break.
  destruct (unpack_data data) as [[[[[[[w s] ts] off] plen] payload] fin]|].
  2:{ intros [[= <- _]|[=]]. reflexivity. }
  destruct (_ && _).
  { intros [[= <- _]|[=]]. reflexivity. }
  destruct rnd.
  { intros [[= <- _]|[=]]. reflexivity. }
  cbn [total_segments segments].
  destruct (if fin then _ else _) as [t|].
  - destruct (t <=? _); cbn; intros [[= <- _]|[= <- _]]; reflexivity.
  - intros [[= <- _]|[=]]. reflexivity.
Qed.

Lemma on_end_count st data st' out :
  on_end st data = Continue st' out \/ on_end st data = Break st' out ->
  timeout_count st' = timeout_count st.
Proof.
  unfold on_end, send_break, send_continue.
  destruct (unpack_end data) as [[tseg fcrc]|].
  2:{ intros [[= <- _]|[=]]. reflexivity. }
  destruct (_ <? tseg).
  - destruct (_missing_segments _ _) as [[|s miss]|].
    + cbn. intros [[=]|[= <- _]]. reflexivity.
    + destruct (pack_nack _); intros [[= <- _]|[=]]. reflexivity.
    + intros [[=]|[=]].
  - cbn. intros [[=]|[= <- _]]. reflexivity.
Qed.

Lemma datagram_resets_count req dm st data rnd st' out :
  loop_step req dm st (Datagram data rnd) = Continue st' out \/
  loop_step req dm st (Datagram data rnd) = Break st' out ->
  timeout_count st' = 0.
Proof.
  unfold loop_step. destruct data as [|b data]; [intros [[=]|[=]]|].
  destruct (byte_val b =? T_ERR); [intros [[=]|[=]]|].
  destruct (byte_val b =? T_DATA).
  { intros H. apply on_data_count in H. exact H. }
  destruct (byte_val b =? T_END).
  { intros H. apply on_end_count in H. exact H. }
  intros [[= <- _]|[=]]. reflexivity.
Qed.

Lemma run_loop_app req dm st sent evs1 evs2 :
  run_loop req dm st sent (evs1 ++ evs2)
  = match run_loop req dm st sent evs1 with
    | Receiving st' sent' => run_loop req dm st' sent' evs2
    | r => r
    end.
Proof.
  revert st sent. induction evs1 as [|ev evs1 IH]; intros st sent; [reflexivity|].
  cbn [app run_loop]. destruct (loop_step req dm st ev); try reflexivity.
  - apply IH.
  - destruct (finalize st0); reflexivity.
Qed.

Lemma loop_step_count_nonneg req dm st ev st' out :
  0 <= timeout_count st ->
  loop_step req dm st ev = Continue st' out ->
  0 <= timeout_count st'.
Proof.
  intros H0 H. destruct ev as [|data rnd].
  - apply on_timeout_continue in H. lia.
  - rewrite (datagram_resets_count req dm st data rnd st' out); [lia|auto].
Qed.

Lemma run_loop_count_nonneg req dm evs st sent st' sent' :
  0 <= timeout_count st ->
  run_loop req dm st sent evs = Receiving st' sent' ->
  0 <= timeout_count st'.
Proof.
  revert st sent. induction evs as [|ev evs IH]; intros st sent H0 H.
  - injection H as <- _. exact H0.
  - cbn [run_loop] in H.
    destruct (loop_step req dm st ev) as [s1 o1|s1 o1|o1|e1] eqn:E;
      try discriminate.
    + eapply IH; [|exact H]. eapply loop_step_count_nonneg; eauto.
    + destruct (finalize s1); discriminate.
Qed.

(** A run whose counter stands at [c] has ended by the time [3 - c]
    timeouts in a row have passed. *)
Lemma timeouts_in_a_row req dm (k : nat) st sent evs st' sent' :
  max_timeouts <= timeout_count st + Z.of_nat (S k) ->
  run_loop req dm st sent (Timeout :: replicate k Timeout ++ evs)
  <> Receiving st' sent'.
Proof.
  revert st sent. induction k as [|k IH]; intros st sent Hc.
  - cbn [run_loop loop_step]. rewrite on_timeout_ceiling by lia. discriminate.
  - cbn [run_loop loop_step].
    destruct (on_timeout req st) as [s1 o1|s1 o1|o1|e1] eqn:E; try discriminate.
    + apply on_timeout_continue in E. cbn [replicate app].
      apply IH. lia.
    + exfalso. eapply on_timeout_no_break, E.
Qed.

(** A timeout below the ceiling: the counter goes up by one and the
    loop goes on, unless the NACK cannot be packed or the buffer is
    non-empty with nothing to ask for. *)
Lemma on_timeout_below req st :
  timeout_count st + 1 < 3 ->
  (exists out,
     on_timeout req st
     = Continue (set_timeout_count st (timeout_count st + 1)) out) \/
  (exists e, on_timeout req st = Crash e) \/
  (on_timeout req st = ReturnFalse [] /\ segments st <> ∅).
Proof.
  intros Hlt. unfold on_timeout.
  cbn [timeout_count set_timeout_count segments total_segments max_seq].
  rewrite (proj2 (Z.leb_gt max_timeouts _)) by (unfold max_timeouts; lia).
  assert (Hsend : forall s pkt,
            (exists out, send_continue s pkt = Continue s out) \/
            (exists e, send_continue s pkt = Crash e) \/
            (send_continue s pkt = ReturnFalse [] /\ segments st <> ∅)).
  { intros s [p|e]; cbn; eauto. }
  destruct (_missing_segments _ _) as [[|s missing]|e]; [|apply Hsend|eauto].
  destruct (decide (segments st = ∅)) as [E|E]; [eauto|].
  destruct (_ && _); [apply Hsend|]. right. right. auto.
Qed.

Lemma on_timeout_empty req st :
  timeout_count st + 1 < 3 ->
  segments st = ∅ ->
  on_timeout req st
  = Continue (set_timeout_count st (timeout_count st + 1)) [req].
Proof.
  intros Hlt E. unfold on_timeout.
  cbn [timeout_count set_timeout_count segments total_segments max_seq].
  rewrite (proj2 (Z.leb_gt max_timeouts _)) by (unfold max_timeouts; lia).
  unfold _missing_segments. rewrite !decide_True by exact E. reflexivity.
Qed.

(** A received datagram is handled as from the state with the counter
    at zero, and leaves it at zero. *)
Lemma datagram_forgets_count req dm st data rnd :
  loop_step req dm st (Datagram data rnd)
  = loop_step req dm (set_timeout_count st 0) (Datagram data rnd).
Proof. reflexivity. Qed.

Lemma unknown_type_continues req dm st b rest rnd :
  byte_val b <> T_ERR -> byte_val b <> T_DATA -> byte_val b <> T_END ->
  loop_step req dm st (Datagram (b :: rest) rnd)
  = Continue (set_timeout_count st 0) [].
Proof.
  intros H1 H2 H3. cbn [loop_step]. cbv zeta.
  rewrite (proj2 (Z.eqb_neq _ _) H1), (proj2 (Z.eqb_neq _ _) H2),
    (proj2 (Z.eqb_neq _ _) H3). reflexivity.
Qed.

(** C8. In the receive loop the consecutive-timeout counter goes up by
    one on each timeout and back to zero on any datagram; a timeout that
    brings it to the ceiling of 3 makes the request return failure at once;
    so no run of the loop is still receiving after three timeouts in a row,
    wherever in the run they occur, while two timeouts in a row are
    survived: the ceiling is 3, neither less nor more. *)
Theorem consecutive_timeouts_abort req dm st sent evs1 evs2 :
  0 <= timeout_count st ->
  max_timeouts = 3 /\
  (forall s, timeout_count s + 1 < 3 ->
     (exists out,
        loop_step req dm s Timeout
        = Continue (set_timeout_count s (timeout_count s + 1)) out) \/
     (exists e, loop_step req dm s Timeout = Crash e) \/
     (loop_step req dm s Timeout = ReturnFalse [] /\ segments s <> ∅)) /\
  (forall s, timeout_count s + 1 < 3 -> segments s = ∅ ->
     loop_step req dm s Timeout
     = Continue (set_timeout_count s (timeout_count s + 1)) [req]) /\
  (forall s s' out, loop_step req dm s Timeout = Continue s' out ->
     timeout_count s' = timeout_count s + 1) /\
  (forall s data rnd,
     loop_step req dm s (Datagram data rnd)
     = loop_step req dm (set_timeout_count s 0) (Datagram data rnd)) /\
  (forall s s' data rnd out,
     loop_step req dm s (Datagram data rnd) = Continue s' out \/
     loop_step req dm s (Datagram data rnd) = Break s' out ->
     timeout_count s' = 0) /\
  (forall s b rest rnd,
     byte_val b <> T_ERR -> byte_val b <> T_DATA -> byte_val b <> T_END ->
     loop_step req dm s (Datagram (b :: rest) rnd)
     = Continue (set_timeout_count s 0) []) /\
  (forall s sent' evs, 3 <= timeout_count s + 1 ->
     loop_step req dm s Timeout = ReturnFalse [] /\
     run_loop req dm s sent' (Timeout :: evs) = Ended Failed (sent' ++ [])) /\
  (forall s sent', timeout_count s = 0 -> segments s = ∅ ->
     run_loop req dm s sent' [Timeout; Timeout]
     = Receiving (set_timeout_count s 2) (sent' ++ [req; req]) /\
     run_loop req dm s sent' [Timeout; Timeout; Timeout]
     = Ended Failed (sent' ++ [req; req])) /\
  (forall st' sent',
     run_loop req dm st sent (evs1 ++ [Timeout; Timeout; Timeout] ++ evs2)
     <> Receiving st' sent').
Proof.
  intros H0. split; [reflexivity|].
  split; [intros s Hs; apply on_timeout_below, Hs|].
  split; [intros s Hs E; apply on_timeout_empty; assumption|].
  split; [intros s s' out H; apply on_timeout_continue in H; exact H|].
  split; [intros s data rnd; apply datagram_forgets_count|].
  split; [intros s s' data rnd out H; eapply datagram_resets_count; exact H|].
  split; [intros s b rest rnd; apply unknown_type_continues|].
  split; [|split].
  - intros s sent' evs H. split; [apply on_timeout_ceiling; unfold max_timeouts; exact H|].
    cbn [run_loop loop_step].
    rewrite on_timeout_ceiling by (unfold max_timeouts; exact H). reflexivity.
  - intros s sent' Hc E.
    assert (H1 : on_timeout req s = Continue (set_timeout_count s 1) [req]).
    { rewrite on_timeout_empty by (try exact E; lia). rewrite Hc. reflexivity. }
    assert (H2 : on_timeout req (set_timeout_count s 1)
                 = Continue (set_timeout_count s 2) [req]).
    { rewrite on_timeout_empty by (cbn; try exact E; lia). reflexivity. }
    assert (H3 : on_timeout req (set_timeout_count s 2) = ReturnFalse []).
    { apply on_timeout_ceiling. cbn. unfold max_timeouts. lia. }
    cbn [run_loop loop_step]. rewrite H1, H2, H3, <- !app_assoc.
    rewrite app_nil_r. split; reflexivity.
  - intros st' sent'. rewrite run_loop_app.
    destruct (run_loop req dm st sent evs1) as [s1 sent1|v sent1|e sent1] eqn:E;
      try discriminate.
    apply run_loop_count_nonneg in E; [|exact H0].
    apply (timeouts_in_a_row req dm 2 s1 sent1 evs2). unfold max_timeouts. lia.
Qed.


(** ** Declared lengths that read past the buffer end *)

Lemma take_all {A} (l : list A) k : len l <= k -> take (Z.to_nat k) l = l.
Proof. intros H. apply take_ge. unfold len in H. lia. Qed.

Lemma nack_loop_fits n entries body pre tail :
  pack_seqs entries = Ok body ->
  len tail < 4 ->
  (length entries <= n)%nat ->
  nack_loop n (pre ++ body ++ tail) (len pre) = entries.
Proof.
  revert n body pre. induction entries as [|s entries IH];
    intros n body pre Hp Ht Hn.
  - injection Hp as <-. destruct n as [|n]; [reflexivity|].
    cbn [nack_loop app]. rewrite len_app.
    rewrite (proj2 (Z.ltb_lt _ _)) by lia. reflexivity.
  - destruct n as [|n]; [cbn in Hn; lia|].
    cbn [pack_seqs] in Hp.
    destruct (struct_pack [4%nat] [s]) as [b|] eqn:Es; [|discriminate].
    destruct (pack_seqs entries) as [body'|] eqn:Eb; [|discriminate].
    injection Hp as <-.
    apply struct_pack_inv_cons in Es as (Hs & r & Hr & ->).
    injection Hr as <-. rewrite app_nil_r.
    assert (Lb : len (be_encode 4 s) = 4).
    { unfold len. rewrite be_encode_length. reflexivity. }
    cbn [nack_loop]. rewrite !len_app, Lb.
    pose proof (len_nonneg body'). pose proof (len_nonneg tail).
    rewrite (proj2 (Z.ltb_ge _ _)) by lia.
    rewrite (slice_after pre _ (len pre) 4) by reflexivity.
    rewrite <- (app_assoc (be_encode 4 s)).
    change (Z.to_nat 4) with (length (be_encode 4 s)).
    rewrite take_app_length, be_decode_encode by exact Hs.
    f_equal.
    replace (len pre + 4) with (len (pre ++ be_encode 4 s))
      by (rewrite len_app; lia).
    rewrite (app_assoc pre). apply IH; [reflexivity|lia|cbn in Hn; lia].
Qed.

Lemma header_unpack fmt vals hdr (body : bytes) :
  struct_pack fmt vals = Ok hdr ->
  (len (hdr ++ body) <? Z.of_nat (calcsize fmt)) = false /\
  struct_unpack fmt (slice 0 (Z.of_nat (calcsize fmt)) (hdr ++ body)) = Ok vals.
Proof.
  intros H. pose proof (struct_pack_length _ _ _ H) as L. split.
  - apply Z.ltb_ge. rewrite len_app. unfold len at 1. rewrite L.
    pose proof (len_nonneg body). lia.
  - rewrite slice_prefix by (unfold len; rewrite L; reflexivity).
    apply struct_unpack_pack, H.
Qed.

(** C7, as the code has it. No decoder raises a malformed-frame error
    because a declared length reads past the end of the buffer: behind a
    well-formed header, GET and ERR decode the name or message bytes that
    are there, DATA takes the bytes that are there as the payload and
    accepts or rejects the frame on the checksum alone, and NACK returns the
    whole entries that fit.  (The same holds when the declared length is
    met exactly.) *)
Theorem declared_length_is_clipped :
  (forall flags name_len hdr body,
     struct_pack GET_HDR [T_GET; VERSION; flags; name_len] = Ok hdr ->
     len body <= name_len ->
     unpack_get (hdr ++ body) = utf8_decode body) /\
  (forall code mlen hdr body,
     struct_pack ERR_HDR [T_ERR; VERSION; code; mlen] = Ok hdr ->
     len body <= mlen ->
     unpack_err (hdr ++ body) = (msg ← utf8_decode body; Ok (code, msg))) /\
  (forall flags win seq ts off plen rx hdr body,
     struct_pack DATA_HDR [T_DATA; VERSION; flags; win; seq; ts; off; plen; rx]
     = Ok hdr ->
     len body <= plen ->
     unpack_data (hdr ++ body)
     = if rx =? crc32 (slice 0 (DATA_HDR_SIZE - 4) hdr ++ body)
       then Ok (win, seq, ts, off, plen, body, negb (Z.land flags F_FINAL =? 0))
       else Raise BadChecksum) /\
  (forall flags count hdr entries body tail,
     struct_pack NACK_HDR [T_NACK; VERSION; flags; count] = Ok hdr ->
     pack_seqs entries = Ok body ->
     len tail < 4 ->
     len entries <= count ->
     unpack_nack (hdr ++ body ++ tail) = Ok entries).
Proof.
  split; [|split; [|split]].
  - intros flags name_len hdr body H Hl.
    destruct (header_unpack _ _ _ body H) as [Hlen Hun].
    pose proof (struct_pack_length _ _ _ H) as L.
    unfold unpack_get, GET_HDR_SIZE. rewrite Hlen, Hun.
    cbn [mbind result_bind].
    change (negb (T_GET =? T_GET) || negb (VERSION =? VERSION)) with false.
    cbv iota. rewrite slice_after by (unfold len; rewrite L; reflexivity).
    rewrite take_all by exact Hl. reflexivity.
  - intros code mlen hdr body H Hl.
    destruct (header_unpack _ _ _ body H) as [Hlen Hun].
    pose proof (struct_pack_length _ _ _ H) as L.
    unfold unpack_err, ERR_HDR_SIZE. change [1; 1; 1; 2]%nat with ERR_HDR.
    rewrite Hlen, Hun. cbn [mbind result_bind].
    change (negb (T_ERR =? T_ERR) || negb (VERSION =? VERSION)) with false.
    cbv iota. rewrite slice_after by (unfold len; rewrite L; reflexivity).
    rewrite take_all by exact Hl. reflexivity.
  - intros flags win seq ts off plen rx hdr body H Hl.
    destruct (header_unpack _ _ _ body H) as [Hlen Hun].
    pose proof (struct_pack_length _ _ _ H) as L.
    change (Z.of_nat (calcsize DATA_HDR)) with DATA_HDR_SIZE in Hlen, Hun.
    unfold unpack_data. rewrite Hlen, Hun.
    cbn [mbind result_bind].
    change (negb (T_DATA =? T_DATA) || negb (VERSION =? VERSION)) with false.
    cbv iota.
    rewrite (slice_after hdr body DATA_HDR_SIZE)
      by (unfold len; rewrite L; reflexivity).
    rewrite take_all by exact Hl.
    rewrite (slice_prefix_le hdr body)
      by (unfold len; rewrite L; vm_compute; split; discriminate).
    destruct (rx =? _); reflexivity.
  - intros flags count hdr entries body tail H Hb Ht Hc.
    destruct (header_unpack _ _ _ (body ++ tail) H) as [Hlen Hun].
    pose proof (struct_pack_length _ _ _ H) as L.
    unfold unpack_nack, NACK_HDR_SIZE. change [1; 1; 1; 2]%nat with NACK_HDR.
    rewrite Hlen, Hun. cbn [mbind result_bind].
    change (negb (T_NACK =? T_NACK) || negb (VERSION =? VERSION)) with false.
    cbv iota. f_equal.
    replace (Z.of_nat (calcsize NACK_HDR)) with (len hdr)
      by (unfold len; rewrite L; reflexivity).
    apply nack_loop_fits; [exact Hb|exact Ht|]. unfold len in Hc. lia.
Qed.

(** C7, counterexample to the claim as stated: a GET, an ERR and a DATA
    buffer whose declared lengths read past the buffer end all decode
    without error, to the bytes that are present. *)
Lemma short_buffers_decode :
  len short_get < GET_HDR_SIZE + 5 /\
  unpack_get short_get = Ok (ascii_str "ab") /\
  len short_err < ERR_HDR_SIZE + 9 /\
  unpack_err short_err = Ok (1, ascii_str "x") /\
  len short_data < DATA_HDR_SIZE + 10 /\
  unpack_data short_data = Ok (0, 0, 2, 0, 10, ascii_bytes "ab", false).
Proof.
  repeat split; vm_compute; reflexivity.
Qed.

(** ** Corrupted DATA frames *)

Lemma unpack_fields_app f1 f2 (a b : bytes) :
  length a = calcsize f1 ->
  unpack_fields (f1 ++ f2) (a ++ b) = unpack_fields f1 a ++ unpack_fields f2 b.
Proof.
  revert a. induction f1 as [|w f1 IH]; intros a Ha.
  - destruct a; [reflexivity|discriminate].
  - change (calcsize (w :: f1)) with (w + calcsize f1)%nat in Ha.
    cbn [app unpack_fields].
    rewrite take_app_le, drop_app_le by lia.
    rewrite IH; [reflexivity|].
    rewrite length_drop. lia.
Qed.

(** [unpack_data] on a buffer given by its parts: type and version, the
    fields up to the offset, the payload length, the checksum, the rest. *)
Lemma unpack_data_view tv mid pl crcb body :
  length tv = 2%nat -> length mid = 22%nat ->
  length pl = 2%nat -> length crcb = 4%nat ->
  unpack_data (tv ++ mid ++ pl ++ crcb ++ body)
  = match unpack_fields [1; 1]%nat tv, unpack_fields [1; 1; 4; 8; 8]%nat mid with
    | [t; v], [flags; win_id; seq; tsz; off] =>
        if negb (t =? T_DATA) || negb (v =? VERSION) then Raise Invalid
        else
          let payload := take (Z.to_nat (be_decode pl)) body in
          if negb (be_decode crcb =? crc32 ((tv ++ mid ++ pl) ++ payload))
          then Raise BadChecksum
          else Ok (win_id, seq, tsz, off, be_decode pl, payload,
                   negb (Z.land flags F_FINAL =? 0))
    | _, _ => Raise StructError
    end.
Proof.
  intros Ltv Lmid Lpl Lcrc.
  assert (Lh : len (tv ++ mid ++ pl ++ crcb) = DATA_HDR_SIZE).
  { unfold len. rewrite !length_app, Ltv, Lmid, Lpl, Lcrc. reflexivity. }
  assert (Lw : len (tv ++ mid ++ pl) = DATA_HDR_SIZE - 4).
  { unfold len. rewrite !length_app, Ltv, Lmid, Lpl. reflexivity. }
  replace (tv ++ mid ++ pl ++ crcb ++ body)
    with ((tv ++ mid ++ pl ++ crcb) ++ body) by (rewrite <- !app_assoc; reflexivity).
  unfold unpack_data.
  rewrite (proj2 (Z.ltb_ge _ _)).
  2:{ rewrite len_app, Lh. pose proof (len_nonneg body). lia. }
  rewrite (slice_prefix _ body DATA_HDR_SIZE) by (symmetry; exact Lh).
  unfold struct_unpack. rewrite decide_True.
  2:{ unfold len in Lh. apply Nat2Z.inj. exact Lh. }
  change DATA_HDR with ([1; 1] ++ [1; 1; 4; 8; 8] ++ [2] ++ [4])%nat.
  rewrite (unpack_fields_app [1; 1]%nat) by exact Ltv.
  rewrite (unpack_fields_app [1; 1; 4; 8; 8]%nat) by exact Lmid.
  rewrite (unpack_fields_app [2]%nat) by exact Lpl.
  cbn [unpack_fields app mbind result_bind].
  rewrite (take_ge pl 2), (take_ge crcb 4) by lia.
  rewrite (slice_after _ body DATA_HDR_SIZE) by (symmetry; exact Lh).
  replace ((tv ++ mid ++ pl ++ crcb) ++ body)
    with ((tv ++ mid ++ pl) ++ crcb ++ body) by (rewrite <- !app_assoc; reflexivity).
  rewrite (slice_prefix _ (crcb ++ body) (DATA_HDR_SIZE - 4)) by (symmetry; exact Lw).
  reflexivity.
Qed.

Lemma flip_byte_neq k b : 0 <= k < 8 -> flip_byte k b <> b.
Proof.
  intros Hk E. apply (f_equal byte_val) in E. unfold flip_byte in E.
  rewrite byte_val_of in E.
  assert (Hp : fits 8 (2 ^ k)).
  { unfold fits. split; [apply Z.pow_nonneg; lia|].
    apply Z.pow_lt_mono_r; lia. }
  assert (Hx : fits 8 (Z.lxor (byte_val b) (2 ^ k))).
  { apply fits_lxor; [lia|apply byte_val_range|exact Hp]. }
  rewrite Z.mod_small in E by exact Hx.
  rewrite <- (Z.lxor_0_r (byte_val b)) in E at 2.
  apply lxor_cancel_l in E.
  assert (0 < 2 ^ k) by (apply Z.pow_pos_nonneg; lia). lia.
Qed.

(** Changing one byte of a message changes its checksum. *)
Lemma crc32_alter (f : byte -> byte) pre l suf j :
  (forall b, f b <> b) -> (j < length l)%nat ->
  crc32 (pre ++ alter f j l ++ suf) <> crc32 (pre ++ l ++ suf).
Proof.
  intros Hf Hj.
  destruct (lookup_lt_is_Some_2 l j Hj) as [x Hx].
  pose proof (take_drop_middle l j x Hx) as Hl.
  assert (Lt : length (take j l) = j) by (rewrite length_take; lia).
  rewrite <- Hl at 1 2.
  replace j with (length (take j l) + 0)%nat at 1 by lia.
  rewrite alter_app_r. cbn [alter list_alter].
  rewrite <- !app_assoc. cbn [app]. rewrite !(app_assoc pre).
  apply crc32_one_byte, Hf.
Qed.

Lemma pack_data_parts w s ts off p fl frame :
  pack_data w s ts off p fl = Ok frame ->
  exists mid,
    length mid = 22%nat /\
    fits 16 (len p) /\
    frame = data_tv ++ mid ++ be_encode 2 (len p)
              ++ be_encode 4 (crc32 ((data_tv ++ mid ++ be_encode 2 (len p)) ++ p))
              ++ p.
Proof.
  intros H. apply pack_data_inv in H as (hw & Hhw & ->).
  unfold data_header_vals, DATA_HDR_WO_CRC in Hhw.
  apply struct_pack_inv_cons in Hhw as (_ & r1 & Hhw & ->).
  apply struct_pack_inv_cons in Hhw as (_ & r2 & Hhw & ->).
  apply struct_pack_inv_cons in Hhw as (_ & r3 & Hhw & ->).
  apply struct_pack_inv_cons in Hhw as (_ & r4 & Hhw & ->).
  apply struct_pack_inv_cons in Hhw as (_ & r5 & Hhw & ->).
  apply struct_pack_inv_cons in Hhw as (_ & r6 & Hhw & ->).
  apply struct_pack_inv_cons in Hhw as (_ & r7 & Hhw & ->).
  apply struct_pack_inv_cons in Hhw as (Hp & r8 & Hhw & ->).
  injection Hhw as <-.
  exists (be_encode 1 fl ++ be_encode 1 (Z.land w 255) ++ be_encode 4 s
            ++ be_encode 8 ts ++ be_encode 8 off).
  split; [rewrite !length_app, !be_encode_length; reflexivity|].
  split; [exact Hp|].
  unfold data_tv. rewrite !app_nil_r, <- !app_assoc. reflexivity.
Qed.

Lemma two_fields a b : unpack_fields [1; 1]%nat [a; b] = [byte_val a; byte_val b].
Proof. unfold unpack_fields, be_decode. cbn. repeat f_equal; lia. Qed.

Section Flipped.
Variables (mid p : bytes) (k : Z).
Hypothesis Hk : 0 <= k < 8.
Hypothesis Lmid : length mid = 22%nat.
Hypothesis Hp : fits 16 (len p).

Let pl := be_encode 2 (len p).
Let crcb := be_encode 4 (crc32 ((data_tv ++ mid ++ pl) ++ p)).
Let frame := data_tv ++ mid ++ pl ++ crcb ++ p.

Lemma stored_checksum : be_decode crcb = crc32 ((data_tv ++ mid ++ pl) ++ p).
Proof. apply (be_decode_encode 4), crc32_fits. Qed.

Lemma stored_length : be_decode pl = len p.
Proof. apply (be_decode_encode 2), Hp. Qed.

Lemma flip_type_version i :
  (i < 2)%nat -> unpack_data (flip_bit i k frame) = Raise Invalid.
Proof.
  intros Hi. unfold flip_bit, frame.
  rewrite alter_app_l by (change (length data_tv) with 2%nat; lia).
  rewrite unpack_data_view;
    [|rewrite length_alter; reflexivity|exact Lmid|reflexivity|reflexivity].
  assert (Hf : forall b, (byte_val (flip_byte k b) =? byte_val b) = false).
  { intros b. apply Z.eqb_neq. intros E. apply byte_val_inj in E.
    exact (flip_byte_neq k b Hk E). }
  change data_tv with [Byte.x02; Byte.x01].
  destruct i as [|[|i]]; [| |lia]; cbn [alter list_alter];
    rewrite two_fields; cbn [unpack_fields].
  - change T_DATA with (byte_val Byte.x02). rewrite Hf. reflexivity.
  - change VERSION with (byte_val Byte.x01). rewrite Hf, orb_true_r.
    reflexivity.
Qed.
Lemma flip_fields i :
  (2 <= i < 24)%nat -> unpack_data (flip_bit i k frame) = Raise BadChecksum.
Proof.
  intros Hi. unfold flip_bit, frame.
  rewrite alter_app_r_alt by (change (length data_tv) with 2%nat; lia).
  change (length data_tv) with 2%nat.
  rewrite alter_app_l by lia.
  rewrite unpack_data_view;
    [|reflexivity|rewrite length_alter; exact Lmid|reflexivity|reflexivity].
  change (unpack_fields [1; 1]%nat data_tv) with [T_DATA; VERSION].
  cbn [unpack_fields].
  change (negb (T_DATA =? T_DATA) || negb (VERSION =? VERSION)) with false.
  cbv iota zeta.
  rewrite stored_length, take_all by lia. rewrite stored_checksum.
  rewrite (proj2 (Z.eqb_neq _ _)); [reflexivity|].
  intros E. symmetry in E. revert E. rewrite <- !app_assoc.
  apply crc32_alter; [intros b; apply flip_byte_neq, Hk|lia].
Qed.

Lemma flip_length i :
  (24 <= i < 26)%nat ->
  len p <= be_decode (slice 24 26 (flip_bit i k frame)) ->
  unpack_data (flip_bit i k frame) = Raise BadChecksum.
Proof.
  intros Hi. unfold flip_bit, frame.
  rewrite alter_app_r_alt by (change (length data_tv) with 2%nat; lia).
  change (length data_tv) with 2%nat.
  rewrite alter_app_r_alt by lia. rewrite Lmid.
  rewrite alter_app_l by (change (length pl) with 2%nat; lia).
  set (pl' := alter (flip_byte k) (i - 2 - 22)%nat pl).
  assert (Lpl : length pl' = 2%nat) by (unfold pl'; rewrite length_alter; reflexivity).
  intros Hlen.
  assert (Hs : slice 24 26 (data_tv ++ mid ++ pl' ++ crcb ++ p) = pl').
  { rewrite (app_assoc data_tv mid). change 26 with (24 + 2).
    rewrite slice_after.
    - change (Z.to_nat 2) with 2%nat. apply take_app_length'. symmetry. exact Lpl.
    - unfold len. rewrite length_app, Lmid. reflexivity. }
  rewrite Hs in Hlen.
  rewrite unpack_data_view; [|reflexivity|exact Lmid|exact Lpl|reflexivity].
  change (unpack_fields [1; 1]%nat data_tv) with [T_DATA; VERSION].
  cbn [unpack_fields].
  change (negb (T_DATA =? T_DATA) || negb (VERSION =? VERSION)) with false.
  cbv iota zeta.
  rewrite take_all by exact Hlen. rewrite stored_checksum.
  rewrite (proj2 (Z.eqb_neq _ _)); [reflexivity|].
  intros E. symmetry in E. revert E.
  rewrite <- !app_assoc, !(app_assoc data_tv mid).
  apply crc32_alter; [intros b; apply flip_byte_neq, Hk|].
  change (length pl) with 2%nat. lia.
Qed.

Lemma flip_payload i :
  (30 <= i < length frame)%nat ->
  unpack_data (flip_bit i k frame) = Raise BadChecksum.
Proof.
  intros Hi. unfold flip_bit. unfold frame in *.
  rewrite !length_app, Lmid in Hi.
  change (length data_tv) with 2%nat in *. change (length pl) with 2%nat in *.
  change (length crcb) with 4%nat in *.
  rewrite alter_app_r_alt by (change (length data_tv) with 2%nat; lia).
  change (length data_tv) with 2%nat.
  rewrite alter_app_r_alt by lia. rewrite Lmid.
  rewrite alter_app_r_alt by (change (length pl) with 2%nat; lia).
  change (length pl) with 2%nat.
  rewrite alter_app_r_alt by (change (length crcb) with 4%nat; lia).
  change (length crcb) with 4%nat.
  set (p' := alter (flip_byte k) (i - 2 - 22 - 2 - 4)%nat p).
  assert (Lp : len p' = len p) by (unfold len, p'; rewrite length_alter; reflexivity).
  rewrite unpack_data_view; [|reflexivity|exact Lmid|reflexivity|reflexivity].
  change (unpack_fields [1; 1]%nat data_tv) with [T_DATA; VERSION].
  cbn [unpack_fields].
  change (negb (T_DATA =? T_DATA) || negb (VERSION =? VERSION)) with false.
  cbv iota zeta.
  rewrite stored_length, take_all by lia. rewrite stored_checksum.
  rewrite (proj2 (Z.eqb_neq _ _)); [reflexivity|].
  intros E. symmetry in E. revert E.
  rewrite <- (app_nil_r p'), <- (app_nil_r p) at 1. unfold p'.
  apply crc32_alter; [intros b; apply flip_byte_neq, Hk|lia].
Qed.
End Flipped.

Lemma on_end_segments st data st' :
  outcome_state (on_end st data) = Some st' -> segments st' = segments st.
Proof.
  unfold on_end, send_break, send_continue.
  destruct (unpack_end data) as [[tseg fcrc]|]; [|intros [= <-]; reflexivity].
  destruct (_ <? tseg).
  - destruct (_missing_segments _ _) as [[|s miss]|]; [| |discriminate].
    + cbn. intros [= <-]. reflexivity.
    + destruct (pack_nack _); [|discriminate]. intros [= <-]. reflexivity.
  - cbn. intros [= <-]. reflexivity.
Qed.

(** A datagram that [unpack_data] rejects never changes the buffer,
    whatever its type byte says. *)
Lemma rejected_frame_not_stored req dm st data rnd e st' :
  unpack_data data = Raise e ->
  outcome_state (loop_step req dm st (Datagram data rnd)) = Some st' ->
  segments st' = segments st.
Proof.
  intros Hrej. unfold loop_step. destruct data as [|b data]; [discriminate|].
  destruct (byte_val b =? T_ERR); [discriminate|].
  destruct (byte_val b =? T_DATA).
  { unfold on_data. rewrite Hrej. intros [= <-]. reflexivity. }
  destruct (byte_val b =? T_END).
  { intros H. apply on_end_segments in H. exact H. }
  intros [= <-]. reflexivity.
Qed.

(** C2, as the code has it. Take a well-formed encoded DATA frame and
    invert one bit of it, anywhere but in the checksum field.  If the bit
    lies in the type or version byte, decoding fails with the structural
    error; if it lies in the flags, window, sequence, total size or offset
    field or in the payload, or in the payload length field without making
    the declared length smaller than the payload, decoding fails with the
    checksum error.  In all these cases the client leaves its reassembly
    buffer as it was. *)
Theorem corrupted_frame_is_rejected w s ts off p fl frame i k req dm st rnd :
  pack_data w s ts off p fl = Ok frame ->
  0 <= k < 8 ->
  (i < length frame)%nat ->
  (i < 24)%nat \/ (30 <= i)%nat \/
    ((24 <= i < 26)%nat /\
     len p <= be_decode (slice 24 26 (flip_bit i k frame))) ->
  unpack_data (flip_bit i k frame)
  = Raise (if decide (i < 2)%nat then Invalid else BadChecksum) /\
  forall st',
    outcome_state (loop_step req dm st (Datagram (flip_bit i k frame) rnd))
    = Some st' ->
    segments st' = segments st.
Proof.
  intros Hpack Hk Hi Hpos.
  destruct (pack_data_parts _ _ _ _ _ _ _ Hpack) as (mid & Lmid & Hp & ->).
  assert (Hrej : unpack_data
                   (flip_bit i k
                      (data_tv ++ mid ++ be_encode 2 (len p)
                       ++ be_encode 4
                            (crc32 ((data_tv ++ mid ++ be_encode 2 (len p)) ++ p))
                       ++ p))
                 = Raise (if decide (i < 2)%nat then Invalid else BadChecksum)).
  { destruct (decide (i < 2)%nat) as [H2|H2].
    - apply flip_type_version; assumption.
    - destruct Hpos as [H24|[H30|[H26 Hlen]]].
      + apply flip_fields; [assumption..|lia].
      + apply flip_payload; [assumption..|lia].
      + apply flip_length; assumption. }
  split; [exact Hrej|].
  intros st' H. eapply rejected_frame_not_stored; eauto.
Qed.

(** C2, counterexample to the claim as stated: the only DATA frame of a
    four-byte file, with one bit of its payload length field inverted so
    that it declares no payload.  The checksum over the shortened frame
    matches the transmitted one, decoding succeeds with an empty payload,
    and the client stores that payload in its buffer under sequence 0. *)
Lemma shortened_frame_passes_checksum :
  pack_data 0 0 4 0 collide_file F_FINAL = Ok collide_frame /\
  unpack_data collide_frame = Ok (0, 0, 4, 0, 4, collide_file, true) /\
  unpack_data (flip_bit 25 2 collide_frame) = Ok (0, 0, 4, 0, 0, [], true) /\
  segments <$> outcome_state
    (loop_step demo_get ∅ (initial_state ∅)
       (Datagram (flip_bit 25 2 collide_frame) false))
  = Some {[0 := []]}.
Proof.
  split; [vm_compute; reflexivity|].
  split; [vm_compute; reflexivity|].
  split; vm_compute; reflexivity.
Qed.

(** ** The theorems at concrete transfers *)

Lemma abc_chunks_eq :
  chunk_file abc (segment_size (UDPServer_init 4)) = abc_chunks.
Proof. vm_compute. reflexivity. Qed.

Lemma segment_reassemble_roundtrip_witness :
  join_segments abc_buffer
    (len (chunk_file abc (segment_size (UDPServer_init 4)))) = abc.
Proof.
  refine (proj1 (proj2 (proj2 (segment_reassemble_roundtrip abc 4 abc_buffer _)))).
  intros c Hc. rewrite abc_chunks_eq in Hc. unfold abc_chunks in Hc.
  repeat (apply elem_of_cons in Hc as [->|Hc]; [vm_compute; reflexivity|]).
  apply elem_of_nil in Hc. destruct Hc.
Defined.

Lemma unpack_data_trailing_bytes_witness :
  unpack_data (hi_data0 ++ ascii_bytes "junk") = unpack_data hi_data0 /\
  unpack_data (hi_data0 ++ ascii_bytes "junk")
  = Ok (Z.land 0 0xFF, 0, 2, 0, len (ascii_bytes "hi"), ascii_bytes "hi",
        negb (Z.land 1 F_FINAL =? 0)).
Proof.
  apply (unpack_data_trailing_bytes 0 0 2 0 (ascii_bytes "hi") 1 hi_data0).
  vm_compute. reflexivity.
Defined.

Lemma nack_retransmits_cached_witness :
  serve_one abc_fs abc_srv nack_1_7 demo_addr
  = Ok (abc_srv, match client_segments abc_srv !! demo_addr with
                 | Some segs => omap (fun s => segs !! s) [1; 7]
                 | None => []
                 end).
Proof.
  apply (nack_retransmits_cached abc_fs abc_srv nack_1_7 demo_addr [1; 7]).
  - apply (reach_step abc_fs (UDPServer_init 4) demo_get demo_addr abc_srv abc_out).
    + apply reach_init.
    + vm_compute. reflexivity.
  - vm_compute. reflexivity.
Defined.


Lemma zero_length_file_witness :
  exists e,
    served [] DEFAULT_SEGMENT_SIZE = [e] /\
    unpack_end e = Ok (0, crc32 []) /\
    crc32 [] = 0 /\
    client_segments empty_srv !! demo_addr = Some ∅ /\
    loop_step demo_get ∅ (initial_state ∅) (Datagram e false)
    = Break (after_end (initial_state ∅) 0 0) [demo_ok] /\
    run_loop demo_get ∅ (initial_state ∅) [demo_get] [Datagram e false]
    = Ended Failed ([demo_get] ++ [demo_ok]).
Proof.
  apply (zero_length_file (fun _ => Found []) (UDPServer_init DEFAULT_SEGMENT_SIZE)
           demo_get demo_addr demo_name empty_srv (served [] DEFAULT_SEGMENT_SIZE)
           demo_get ∅ (initial_state ∅) [demo_get] false []).
  - vm_compute. discriminate.
  - vm_compute. reflexivity.
  - reflexivity.
  - vm_compute. reflexivity.
  - reflexivity.
Defined.

Lemma final_flag_count_witness :
  exists pkts e,
    abc_out = pkts ++ [e] /\
    unpack_end e = Ok (len pkts, crc32 abc) /\
    final_count pkts = (if decide (abc = []) then 0 else 1)%nat /\
    (abc = [] -> pkts = []) /\
    Forall (fun pkt => exists seq off payload fin,
              unpack_data pkt
              = Ok (0, seq, len abc, off, len payload, payload, fin) /\
              (fin = true <-> off + len payload = len abc)) pkts.
Proof.
  apply (final_flag_count abc_fs (UDPServer_init 4) demo_get demo_addr demo_name
           abc abc_srv abc_out).
  - vm_compute. discriminate.
  - vm_compute. reflexivity.
  - reflexivity.
  - vm_compute. reflexivity.
Defined.

Lemma declared_length_is_clipped_witness :
  unpack_get (map byte_of [0x01; 0x01; 0x00; 0x00; 0x05] ++ ascii_bytes "ab")
  = utf8_decode (ascii_bytes "ab").
Proof.
  apply (proj1 declared_length_is_clipped 0 5).
  - vm_compute. reflexivity.
  - vm_compute. discriminate.
Defined.

Lemma consecutive_timeouts_abort_witness :
  max_timeouts = 3 /\
  loop_step demo_get ∅ (initial_state ∅) Timeout
  = Continue (set_timeout_count (initial_state ∅) 1) [demo_get] /\
  loop_step demo_get ∅ (set_timeout_count (initial_state ∅) 2)
    (Datagram (Byte.x12 :: []) false)
  = Continue (set_timeout_count (initial_state ∅) 0) [] /\
  loop_step demo_get ∅ (set_timeout_count (initial_state ∅) 2) Timeout
  = ReturnFalse [] /\
  run_loop demo_get ∅ (initial_state ∅) [demo_get] [Timeout; Timeout]
  = Receiving (set_timeout_count (initial_state ∅) 2)
      ([demo_get] ++ [demo_get; demo_get]) /\
  run_loop demo_get ∅ (initial_state ∅) [demo_get] [Timeout; Timeout; Timeout]
  = Ended Failed ([demo_get] ++ [demo_get; demo_get]).
Proof.
  destruct (consecutive_timeouts_abort demo_get ∅ (initial_state ∅) [demo_get]
              [Datagram hi_data0 false] [Datagram hi_end false])
    as (Hmax & _ & Hempty & _ & _ & _ & Hother & Hceil & Htwo & _).
  { vm_compute. discriminate. }
  split; [exact Hmax|].
  split; [apply (Hempty (initial_state ∅)); [vm_compute|]; reflexivity|].
  split.
  { apply (Hother (set_timeout_count (initial_state ∅) 2) Byte.x12 [] false);
      vm_compute; discriminate. }
  split.
  { apply (Hceil (set_timeout_count (initial_state ∅) 2) [] []).
    vm_compute. discriminate. }
  apply (Htwo (initial_state ∅) [demo_get]); reflexivity.
Defined.


Lemma corrupted_frame_is_rejected_witness :
  unpack_data (flip_bit 30 0 hi_data0) = Raise BadChecksum.
Proof.
  refine (proj1 (corrupted_frame_is_rejected 0 0 2 0 (ascii_bytes "hi") 1
                   hi_data0 30 0 demo_get ∅ (initial_state ∅) false _ _ _ _)).
  - vm_compute. reflexivity.
  - lia.
  - apply Nat.ltb_lt. vm_compute. reflexivity.
  - right. left. lia.
Defined.

(** * Further properties of the codec *)

Lemma pack_seqs_inv l body :
  pack_seqs l = Ok body -> Forall (fits 32) l /\ len body = 4 * len l.
Proof.
  revert body. induction l as [|s l IH]; intros body H.
  - injection H as <-. split; [constructor|reflexivity].
  - cbn [pack_seqs] in H.
    destruct (struct_pack [4%nat] [s]) as [b|] eqn:Es; [|discriminate].
    destruct (pack_seqs l) as [body'|] eqn:Eb; [|discriminate].
    injection H as <-. destruct (IH _ eq_refl) as [Hl Hlen].
    pose proof (struct_pack_length _ _ _ Es) as Lb.
    apply struct_pack_inv_cons in Es as (Hs & _). split.
    + constructor; [exact Hs|exact Hl].
    + rewrite len_app, Hlen. unfold len. rewrite Lb. cbn [length].
      change (calcsize [4%nat]) with 4%nat. lia.
Qed.

Lemma unpack_nack_entries flags count hdr entries body tail :
  struct_pack NACK_HDR [T_NACK; VERSION; flags; count] = Ok hdr ->
  pack_seqs entries = Ok body ->
  len tail < 4 ->
  len entries <= count ->
  unpack_nack (hdr ++ body ++ tail) = Ok entries.
Proof.
  intros H Hb Ht Hc.
  destruct (header_unpack _ _ _ (body ++ tail) H) as [Hlen Hun].
  pose proof (struct_pack_length _ _ _ H) as L.
  unfold unpack_nack, NACK_HDR_SIZE. change [1; 1; 1; 2]%nat with NACK_HDR.
  rewrite Hlen, Hun. cbn [mbind result_bind].
  change (negb (T_NACK =? T_NACK) || negb (VERSION =? VERSION)) with false.
  cbv iota. f_equal.
  replace (Z.of_nat (calcsize NACK_HDR)) with (len hdr)
    by (unfold len; rewrite L; reflexivity).
  apply nack_loop_fits; [exact Hb|exact Ht|]. unfold len in Hc. lia.
Qed.

(** X1. NACK round trip with its bounds: [pack_nack] succeeds exactly for
    lists of at most 65535 numbers that each fit 32 bits; the frame it
    builds has 5 + 4n bytes and [unpack_nack] gives the list back, in
    order. *)
Theorem nack_round_trip (l : list Z) :
  (Forall (fits 32) l /\ len l <= 65535 <->
   exists data, pack_nack l = Ok data) /\
  (forall data, pack_nack l = Ok data ->
     len data = 5 + 4 * len l /\ unpack_nack data = Ok l).
Proof.
  assert (Hinv : forall data, pack_nack l = Ok data ->
            Forall (fits 32) l /\ len l <= 65535 /\
            len data = 5 + 4 * len l /\ unpack_nack data = Ok l).
  { intros data H. unfold pack_nack in H.
    destruct (struct_pack NACK_HDR [T_NACK; VERSION; 0; len l]) as [hdr|] eqn:Eh;
      [|discriminate].
    destruct (pack_seqs l) as [body|] eqn:Eb; [|discriminate].
    cbn [mbind result_bind] in H. injection H as <-.
    destruct (pack_seqs_inv _ _ Eb) as [Hl Hlen].
    pose proof (struct_pack_length _ _ _ Eh) as Lh.
    pose proof Eh as Eh'.
    apply struct_pack_inv_cons in Eh' as (_ & r1 & Eh' & _).
    apply struct_pack_inv_cons in Eh' as (_ & r2 & Eh' & _).
    apply struct_pack_inv_cons in Eh' as (_ & r3 & Eh' & _).
    apply struct_pack_inv_cons in Eh' as (Hc & _).
    change (8 * Z.of_nat 2) with 16 in Hc. unfold fits in Hc.
    split; [exact Hl|]. split; [lia|]. split.
    - rewrite len_app, Hlen. unfold len at 1. rewrite Lh. reflexivity.
    - rewrite <- (app_nil_r body).
      apply (unpack_nack_entries 0 (len l)); [exact Eh|exact Eb|reflexivity|lia]. }
  split.
  - split.
    + intros [Hl Hn]. apply pack_nack_ok; assumption.
    + intros [data H]. destruct (Hinv data H) as (? & ? & _). auto.
  - intros data H. destruct (Hinv data H) as (_ & _ & ? & ?). auto.
Qed.

(** X2. END round trip with its bounds: [pack_end] succeeds exactly when
    the segment count and the checksum fit 32 bits; the frame has 11 bytes
    and [unpack_end] gives both values back. *)
Theorem end_round_trip (n c : Z) :
  (fits 32 n /\ fits 32 c <-> exists e, pack_end n c = Ok e) /\
  (forall e, pack_end n c = Ok e ->
     len e = END_HDR_SIZE /\ unpack_end e = Ok (n, c)).
Proof.
  split; [split|].
  - intros [Hn Hc]. unfold pack_end. apply struct_pack_ok.
    repeat match goal with |- Forall2 _ _ _ => constructor end;
      try assumption; unfold fits, T_END, VERSION, F_FINAL;
      change (2 ^ (8 * Z.of_nat 1)) with 256; lia.
  - intros [e H]. unfold pack_end in H.
    apply struct_pack_inv_cons in H as (_ & r1 & H & _).
    apply struct_pack_inv_cons in H as (_ & r2 & H & _).
    apply struct_pack_inv_cons in H as (_ & r3 & H & _).
    apply struct_pack_inv_cons in H as (Hn & r4 & H & _).
    apply struct_pack_inv_cons in H as (Hc & _).
    split; assumption.
  - intros e H. split.
    + unfold len. rewrite (struct_pack_length _ _ _ H). reflexivity.
    + apply unpack_end_packed, H.
Qed.

Lemma slice_header_length (data : bytes) n :
  0 <= n -> (len data <? n) = false -> length (slice 0 n data) = Z.to_nat n.
Proof.
  intros Hn H. apply Z.ltb_ge in H. unfold slice, len in *.
  rewrite Z.sub_0_r. change (Z.to_nat 0) with O. rewrite drop_0.
  rewrite length_take. lia.
Qed.

Lemma utf8_decode_raises bs e : utf8_decode bs = Raise e -> e = UnicodeError.
Proof.
  remember (length bs) as k eqn:Hk. revert bs Hk e.
  induction k as [k IH] using lt_wf_ind. intros bs Hk e.
  assert (Hrec : forall rest s, (length rest < k)%nat ->
            (s0 ← utf8_decode rest; Ok (s :: s0)) = Raise e -> e = UnicodeError).
  { intros rest s Hlt H. destruct (utf8_decode rest) as [s0|e0] eqn:E;
      [discriminate|]. cbn in H. injection H as <-.
    eapply (IH (length rest) Hlt rest eq_refl). exact E. }
  destruct bs as [|b0 rest]; [discriminate|]. cbn [utf8_decode]. cbv zeta.
  cbn [length] in Hk.
  destruct (byte_val b0 <? 128).
  { apply Hrec. lia. }
  destruct (_ && _).
  { destruct rest as [|b1 rest1]; [intros [= <-]; reflexivity|].
    destruct (is_cont b1); [|intros [= <-]; reflexivity].
    apply Hrec. cbn [length] in Hk. lia. }
  destruct (_ && _).
  { destruct rest as [|b1 [|b2 rest2]]; try (intros [= <-]; reflexivity).
    destruct (_ && _); [|intros [= <-]; reflexivity].
    apply Hrec. cbn [length] in Hk. lia. }
  destruct (_ && _).
  { destruct rest as [|b1 [|b2 [|b3 rest3]]]; try (intros [= <-]; reflexivity).
    destruct (_ && _); [|intros [= <-]; reflexivity].
    apply Hrec. cbn [length] in Hk. lia. }
  intros [= <-]. reflexivity.
Qed.

(** X3. The decoders raise nothing but their own errors: [unpack_data],
    [unpack_end] and [unpack_nack] fail only with one of the [ValueError]s
    the source raises ("muito curto", "invalido", "Checksum incorreto"),
    never inside [struct.unpack]; [unpack_get] and [unpack_err] may
    besides fail to decode the text as UTF-8. *)
Theorem decoders_raise_own_errors (data : bytes) (e : exn) :
  (unpack_data data = Raise e -> is_value_error e = true) /\
  (unpack_end data = Raise e -> e = TooShort \/ e = Invalid) /\
  (unpack_nack data = Raise e -> e = TooShort \/ e = Invalid) /\
  (unpack_get data = Raise e ->
     e = TooShort \/ e = Invalid \/ e = UnicodeError) /\
  (unpack_err data = Raise e ->
     e = TooShort \/ e = Invalid \/ e = UnicodeError).
Proof.
  split; [|split; [|split; [|split]]].
  - unfold unpack_data. destruct (len data <? DATA_HDR_SIZE) eqn:El;
      [intros [= <-]; reflexivity|].
    unfold struct_unpack.
    rewrite decide_True by (apply slice_header_length; [vm_compute; discriminate|exact El]).
    cbn [mbind result_bind unpack_fields DATA_HDR].
    destruct (_ || _); [intros [= <-]; reflexivity|].
    destruct (negb _); [intros [= <-]; reflexivity|discriminate].
  - unfold unpack_end. destruct (len data <? END_HDR_SIZE) eqn:El;
      [intros [= <-]; auto|].
    unfold struct_unpack.
    rewrite decide_True by (apply slice_header_length; [vm_compute; discriminate|exact El]).
    cbn [mbind result_bind unpack_fields END_HDR].
    destruct (_ || _); [intros [= <-]; auto|discriminate].
  - unfold unpack_nack. destruct (len data <? NACK_HDR_SIZE) eqn:El;
      [intros [= <-]; auto|].
    unfold struct_unpack.
    rewrite decide_True by (apply slice_header_length; [vm_compute; discriminate|exact El]).
    cbn [mbind result_bind unpack_fields NACK_HDR].
    destruct (_ || _); [intros [= <-]; auto|discriminate].
  - unfold unpack_get. destruct (len data <? GET_HDR_SIZE) eqn:El;
      [intros [= <-]; auto|].
    unfold struct_unpack.
    rewrite decide_True by (apply slice_header_length; [vm_compute; discriminate|exact El]).
    cbn [mbind result_bind unpack_fields GET_HDR].
    destruct (_ || _); [intros [= <-]; auto|].
    intros H. apply utf8_decode_raises in H. auto.
  - unfold unpack_err. destruct (len data <? ERR_HDR_SIZE) eqn:El;
      [intros [= <-]; auto|].
    unfold struct_unpack.
    rewrite decide_True by (apply slice_header_length; [vm_compute; discriminate|exact El]).
    cbn [mbind result_bind unpack_fields ERR_HDR].
    destruct (_ || _); [intros [= <-]; auto|].
    destruct (utf8_decode _) as [msg|e0] eqn:E; [discriminate|].
    cbn. intros [= <-]. apply utf8_decode_raises in E. auto.
Qed.

Lemma decoder_first_byte (fmt : list nat) (data : bytes) (size t : Z) w fmt' vals :
  fmt = 1%nat :: w :: fmt' ->
  1 <= size ->
  (len data <? size) = false ->
  struct_unpack fmt (slice 0 size data) = Ok vals ->
  exists b rest v vals',
    data = b :: rest /\ vals = byte_val b :: v :: vals'.
Proof.
  intros -> Hs Hl H. destruct data as [|b rest].
  { apply Z.ltb_ge in Hl. unfold len in Hl. cbn in Hl. lia. }
  unfold struct_unpack in H. destruct (decide _); [|discriminate].
  injection H as <-. cbn [unpack_fields]. rewrite first_field by exact Hs.
  eexists _, _, _, _. split; reflexivity.
Qed.

Lemma unpack_data_type data r : unpack_data data = Ok r -> is_type data T_DATA = true.
Proof.
  unfold unpack_data. destruct (len data <? DATA_HDR_SIZE) eqn:El; [discriminate|].
  destruct (struct_unpack DATA_HDR _) as [vals|] eqn:E; [|discriminate].
  destruct (decoder_first_byte DATA_HDR data DATA_HDR_SIZE T_DATA _ _ vals
              eq_refl ltac:(vm_compute; discriminate) El E)
    as (b & rest & v & vals' & -> & ->).
  cbn [mbind result_bind].
  destruct vals' as [|? [|? [|? [|? [|? [|? [|? [|? ?]]]]]]]]; try discriminate.
  destruct (negb (byte_val b =? T_DATA)) eqn:Et; [discriminate|].
  intros _. apply negb_false_iff in Et. exact Et.
Qed.

Lemma unpack_get_type data r : unpack_get data = Ok r -> is_type data T_GET = true.
Proof.
  unfold unpack_get. destruct (len data <? GET_HDR_SIZE) eqn:El; [discriminate|].
  destruct (struct_unpack GET_HDR _) as [vals|] eqn:E; [|discriminate].
  destruct (decoder_first_byte GET_HDR data GET_HDR_SIZE T_GET _ _ vals
              eq_refl ltac:(vm_compute; discriminate) El E)
    as (b & rest & v & vals' & -> & ->).
  cbn [mbind result_bind].
  destruct vals' as [|? [|? [|? ?]]]; try discriminate.
  destruct (negb (byte_val b =? T_GET)) eqn:Et; [discriminate|].
  intros _. apply negb_false_iff in Et. exact Et.
Qed.

Lemma unpack_err_type data r : unpack_err data = Ok r -> is_type data T_ERR = true.
Proof.
  unfold unpack_err. destruct (len data <? ERR_HDR_SIZE) eqn:El; [discriminate|].
  destruct (struct_unpack ERR_HDR _) as [vals|] eqn:E; [|discriminate].
  destruct (decoder_first_byte ERR_HDR data ERR_HDR_SIZE T_ERR _ _ vals
              eq_refl ltac:(vm_compute; discriminate) El E)
    as (b & rest & v & vals' & -> & ->).
  cbn [mbind result_bind].
  destruct vals' as [|? [|? [|? ?]]]; try discriminate.
  destruct (negb (byte_val b =? T_ERR)) eqn:Et; [discriminate|].
  intros _. apply negb_false_iff in Et. exact Et.
Qed.

Lemma decodes_is_type data t : decodes data t -> is_type data t = true.
Proof.
  intros [r H|r H|[n c] H|r H|r H].
  - eapply unpack_get_type, H.
  - eapply unpack_data_type, H.
  - destruct (unpack_end_inv _ _ _ H) as (_ & _ & b & rest & -> & Hb).
    cbn. apply Z.eqb_eq, Hb.
  - eapply unpack_err_type, H.
  - destruct (unpack_nack_type _ _ H) as (b & rest & -> & Hb).
    cbn. apply Z.eqb_eq, Hb.
Qed.

(** X4. The frame types exclude one another: a decoder accepts a buffer
    only if [is_type] holds for its own type byte, so no buffer is accepted
    by the decoders of two different frame types. *)
Theorem decoders_exclude_each_other (data : bytes) (t1 t2 : Z) :
  decodes data t1 ->
  decodes data t2 ->
  is_type data t1 = true /\ t1 = t2.
Proof.
  intros H1 H2. pose proof (decodes_is_type _ _ H1) as E1.
  pose proof (decodes_is_type _ _ H2) as E2. split; [exact E1|].
  destruct data as [|b rest]; [discriminate|]. cbn in E1, E2.
  apply Z.eqb_eq in E1, E2. congruence.
Qed.

Lemma decoders_exclude_each_other_witness :
  is_type hi_end T_END = true /\ T_END = T_END.
Proof.
  apply (decoders_exclude_each_other hi_end T_END T_END).
  - apply (decodes_end hi_end (1, crc32 (ascii_bytes "hi"))). vm_compute. reflexivity.
  - apply (decodes_end hi_end (1, crc32 (ascii_bytes "hi"))). vm_compute. reflexivity.
Defined.

Lemma pack_data_length w s ts off p fl frame :
  pack_data w s ts off p fl = Ok frame -> len frame = DATA_HDR_SIZE + len p.
Proof.
  intros H. apply pack_data_inv in H as (hw & Hhw & ->).
  rewrite !len_app. unfold len at 1 2.
  rewrite (struct_pack_length _ _ _ Hhw), be_encode_length. reflexivity.
Qed.

Lemma handle_get_segment_size fs srv data addr srv' out :
  handle_get fs srv data addr = Ok (srv', out) ->
  segment_size srv' = segment_size srv.
Proof.
  unfold handle_get. destruct (unpack_get data) as [filename|];
    [|intros [= <- _]; reflexivity].
  destruct (fs filename) as [| |contents].
  1,2: match goal with |- context [pack_err ?c ?m] =>
         destruct (pack_err c m); [|discriminate] end;
       intros [= <- _]; reflexivity.
  destruct (get_loop _ _ _) as [[[segs n] crc]|]; [|discriminate].
  cbn [mbind result_bind].
  destruct (send_all _ _); [|discriminate]. cbn [mbind result_bind].
  destruct (pack_end _ _); [|discriminate]. intros [= <- _]. reflexivity.
Qed.

Lemma serve_one_segment_size fs srv data addr srv' out :
  serve_one fs srv data addr = Ok (srv', out) ->
  segment_size srv' = segment_size srv.
Proof.
  unfold serve_one. destruct data as [|b data]; [intros [= <- _]; reflexivity|].
  destruct (byte_val b =? T_GET); [apply handle_get_segment_size|].
  destruct (byte_val b =? T_NACK).
  { intros [= H]. pose proof (handle_nack_state srv (b :: data) addr) as E.
    rewrite H in E. cbn in E. subst. reflexivity. }
  destruct (byte_val b =? T_OK); intros [= <- _]; reflexivity.
Qed.

Lemma reachable_segment_size fs srv :
  reachable fs srv -> 1 <= segment_size srv <= 1300.
Proof.
  induction 1 as [size0|srv data addr srv' out _ IH Hstep].
  - apply clamped_segment_size.
  - rewrite (serve_one_segment_size _ _ _ _ _ _ Hstep). exact IH.
Qed.

(** X5. Frame sizes: a DATA frame is its 30-byte header followed by the
    payload, and every datagram a reachable server sends when it serves a
    file (the DATA frames and the END frame) has at most 1330 bytes, below
    [MAX_UDP_PAYLOAD]. *)
Theorem served_frames_fit_udp fs srv data addr filename contents srv' out :
  reachable fs srv ->
  unpack_get data = Ok filename ->
  fs filename = Found contents ->
  handle_get fs srv data addr = Ok (srv', out) ->
  Forall (fun pkt => len pkt <= DATA_HDR_SIZE + 1300 /\
                     len pkt <= MAX_UDP_PAYLOAD) out.
Proof.
  intros Hr Hname Hfs H. apply reachable_segment_size in Hr as Hss.
  destruct (handle_get_found _ _ _ _ _ _ _ _ (proj1 Hss) Hname Hfs H)
    as (segs & pkts & e & Hb & _ & _ & He & -> & _).
  apply Forall_app. split.
  - eapply Forall2_Forall_r; [exact Hb|].
    eapply Forall_impl; [apply (chunk_bounds _ (proj1 Hss) contents 0 0)|].
    intros c (Hp & _) pkt Hpkt. cbn beta in *.
    rewrite (pack_data_length _ _ _ _ _ _ _ Hpkt).
    change DATA_HDR_SIZE with 30. unfold MAX_UDP_PAYLOAD. lia.
  - constructor; [|constructor]. unfold pack_end in He.
    unfold len. rewrite (struct_pack_length _ _ _ He).
    vm_compute. split; discriminate.
Qed.

Lemma served_frames_fit_udp_witness :
  Forall (fun pkt => len pkt <= DATA_HDR_SIZE + 1300 /\
                     len pkt <= MAX_UDP_PAYLOAD) abc_out.
Proof.
  apply (served_frames_fit_udp abc_fs (UDPServer_init 4) demo_get demo_addr
           demo_name abc abc_srv abc_out).
  - apply reach_init.
  - vm_compute. reflexivity.
  - reflexivity.
  - vm_compute. reflexivity.
Defined.

(** * Further properties of the segmenter and the server *)

Lemma chunk_loop_lookup ss (Hss : 1 <= ss) (i : nat) rest seq off :
  chunk_loop ss rest seq off !! i
  = if decide (i * Z.to_nat ss < length rest)%nat
    then Some (seq + Z.of_nat i, off + Z.of_nat i * ss,
               take (Z.to_nat ss) (drop (i * Z.to_nat ss) rest))
    else None.
Proof.
  revert rest seq off. induction i as [|i IH]; intros rest seq off.
  - destruct rest as [|b rest].
    + rewrite chunk_loop_nil by lia. reflexivity.
    + rewrite chunk_loop_cons by (lia || discriminate).
      rewrite decide_True by (cbn; lia). cbn [lookup list_lookup].
      rewrite drop_0.
      replace (seq + Z.of_nat 0) with seq by lia.
      replace (off + Z.of_nat 0 * ss) with off by lia. reflexivity.
  - destruct (decide (rest = [])) as [->|Hne].
    + rewrite chunk_loop_nil by lia. rewrite decide_False by (cbn; lia).
      reflexivity.
    + rewrite chunk_loop_cons by assumption. cbn [lookup list_lookup].
      rewrite IH. rewrite length_drop.
      destruct (decide (S i * Z.to_nat ss < length rest)%nat) as [Hlt|Hge].
      * rewrite decide_True by lia. rewrite drop_drop.
        assert (Hl : len (take (Z.to_nat ss) rest) = ss).
        { unfold len. rewrite length_take. lia. }
        rewrite Hl.
        replace (seq + 1 + Z.of_nat i) with (seq + Z.of_nat (S i)) by lia.
        replace (off + ss + Z.of_nat i * ss) with (off + Z.of_nat (S i) * ss)
          by lia.
        replace (Z.to_nat ss + i * Z.to_nat ss)%nat
          with (S i * Z.to_nat ss)%nat by (simpl; lia).
        reflexivity.
      * rewrite decide_False by lia. reflexivity.
Qed.

Lemma chunk_count_exact ss (Hss : 1 <= ss) rest seq off :
  len (chunk_loop ss rest seq off) = (len rest + ss - 1) / ss.
Proof.
  revert seq off.
  induction rest as [|rest Hne IH]
    using (chunk_ind (Z.to_nat ss) ltac:(lia)); intros seq off.
  - rewrite chunk_loop_nil by lia. unfold len. cbn [length].
    symmetry. apply Z.div_small. lia.
  - rewrite chunk_loop_cons by assumption. unfold len in *. cbn [length].
    rewrite Nat2Z.inj_succ, IH, length_drop.
    assert (0 < length rest)%nat by (destruct rest; [congruence|cbn; lia]).
    destruct (decide (length rest <= Z.to_nat ss)%nat) as [Hle|Hgt].
    + replace (Z.of_nat (length rest - Z.to_nat ss)) with 0 by lia.
      rewrite (Z.div_small (0 + ss - 1)) by lia. change (Z.succ 0) with 1.
      apply Z.div_unique with (r := Z.of_nat (length rest) - 1); lia.
    + replace (Z.of_nat (length rest - Z.to_nat ss))
        with (Z.of_nat (length rest) - ss) by lia.
      replace (Z.of_nat (length rest) + ss - 1)
        with (Z.of_nat (length rest) - ss + ss - 1 + 1 * ss) by lia.
      rewrite Z.div_add by lia. lia.
Qed.

(** X6. What [chunk_file] yields: for every accepted segment size [ss]
    the file is cut into [ceil(size / ss)] chunks, and chunk number [i]
    carries sequence number [i], offset [i * ss] and the bytes
    [contents[i*ss : i*ss + ss]]. *)
Theorem chunk_file_layout (contents : bytes) (size0 i : Z) :
  let ss := segment_size (UDPServer_init size0) in
  let chunks := chunk_file contents ss in
  len chunks = (len contents + ss - 1) / ss /\
  (0 <= i < len chunks ->
   chunks !! Z.to_nat i = Some (i, i * ss, slice (i * ss) (i * ss + ss) contents)).
Proof.
  intros ss chunks. pose proof (clamped_segment_size size0) as [Hss _].
  fold ss in Hss. split; [apply chunk_count_exact, Hss|].
  intros Hi. unfold chunks, chunk_file.
  rewrite (chunk_loop_lookup ss Hss).
  destruct (decide _) as [Hlt|Hge].
  - rewrite Z2Nat.id by lia. unfold slice.
    replace (i * ss + ss - i * ss) with ss by lia.
    rewrite Z2Nat.inj_mul by lia. rewrite !Z.add_0_l. reflexivity.
  - exfalso.
    assert (Hnone : chunk_loop ss contents 0 0 !! Z.to_nat i = None).
    { rewrite (chunk_loop_lookup ss Hss). rewrite decide_False by exact Hge.
      reflexivity. }
    apply lookup_ge_None in Hnone. unfold chunks, chunk_file, len in Hi. lia.
Qed.

Lemma handle_get_returns fs srv data addr filename contents :
  1 <= segment_size srv <= 1300 ->
  unpack_get data = Ok filename ->
  fs filename = Found contents ->
  len contents < 2 ^ 32 ->
  exists srv' out, handle_get fs srv data addr = Ok (srv', out).
Proof.
  intros Hss Hname Hfs Hlen. unfold handle_get. rewrite Hname, Hfs.
  set (chunks := chunk_file contents (segment_size srv)).
  destruct (get_loop_succeeds contents (segment_size srv) (∅, 0, 0) Hss Hlen)
    as [[[segs n] crc] E].
  fold chunks in E. rewrite E. cbn [mbind result_bind].
  assert (Hseq : map chunk_seq chunks = seqZ 0 (len chunks))
    by (apply chunk_seqs; lia).
  apply get_loop_spec in E as (Hn & Hcrc & pkts & Hb & Hlk & Hout).
  2:{ unfold fits. lia. }
  2:{ rewrite Hseq. apply NoDup_seqZ. }
  rewrite Z.add_0_l in Hn. subst n.
  rewrite (send_all_ok segs _ pkts)
    by (rewrite <- Hseq; apply Forall2_fmap_l; exact Hlk).
  cbn [mbind result_bind].
  destruct (struct_pack_ok END_HDR [T_END; VERSION; F_FINAL; len chunks; crc])
    as [e He].
  { pose proof (chunk_count _ (proj1 Hss) contents 0 0) as Hc.
    fold (chunk_file contents (segment_size srv)) in Hc. fold chunks in Hc.
    pose proof (len_nonneg chunks).
    assert (fits 32 crc).
    { rewrite Hcrc. apply zlib_crc32_fits. unfold fits. lia. }
    repeat match goal with |- Forall2 _ _ _ => constructor end;
      try assumption; unfold fits, T_END, VERSION, F_FINAL;
      change (2 ^ (8 * Z.of_nat 1)) with 256;
      change (2 ^ (8 * Z.of_nat 4)) with (2 ^ 32); lia. }
  unfold pack_end. rewrite He. eauto.
Qed.

Lemma handle_get_meta fs srv data addr filename contents srv' out :
  1 <= segment_size srv ->
  unpack_get data = Ok filename ->
  fs filename = Found contents ->
  handle_get fs srv data addr = Ok (srv', out) ->
  client_meta srv'
  = <[addr := (filename, len contents,
               len (chunk_file contents (segment_size srv)))]> (client_meta srv).
Proof.
  intros Hss Hname Hfs H. unfold handle_get in H. rewrite Hname, Hfs in H.
  set (chunks := chunk_file contents (segment_size srv)) in *.
  destruct (get_loop (len contents) (∅, 0, 0) chunks) as [[[segs n] crc]|] eqn:E;
    [|discriminate].
  cbn [mbind result_bind] in H.
  assert (Hseq : map chunk_seq chunks = seqZ 0 (len chunks))
    by (apply chunk_seqs; exact Hss).
  apply get_loop_spec in E as (Hn & _).
  2:{ unfold fits. lia. }
  2:{ rewrite Hseq. apply NoDup_seqZ. }
  rewrite Z.add_0_l in Hn. subst n.
  destruct (send_all _ _); [|discriminate]. cbn [mbind result_bind] in H.
  destruct (pack_end _ _); [|discriminate]. injection H as <- _. reflexivity.
Qed.

Lemma built_lookup_seq ts chunks pkts (segs : gmap Z bytes) k pkt :
  Forall2 (built ts) chunks pkts ->
  Forall2 (fun c p => segs !! chunk_seq c = Some p) chunks pkts ->
  k ∈ map chunk_seq chunks ->
  segs !! k = Some pkt ->
  exists c, c ∈ chunks /\ chunk_seq c = k /\ built ts c pkt.
Proof.
  intros Hb. revert k pkt.
  induction Hb as [|c p chunks pkts Hc _ IH]; intros k pkt Hl Hk Hs.
  - inversion Hk.
  - inversion Hl; subst. cbn [map] in Hk. apply elem_of_cons in Hk as [->|Hk].
    + exists c. split; [left|]. split; [reflexivity|congruence].
    + destruct (IH k pkt) as (c' & Hin & Hseq & Hbuilt); auto.
      exists c'. split; [right; exact Hin|auto].
Qed.

(** The session [handle_get] stores for a file it finds. *)
Lemma new_session_ok fs srv data addr filename contents srv' out :
  1 <= segment_size srv ->
  unpack_get data = Ok filename ->
  fs filename = Found contents ->
  handle_get fs srv data addr = Ok (srv', out) ->
  exists segs,
    client_segments srv' = <[addr := segs]> (client_segments srv) /\
    session_ok segs (filename, len contents,
                     len (chunk_file contents (segment_size srv))).
Proof.
  intros Hss Hname Hfs H.
  destruct (handle_get_found _ _ _ _ _ _ _ _ Hss Hname Hfs H)
    as (segs & pkts & e & Hb & Hlk & Hnone & _ & _ & Hcs & _).
  set (chunks := chunk_file contents (segment_size srv)) in *.
  assert (Hseq : map chunk_seq chunks = seqZ 0 (len chunks))
    by (apply chunk_seqs; exact Hss).
  assert (Hin : forall k, k ∈ map chunk_seq chunks <-> 0 <= k < len chunks).
  { intros k. rewrite Hseq, elem_of_seqZ. lia. }
  exists segs. split; [exact Hcs|]. split; [|split]; cbn [fst snd].
  - apply len_nonneg.
  - intros k. split.
    + intros [pkt Hk]. apply Hin.
      destruct (decide (k ∈ map chunk_seq chunks)) as [|Hout]; [assumption|].
      rewrite Hnone in Hk by exact Hout. discriminate.
    + intros Hk. apply Hin in Hk. apply list_elem_of_fmap in Hk as (c & -> & Hc).
      apply list_elem_of_lookup in Hc as [i Hi].
      destruct (Forall2_lookup_l _ _ _ _ _ Hlk Hi) as (pkt & _ & Hpkt). eauto.
  - intros k pkt Hk.
    assert (Hk' : k ∈ map chunk_seq chunks).
    { destruct (decide (k ∈ map chunk_seq chunks)) as [|Hout]; [assumption|].
      rewrite Hnone in Hk by exact Hout. discriminate. }
    destruct (built_lookup_seq _ _ _ _ _ _ Hb Hlk Hk' Hk) as (c & _ & <- & Hc).
    exists (chunk_offset c), (chunk_payload c),
      (len contents <=? chunk_offset c + len (chunk_payload c)).
    apply is_final_built, Hc.
Qed.

Lemma session_size (segs : gmap Z bytes) meta :
  session_ok segs meta -> Z.of_nat (size segs) = meta.2.
Proof.
  intros (Hn & Hk & _).
  assert (Hd : dom segs = list_to_set (seqZ 0 meta.2)).
  { apply set_eq. intros k. rewrite elem_of_dom, elem_of_list_to_set, elem_of_seqZ.
    rewrite Hk. lia. }
  rewrite <- size_dom, Hd, size_list_to_set by apply NoDup_seqZ.
  rewrite length_seqZ. lia.
Qed.

(** X7. A reachable server serves every file it finds that is shorter
    than 4 GiB without raising: it sends one DATA frame per chunk and one
    END frame, and stores a session whose cache has one frame per chunk and
    whose metadata record the name, the size and the number of chunks. *)
Theorem handle_get_serves fs srv data addr filename contents :
  reachable fs srv ->
  unpack_get data = Ok filename ->
  fs filename = Found contents ->
  len contents < 2 ^ 32 ->
  let n := (len contents + segment_size srv - 1) / segment_size srv in
  exists srv' out segs,
    handle_get fs srv data addr = Ok (srv', out) /\
    len out = n + 1 /\
    client_segments srv' !! addr = Some segs /\
    Z.of_nat (size segs) = n /\
    client_meta srv' !! addr = Some (filename, len contents, n).
Proof.
  intros Hr Hname Hfs Hlen n. apply reachable_segment_size in Hr as Hss.
  destruct (handle_get_returns fs srv data addr _ _ Hss Hname Hfs Hlen)
    as (srv' & out & H).
  destruct (new_session_ok _ _ _ _ _ _ _ _ (proj1 Hss) Hname Hfs H)
    as (segs & Hcs & Hok).
  pose proof (handle_get_meta _ _ _ _ _ _ _ _ (proj1 Hss) Hname Hfs H) as Hm.
  destruct (handle_get_found _ _ _ _ _ _ _ _ (proj1 Hss) Hname Hfs H)
    as (_ & pkts & e & Hb & _ & _ & _ & Hout & _).
  assert (Hn : len (chunk_file contents (segment_size srv)) = n)
    by (apply chunk_count_exact; lia).
  rewrite Hn in *.
  exists srv', out, segs. split; [exact H|]. split.
  { rewrite Hout, len_app. unfold len at 1.
    rewrite <- (Forall2_length _ _ _ Hb). fold (len (chunk_file contents (segment_size srv))).
    rewrite Hn. reflexivity. }
  split; [rewrite Hcs; apply lookup_insert_eq|]. split.
  { apply (session_size segs _ Hok). }
  rewrite Hm. apply lookup_insert_eq.
Qed.

Lemma handle_get_serves_witness :
  exists srv' out segs,
    handle_get abc_fs (UDPServer_init 4) demo_get demo_addr = Ok (srv', out) /\
    len out = (len abc + 4 - 1) / 4 + 1 /\
    client_segments srv' !! demo_addr = Some segs /\
    Z.of_nat (size segs) = (len abc + 4 - 1) / 4 /\
    client_meta srv' !! demo_addr = Some (demo_name, len abc, (len abc + 4 - 1) / 4).
Proof.
  apply (handle_get_serves abc_fs (UDPServer_init 4) demo_get demo_addr demo_name abc).
  - apply reach_init.
  - vm_compute. reflexivity.
  - reflexivity.
  - vm_compute. reflexivity.
Defined.

Lemma handle_get_cases fs srv data addr srv' out :
  handle_get fs srv data addr = Ok (srv', out) ->
  srv' = srv \/
  exists filename contents,
    unpack_get data = Ok filename /\ fs filename = Found contents.
Proof.
  unfold handle_get. destruct (unpack_get data) as [filename|];
    [|intros [= <- _]; auto].
  destruct (fs filename) as [| |contents] eqn:Hfs.
  1,2: match goal with |- context [pack_err ?c ?m] =>
         destruct (pack_err c m); [|discriminate] end;
       intros [= <- _]; auto.
  intros _. right. eauto.
Qed.

Lemma handle_get_sessions_ok fs srv data addr srv' out :
  1 <= segment_size srv ->
  sessions_ok srv ->
  handle_get fs srv data addr = Ok (srv', out) ->
  sessions_ok srv'.
Proof.
  intros Hss Hinv H.
  destruct (handle_get_cases _ _ _ _ _ _ H) as [->|(filename & contents & Hname & Hfs)];
    [exact Hinv|].
  destruct (new_session_ok _ _ _ _ _ _ _ _ Hss Hname Hfs H) as (segs & Hcs & Hok).
  pose proof (handle_get_meta _ _ _ _ _ _ _ _ Hss Hname Hfs H) as Hm.
  intros a. rewrite Hcs, Hm. destruct (decide (addr = a)) as [->|Hne].
  - rewrite !lookup_insert_eq. exact Hok.
  - rewrite !lookup_insert_ne by exact Hne. apply Hinv.
Qed.

Lemma reachable_sessions fs srv : reachable fs srv -> sessions_ok srv.
Proof.
  induction 1 as [size0|srv data addr srv' out Hr IH Hstep].
  - intros a. cbn. rewrite !lookup_empty. exact I.
  - apply reachable_segment_size in Hr as [Hss _].
    unfold serve_one in Hstep. destruct data as [|b data].
    { injection Hstep as <- _. exact IH. }
    destruct (byte_val b =? T_GET).
    { eapply handle_get_sessions_ok; eauto. }
    destruct (byte_val b =? T_NACK).
    { injection Hstep as Hs.
      pose proof (handle_nack_state srv (b :: data) addr) as E.
      rewrite Hs in E. cbn in E. subst. exact IH. }
    destruct (byte_val b =? T_OK); injection Hstep as <- _; [|exact IH].
    intros a. cbn [handle_ok client_segments client_meta].
    destruct (decide (addr = a)) as [->|Hne].
    + rewrite !lookup_delete_eq. exact I.
    + rewrite !lookup_delete_ne by exact Hne. apply IH.
Qed.

(** X8. Invariant of the session store: in every state the server can
    reach, a requester has a segment cache exactly when it has metadata;
    the cached sequence numbers are [0..total_segments-1] with
    [total_segments] as recorded (so the cache has that many frames); and
    the frame cached under a number decodes, carries that number and
    declares the recorded total size. *)
Theorem store_sessions_agree fs srv addr :
  reachable fs srv ->
  match client_segments srv !! addr, client_meta srv !! addr with
  | Some segs, Some (filename, tsize, n) =>
      Z.of_nat (size segs) = n /\
      (forall k, is_Some (segs !! k) <-> 0 <= k < n) /\
      (forall k pkt, segs !! k = Some pkt ->
         exists off payload fin,
           unpack_data pkt = Ok (0, k, tsize, off, len payload, payload, fin))
  | None, None => True
  | _, _ => False
  end.
Proof.
  intros Hr. pose proof (reachable_sessions _ _ Hr addr) as H.
  destruct (client_segments srv !! addr) as [segs|];
    destruct (client_meta srv !! addr) as [[[filename tsize] n]|]; try exact H.
  pose proof H as (_ & Hk & Hd). cbn [fst snd] in Hk, Hd.
  split; [|split; assumption].
  apply (session_size segs _ H).
Qed.

Lemma store_sessions_agree_witness :
  match client_segments abc_srv !! demo_addr, client_meta abc_srv !! demo_addr with
  | Some segs, Some (filename, tsize, n) =>
      Z.of_nat (size segs) = n /\
      (forall k, is_Some (segs !! k) <-> 0 <= k < n) /\
      (forall k pkt, segs !! k = Some pkt ->
         exists off payload fin,
           unpack_data pkt = Ok (0, k, tsize, off, len payload, payload, fin))
  | None, None => True
  | _, _ => False
  end.
Proof.
  apply (store_sessions_agree abc_fs abc_srv demo_addr).
  apply (reach_step abc_fs (UDPServer_init 4) demo_get demo_addr abc_srv abc_out).
  - apply reach_init.
  - vm_compute. reflexivity.
Defined.

Lemma pack_err_type code msg pkt :
  pack_err code msg = Ok pkt -> is_type pkt T_ERR = true.
Proof.
  unfold pack_err. destruct (utf8_encode msg) as [b|]; [|discriminate].
  cbn [mbind result_bind].
  destruct (struct_pack ERR_HDR _) as [hdr|] eqn:E; [|discriminate].
  intros [= <-]. apply struct_pack_inv_cons in E as (_ & r & _ & ->).
  reflexivity.
Qed.

(** X9. A GET touches nothing but the requester's own session: the
    segment size and every other requester's cache and metadata stay as
    they were; and when the request is not served (the frame does not
    decode, or the name is invalid or not found) the whole server state is
    unchanged and the reply is at most one datagram, an ERR frame. *)
Theorem get_touches_own_session_only fs srv data addr srv' out :
  handle_get fs srv data addr = Ok (srv', out) ->
  segment_size srv' = segment_size srv /\
  (forall a, a <> addr ->
     client_segments srv' !! a = client_segments srv !! a /\
     client_meta srv' !! a = client_meta srv !! a) /\
  ((forall filename contents,
      unpack_get data = Ok filename -> fs filename <> Found contents) ->
   srv' = srv /\
   (out = [] \/ exists pkt, out = [pkt] /\ is_type pkt T_ERR = true)).
Proof.
  intros H. split; [eapply handle_get_segment_size, H|].
  unfold handle_get in H. destruct (unpack_get data) as [filename|].
  2:{ injection H as <- <-. auto. }
  destruct (fs filename) as [| |contents] eqn:Hfs.
  1,2: match type of H with context [pack_err ?c ?m] =>
         destruct (pack_err c m) as [pkt|] eqn:Ep; [|discriminate] end;
       injection H as <- <-; split; [auto|]; intros _; split; [reflexivity|];
       right; exists pkt; split; [reflexivity|]; eapply pack_err_type, Ep.
  destruct (get_loop _ _ _) as [[[segs n] crc]|]; [|discriminate].
  cbn [mbind result_bind] in H.
  destruct (send_all _ _) as [pkts|]; [|discriminate].
  cbn [mbind result_bind] in H.
  destruct (pack_end _ _) as [e|]; [|discriminate]. injection H as <- <-. split.
  - intros a Ha. cbn [client_segments client_meta].
    rewrite !lookup_insert_ne by congruence. auto.
  - intros Hno. exfalso. eapply Hno; eauto.
Qed.

Lemma get_touches_own_session_only_witness :
  segment_size abc_srv = segment_size (UDPServer_init 4) /\
  (forall a, a <> demo_addr ->
     client_segments abc_srv !! a = client_segments (UDPServer_init 4) !! a /\
     client_meta abc_srv !! a = client_meta (UDPServer_init 4) !! a) /\
  ((forall filename contents,
      unpack_get demo_get = Ok filename -> abc_fs filename <> Found contents) ->
   abc_srv = UDPServer_init 4 /\
   (abc_out = [] \/ exists pkt, abc_out = [pkt] /\ is_type pkt T_ERR = true)).
Proof.
  apply (get_touches_own_session_only abc_fs (UDPServer_init 4) demo_get demo_addr
           abc_srv abc_out).
  vm_compute. reflexivity.
Defined.

(** X10. A datagram whose first byte is the OK type, whatever follows
    it, makes the server drop the requester's session: cache and metadata
    of that address are gone, every other requester keeps its own, nothing
    is sent, and a NACK from that address afterwards is answered with
    nothing. *)
Theorem ok_drops_session fs srv b rest addr :
  byte_val b = T_OK ->
  exists srv',
    serve_one fs srv (b :: rest) addr = Ok (srv', []) /\
    client_segments srv' !! addr = None /\
    client_meta srv' !! addr = None /\
    (forall a, a <> addr ->
       client_segments srv' !! a = client_segments srv !! a /\
       client_meta srv' !! a = client_meta srv !! a) /\
    (forall nack, handle_nack srv' nack addr = (srv', [])).
Proof.
  intros Hb. exists (handle_ok srv addr). unfold serve_one. rewrite Hb.
  split; [reflexivity|]. cbn [handle_ok client_segments client_meta].
  split; [apply lookup_delete_eq|]. split; [apply lookup_delete_eq|]. split.
  - intros a Ha. rewrite !lookup_delete_ne by congruence. auto.
  - intros nack. unfold handle_nack. cbn [handle_ok client_segments].
    rewrite lookup_delete_eq. destruct (unpack_nack nack); reflexivity.
Qed.

Lemma ok_drops_session_witness :
  exists srv',
    serve_one abc_fs abc_srv (Byte.x12 :: ascii_bytes "anything") demo_addr
    = Ok (srv', []) /\
    client_segments srv' !! demo_addr = None /\
    client_meta srv' !! demo_addr = None /\
    (forall a, a <> demo_addr ->
       client_segments srv' !! a = client_segments abc_srv !! a /\
       client_meta srv' !! a = client_meta abc_srv !! a) /\
    (forall nack, handle_nack srv' nack demo_addr = (srv', [])).
Proof.
  apply (ok_drops_session abc_fs abc_srv Byte.x12 (ascii_bytes "anything") demo_addr).
  reflexivity.
Defined.

(** * Further properties of the client *)

Lemma unpack_data_seq_range data w s ts off plen payload fin :
  unpack_data data = Ok (w, s, ts, off, plen, payload, fin) -> fits 32 s.
Proof.
  unfold unpack_data. destruct (len data <? DATA_HDR_SIZE); [discriminate|].
  unfold struct_unpack. destruct (decide _); [|discriminate].
  cbn [mbind result_bind unpack_fields DATA_HDR].
  destruct (_ || _); [discriminate|]. destruct (negb _); [discriminate|].
  intros [= _ <- _ _ _ _ _].
  apply (be_decode_fits_le _ 4). unfold len. rewrite length_take. lia.
Qed.

Lemma initial_state_inv dropped : loop_inv (initial_state dropped).
Proof.
  unfold loop_inv, initial_state. cbn. split; [unfold max_timeouts; lia|].
  split; [intros k [x Hx]; rewrite lookup_empty in Hx; discriminate|].
  split; [auto|]. split; [congruence|discriminate].
Qed.


Lemma on_data_inv dm st data rnd st' out :
  loop_inv st ->
  on_data dm st data rnd = Continue st' out ->
  loop_inv st'.
Proof.
  intros Hinv. unfold on_data.
  destruct (unpack_data data) as [[[[[[[w s] ts] off] plen] payload] fin]|] eqn:Eu.
  2:{ intros [= <- _]. exact Hinv. }
  destruct (_ && _).
  { intros [= <- _]. exact Hinv. }
  destruct rnd.
  { intros [= <- _]. exact Hinv. }
  apply unpack_data_seq_range in Eu. unfold fits in Eu.
  destruct Hinv as (Hc & Hk & He & Hn & Ht).
  match goal with |- context [total_segments ?x] => set (st1 := x) end.
  assert (A1 : forall k, is_Some (segments st1 !! k) -> 0 <= k <= max_seq st1).
  { subst st1. cbn. intros k [x Hx].
    destruct (decide (s = k)) as [<-|Hne]; [lia|].
    rewrite lookup_insert_ne in Hx by exact Hne.
    specialize (Hk k (ex_intro _ x Hx)). lia. }
  assert (A2 : segments st1 <> ∅).
  { subst st1. cbn. intros E. exact (insert_non_empty _ _ _ E). }
  assert (A3 : is_Some (segments st1 !! max_seq st1) /\ is_Some (total_size st1)).
  { subst st1. cbn. split; [|destruct (total_size st); eauto].
    destruct (Z.max_spec (max_seq st) s) as [[Hlt ->]|[Hge ->]].
    - rewrite lookup_insert_eq. eauto.
    - destruct (decide (segments st = ∅)) as [E|E].
      + destruct (He E) as (Hm & _). lia.
      + destruct (Hn E) as ([x Hx] & _).
        destruct (decide (s = max_seq st)) as [->|Hne];
          [rewrite lookup_insert_eq; eauto|].
        rewrite lookup_insert_ne by exact Hne. eauto. }
  assert (A4 : timeout_count st1 = timeout_count st) by reflexivity.
  assert (Hfin : (forall t, total_segments st1 = Some t ->
                    Z.of_nat (size (segments st1)) < t) -> loop_inv st1).
  { intros H. unfold loop_inv. rewrite A4.
    split; [exact Hc|]. split; [exact A1|]. split; [congruence|].
    split; [auto|exact H]. }
  destruct (total_segments st1) as [t|] eqn:Et.
  - destruct (t <=? _) eqn:El.
    + unfold send_break. cbn. discriminate.
    + intros [= <- _]. apply Hfin. intros t' [= <-]. apply Z.leb_gt in El. lia.
  - intros [= <- _]. apply Hfin. discriminate.
Qed.

Lemma on_end_inv st data st' out :
  loop_inv st ->
  on_end st data = Continue st' out ->
  loop_inv st'.
Proof.
  intros Hinv. unfold on_end.
  destruct (unpack_end data) as [[tseg fcrc]|]; [|intros [= <- _]; exact Hinv].
  cbn [segments total_segments].
  destruct (_ <? tseg) eqn:El; [|unfold send_break; cbn; discriminate].
  destruct (decide (segments st = ∅)) as [E|E].
  { unfold _missing_segments. rewrite decide_True by exact E.
    unfold send_break. cbn. discriminate. }
  destruct (_missing_segments _ _) as [[|s miss]|]; [| |discriminate].
  { unfold send_break. cbn. discriminate. }
  intros H. apply send_continue_inv in H as ->.
  destruct Hinv as (Hc & Hk & He & Hn & Ht). unfold loop_inv. cbn.
  split; [exact Hc|]. split; [exact Hk|]. split; [congruence|].
  split; [exact Hn|]. intros t [= <-]. apply Z.ltb_lt in El. exact El.
Qed.

Lemma on_timeout_inv req st st' out :
  loop_inv st ->
  on_timeout req st = Continue st' out ->
  loop_inv st'.
Proof.
  intros (Hc & Hk & He & Hn & Ht) H.
  assert (Hst : st' = set_timeout_count st (timeout_count st + 1)).
  { revert H. unfold on_timeout.
    destruct (max_timeouts <=? _); [discriminate|].
    destruct (_missing_segments _ _) as [[|s missing]|]; [| |discriminate].
    - destruct (decide _); [intros [= <- _]; reflexivity|].
      destruct (_ && _); [|discriminate].
      intros H. apply send_continue_inv in H. exact H.
    - intros H. apply send_continue_inv in H. exact H. }
  assert (Hlt : timeout_count st + 1 < max_timeouts).
  { revert H. unfold on_timeout. cbn [timeout_count set_timeout_count].
    destruct (max_timeouts <=? _) eqn:El; [discriminate|].
    intros _. apply Z.leb_gt in El. exact El. }
  subst st'. unfold loop_inv. cbn. split; [lia|auto].
Qed.

Lemma set_timeout_count_inv st : loop_inv st -> loop_inv (set_timeout_count st 0).
Proof.
  intros (Hc & Hk & He & Hn & Ht). unfold loop_inv. cbn.
  split; [unfold max_timeouts; lia|auto].
Qed.

Lemma loop_step_inv req dm st ev st' out :
  loop_inv st ->
  loop_step req dm st ev = Continue st' out ->
  loop_inv st'.
Proof.
  intros Hinv. destruct ev as [|data rnd]; [apply on_timeout_inv, Hinv|].
  apply set_timeout_count_inv in Hinv. unfold loop_step.
  destruct data as [|b data]; [discriminate|].
  destruct (byte_val b =? T_ERR); [discriminate|].
  destruct (byte_val b =? T_DATA); [apply on_data_inv, Hinv|].
  destruct (byte_val b =? T_END); [apply on_end_inv, Hinv|].
  intros [= <- _]. exact Hinv.
Qed.

Lemma run_loop_inv req dm evs st sent st' sent' :
  loop_inv st ->
  run_loop req dm st sent evs = Receiving st' sent' ->
  loop_inv st'.
Proof.
  revert st sent. induction evs as [|ev evs IH]; intros st sent Hinv H.
  - injection H as <- _. exact Hinv.
  - cbn [run_loop] in H.
    destruct (loop_step req dm st ev) as [s1 o1|s1 o1|o1|e1] eqn:E;
      try discriminate.
    + eapply IH; [|exact H]. eapply loop_step_inv; eauto.
    + destruct (finalize s1); discriminate.
Qed.

(** X11. Invariant of the receive loop: in every state in which a run
    of [request_file] waits for the next datagram, the timeout counter is
    0, 1 or 2; every stored sequence number lies between 0 and [max_seq];
    with an empty buffer [max_seq] is -1 and neither the total size, the
    segment count nor the file checksum is known; with a non-empty buffer
    [max_seq] is itself stored and the total size is known; and when the
    segment count is known the buffer holds fewer entries than that. *)
Theorem receive_loop_invariant req dm dropped sent evs st sent' :
  run_loop req dm (initial_state dropped) sent evs = Receiving st sent' ->
  0 <= timeout_count st < max_timeouts /\
  (forall k, is_Some (segments st !! k) -> 0 <= k <= max_seq st) /\
  (segments st = ∅ ->
   max_seq st = -1 /\ total_size st = None /\ total_segments st = None /\
   file_crc_from_server st = None) /\
  (segments st <> ∅ ->
   is_Some (segments st !! max_seq st) /\ is_Some (total_size st)) /\
  (forall t, total_segments st = Some t -> Z.of_nat (size (segments st)) < t).
Proof.
  intros H. eapply (run_loop_inv req dm evs); [apply initial_state_inv|exact H].
Qed.

Lemma receive_loop_invariant_witness :
  0 <= timeout_count abc_partial < max_timeouts /\
  (forall k, is_Some (segments abc_partial !! k) -> 0 <= k <= max_seq abc_partial) /\
  (segments abc_partial = ∅ ->
   max_seq abc_partial = -1 /\ total_size abc_partial = None /\
   total_segments abc_partial = None /\ file_crc_from_server abc_partial = None) /\
  (segments abc_partial <> ∅ ->
   is_Some (segments abc_partial !! max_seq abc_partial) /\
   is_Some (total_size abc_partial)) /\
  (forall t, total_segments abc_partial = Some t ->
     Z.of_nat (size (segments abc_partial)) < t).
Proof.
  apply (receive_loop_invariant demo_get ∅ ∅ []
           [Datagram (default [] (abc_out !! 1%nat)) false;
            Datagram (default [] (abc_out !! 2%nat)) false]
           abc_partial []).
  vm_compute. reflexivity.
Defined.



(** * The client against the frames of one served file *)

Lemma chunk_file_lookup_seq contents ss (i : nat) c :
  1 <= ss ->
  chunk_file contents ss !! i = Some c -> chunk_seq c = Z.of_nat i.
Proof.
  intros Hss Hc.
  pose proof (chunk_seqs ss Hss contents 0 0) as Hs. fold (chunk_file contents ss) in Hs.
  assert (H : map chunk_seq (chunk_file contents ss) !! i = Some (chunk_seq c)).
  { change (map chunk_seq) with (fmap (M := list) chunk_seq).
    rewrite list_lookup_fmap, Hc. reflexivity. }
  rewrite Hs in H. apply lookup_seqZ in H. lia.
Qed.

Lemma chunk_file_same_seq contents ss c c' :
  1 <= ss ->
  c ∈ chunk_file contents ss -> c' ∈ chunk_file contents ss ->
  chunk_seq c = chunk_seq c' -> c = c'.
Proof.
  intros Hss [i Hi]%list_elem_of_lookup [j Hj]%list_elem_of_lookup Heq.
  pose proof (chunk_file_lookup_seq _ _ _ _ Hss Hi).
  pose proof (chunk_file_lookup_seq _ _ _ _ Hss Hj).
  assert (i = j) by lia. subst j. congruence.
Qed.

Lemma chunk_file_seq_range contents ss c :
  1 <= ss ->
  c ∈ chunk_file contents ss ->
  0 <= chunk_seq c < len (chunk_file contents ss).
Proof.
  intros Hss [i Hi]%list_elem_of_lookup.
  pose proof (chunk_file_lookup_seq _ _ _ _ Hss Hi).
  apply lookup_lt_Some in Hi. unfold len. lia.
Qed.

(** Only the last chunk reaches the end of the file. *)
Lemma chunk_file_final contents ss c :
  1 <= ss ->
  c ∈ chunk_file contents ss ->
  (len contents <=? chunk_offset c + len (chunk_payload c)) = true ->
  chunk_seq c + 1 = len (chunk_file contents ss).
Proof.
  intros Hss [i Hi]%list_elem_of_lookup Hfin.
  pose proof (chunk_file_lookup_seq _ _ _ _ Hss Hi) as Hseq.
  pose proof (lookup_lt_Some _ _ _ Hi) as Hlt.
  pose proof (chunk_last ss Hss contents 0 0 (len contents) eq_refl) as Hl.
  fold (chunk_file contents ss) in Hl.
  assert (H : map (fun c => len contents <=? chunk_offset c + len (chunk_payload c))
                (chunk_file contents ss) !! i = Some true).
  { change (map ?f) with (fmap (M := list) f).
    rewrite list_lookup_fmap, Hi. cbn. rewrite Hfin. reflexivity. }
  rewrite Hl in H.
  destruct (decide (i < length (chunk_file contents ss) - 1)%nat) as [Hi'|Hi'].
  - rewrite lookup_app_l in H by (rewrite length_replicate; exact Hi').
    apply lookup_replicate in H. destruct H; discriminate.
  - unfold len. lia.
Qed.

Lemma handle_get_frames fs srv data addr filename contents srv' out d :
  1 <= segment_size srv ->
  unpack_get data = Ok filename ->
  fs filename = Found contents ->
  handle_get fs srv data addr = Ok (srv', out) ->
  d ∈ out ->
  file_frame contents (segment_size srv) d.
Proof.
  intros Hss Hu Hf Hg Hd.
  destruct (handle_get_found _ _ _ _ _ _ _ _ Hss Hu Hf Hg)
    as (segs & pkts & e & Hb & _ & _ & He & -> & _).
  apply elem_of_app in Hd as [Hd|Hd].
  - left. apply list_elem_of_lookup in Hd as [i Hi].
    destruct (Forall2_lookup_r _ _ _ _ _ Hb Hi) as (c & Hc & Hbc).
    exists c. split; [eapply list_elem_of_lookup_2; exact Hc|exact Hbc].
  - right. apply list_elem_of_singleton in Hd as ->. exact He.
Qed.

Lemma agrees_count contents ss st n :
  agrees contents ss st -> agrees contents ss (set_timeout_count st n).
Proof. intros H. exact H. Qed.

Lemma on_data_agrees contents ss dm st c d rnd st' :
  1 <= ss ->
  agrees contents ss st ->
  c ∈ chunk_file contents ss ->
  built (len contents) c d ->
  outcome_state (on_data dm st d rnd) = Some st' ->
  agrees contents ss st'.
Proof.
  intros Hss Hag Hc Hb. unfold on_data. rewrite (is_final_built _ _ _ Hb).
  destruct (_ && _); [intros [= <-]; exact Hag|].
  destruct rnd; [intros [= <-]; exact Hag|].
  cbv zeta. cbn [total_segments segments].
  set (st1 := Build_loop_state _ _ _ _ _ _ _).
  assert (Hag1 : agrees contents ss st1).
  { destruct Hag as (Hs & Hts & Ht & Hcrc). unfold agrees, st1. cbn.
    split; [|split; [|split]].
    - intros k p. destruct (decide (k = chunk_seq c)) as [->|Hk].
      + rewrite lookup_insert_eq. intros [= <-]. eauto.
      + rewrite lookup_insert_ne by congruence. apply Hs.
    - destruct (total_size st) as [ts|] eqn:E.
      + intros ts' [= <-]. apply Hts. reflexivity.
      + intros ts' [= <-]. reflexivity.
    - destruct (_ <=? _) eqn:Ef.
      + intros t [= <-]. apply chunk_file_final; assumption.
      + exact Ht.
    - exact Hcrc. }
  destruct (if _ <=? _ then _ else _) as [t|].
  - destruct (_ <=? _); cbn; intros [= <-]; exact Hag1.
  - cbn. intros [= <-]. exact Hag1.
Qed.

Lemma on_end_agrees contents ss st d st' :
  agrees contents ss st ->
  pack_end (len (chunk_file contents ss)) (crc32 contents) = Ok d ->
  outcome_state (on_end st d) = Some st' ->
  agrees contents ss st'.
Proof.
  intros Hag He. unfold on_end. rewrite (unpack_end_packed _ _ _ He).
  cbv zeta. cbn [total_segments segments].
  set (st1 := Build_loop_state _ _ _ _ _ _ _).
  assert (Hag1 : agrees contents ss st1).
  { destruct Hag as (Hs & Hts & Ht & Hcrc). unfold agrees, st1. cbn.
    split; [exact Hs|]. split; [exact Hts|].
    split; intros ? [= <-]; reflexivity. }
  assert (Hsend : forall pkt, outcome_state (send_break st1 pkt) = Some st' ->
                              agrees contents ss st').
  { intros pkt. destruct pkt; cbn; [intros [= <-]; exact Hag1|discriminate]. }
  destruct (_ <? _); [|apply Hsend].
  destruct (_missing_segments _ _) as [[|s miss]|]; [apply Hsend| |discriminate].
  unfold send_continue. destruct (pack_nack _); cbn; [|discriminate].
  intros [= <-]. exact Hag1.
Qed.

Lemma on_timeout_state req st st' out :
  on_timeout req st = Continue st' out ->
  st' = set_timeout_count st (timeout_count st + 1).
Proof.
  unfold on_timeout.
  destruct (max_timeouts <=? _); [discriminate|].
  destruct (_missing_segments _ _) as [[|s missing]|]; [| |discriminate].
  - destruct (decide _); [intros [= <- _]; reflexivity|].
    destruct (_ && _); [|discriminate].
    intros H. apply send_continue_inv in H. exact H.
  - intros H. apply send_continue_inv in H. exact H.
Qed.

Lemma loop_step_agrees contents ss req dm st ev st' :
  1 <= ss ->
  agrees contents ss st ->
  match ev with
  | Timeout => True
  | Datagram d _ => file_frame contents ss d
  end ->
  outcome_state (loop_step req dm st ev) = Some st' ->
  agrees contents ss st'.
Proof.
  intros Hss Hag Hev. destruct ev as [|d rnd].
  - cbn [loop_step]. destruct (on_timeout req st) as [s o|s o|o|e] eqn:E;
      cbn; try discriminate.
    + intros [= <-]. apply on_timeout_state in E as ->. exact Hag.
    + exfalso. eapply on_timeout_no_break; exact E.
  - destruct Hev as [(c & Hc & Hb)|He].
    + pose proof (is_final_built _ _ _ Hb) as Hu.
      apply unpack_data_type in Hu. unfold is_type in Hu.
      destruct d as [|b d]; [discriminate|].
      cbn [loop_step]. cbv zeta. apply Z.eqb_eq in Hu. rewrite Hu.
      change (T_DATA =? T_ERR) with false. change (T_DATA =? T_DATA) with true.
      cbv iota. intros H. eapply on_data_agrees; [exact Hss| |exact Hc|exact Hb|exact H].
      exact Hag.
    + pose proof (unpack_end_packed _ _ _ He) as Hu.
      apply unpack_end_inv in Hu as (_ & _ & b & d' & -> & Hb).
      cbn [loop_step]. cbv zeta. rewrite Hb.
      change (T_END =? T_ERR) with false. change (T_END =? T_DATA) with false.
      change (T_END =? T_END) with true. cbv iota.
      intros H. eapply on_end_agrees; [|exact He|exact H]. exact Hag.
Qed.

(** When the loop is left, the segment count is known and the buffer
    holds at least that many entries, or it holds none. *)
Lemma loop_step_break req dm st ev st' out :
  loop_step req dm st ev = Break st' out ->
  exists t, total_segments st' = Some t /\
            (t <= Z.of_nat (size (segments st')) \/ segments st' = ∅).
Proof.
  destruct ev as [|d rnd].
  { intros H. exfalso. eapply on_timeout_no_break; exact H. }
  cbn [loop_step]. cbv zeta.
  destruct d as [|b d]; [discriminate|].
  destruct (byte_val b =? T_ERR); [discriminate|].
  destruct (byte_val b =? T_DATA).
  { unfold on_data.
    destruct (unpack_data _) as [[[[[[[w s] ts] off] plen] payload] fin]|];
      [|discriminate].
    destruct (_ && _); [discriminate|].
    destruct rnd; [discriminate|].
    cbv zeta. cbn [total_segments segments].
    destruct (if fin then _ else _) as [t|] eqn:Et; [|discriminate].
    destruct (t <=? _) eqn:El; [|discriminate].
    unfold send_break. destruct pack_ok; [|discriminate].
    intros [= <- _]. cbn. exists t. split; [reflexivity|].
    left. apply Z.leb_le in El. exact El. }
  destruct (byte_val b =? T_END); [|discriminate].
  unfold on_end.
  destruct (unpack_end _) as [[tseg fcrc]|]; [|discriminate].
  cbv zeta. cbn [total_segments segments].
  assert (Hsend : forall s pkt, send_break s pkt = Break st' out -> s = st').
  { intros s pkt. unfold send_break. destruct pkt; [|discriminate].
    intros [= <- _]. reflexivity. }
  destruct (_ <? tseg) eqn:El.
  - destruct (_missing_segments _ _) as [[|s miss]|] eqn:Em; [| |discriminate].
    + intros H. apply Hsend in H as <-. cbn. exists tseg. split; [reflexivity|].
      right. unfold _missing_segments in Em.
      destruct (decide (segments (set_timeout_count st 0) = ∅)) as [E|E];
        [exact E|].
      exfalso. injection Em as Em. apply Z.ltb_lt in El.
      eapply missing_nonempty; [exact El|exact Em].
    + unfold send_continue. destruct (pack_nack _); discriminate.
  - intros H. apply Hsend in H as <-. cbn. exists tseg. split; [reflexivity|].
    left. apply Z.ltb_ge in El. exact El.
Qed.

(** A buffer of the file's segments with as many entries as the file
    has segments holds the whole file. *)
Lemma agrees_complete contents ss st t :
  1 <= ss ->
  agrees contents ss st ->
  total_segments st = Some t ->
  t <= Z.of_nat (size (segments st)) ->
  join_segments (segments st) t = contents.
Proof.
  intros Hss (Hs & _ & Ht & _) Et Hsize.
  apply Ht in Et. subst t.
  set (chunks := chunk_file contents ss) in *.
  set (all := list_to_set (seqZ 0 (len chunks)) : gset Z).
  assert (Hsub : dom (segments st) ⊆ all).
  { intros k Hk. apply elem_of_dom in Hk as [p Hp].
    destruct (Hs _ _ Hp) as (c & Hc & <- & _).
    apply elem_of_list_to_set, elem_of_seqZ.
    pose proof (chunk_file_seq_range _ _ _ Hss Hc) as Hr.
    fold chunks in Hr. lia. }
  assert (Hall : size all = length chunks).
  { unfold all. rewrite size_list_to_set by apply NoDup_seqZ.
    rewrite length_seqZ. unfold len. lia. }
  assert (Heq : dom (segments st) = all).
  { apply set_eq. intros k. split; [apply Hsub|]. intros Hk.
    destruct (decide (k ∈ dom (segments st))) as [|Hn]; [assumption|].
    exfalso.
    assert (Hlt : (size (dom (segments st)) < size all)%nat).
    { apply subset_size. split; [exact Hsub|]. intros Hsup. apply Hn, Hsup, Hk. }
    rewrite size_dom in Hlt. unfold len in Hsize. lia. }
  rewrite (join_segments_chunks (segments st) chunks).
  - apply (chunk_payloads ss Hss).
  - apply (chunk_seqs ss Hss).
  - intros c Hc.
    assert (Hin : chunk_seq c ∈ dom (segments st)).
    { rewrite Heq. apply elem_of_list_to_set, elem_of_seqZ.
      pose proof (chunk_file_seq_range _ _ _ Hss Hc) as Hr.
    fold chunks in Hr. lia. }
    apply elem_of_dom in Hin as [p Hp]. rewrite Hp.
    destruct (Hs _ _ Hp) as (c' & Hc' & Hseq & <-).
    rewrite (chunk_file_same_seq contents ss c c' Hss Hc Hc'); congruence.
Qed.

Lemma finalize_saved contents ss st t saved :
  1 <= ss ->
  agrees contents ss st ->
  total_segments st = Some t ->
  t <= Z.of_nat (size (segments st)) \/ segments st = ∅ ->
  finalize st = Ok (Saved saved) ->
  saved = contents.
Proof.
  intros Hss Hag Et Hsize. unfold finalize.
  destruct (decide (segments st = ∅)) as [E|E]; [discriminate|].
  destruct Hsize as [Hsize|]; [|contradiction].
  rewrite Et. cbn.
  rewrite (agrees_complete contents ss st t Hss Hag Et Hsize).
  destruct (match total_size st with Some _ => _ | None => _ end); [discriminate|].
  destruct (match file_crc_from_server st with Some _ => _ | None => _ end);
    [discriminate|].
  intros [= <-]. reflexivity.
Qed.

Lemma run_loop_saved contents ss req dm evs st sent saved sent' :
  1 <= ss ->
  agrees contents ss st ->
  Forall (fun ev => match ev with
                    | Timeout => True
                    | Datagram d _ => file_frame contents ss d
                    end) evs ->
  run_loop req dm st sent evs = Ended (Saved saved) sent' ->
  saved = contents.
Proof.
  intros Hss. revert st sent.
  induction evs as [|ev evs IH]; intros st sent Hag Hevs H; [discriminate|].
  apply Forall_cons in Hevs as [Hev Hevs]. cbn [run_loop] in H.
  destruct (loop_step req dm st ev) as [s1 o1|s1 o1|o1|e1] eqn:E;
    try discriminate.
  - eapply IH; [|exact Hevs|exact H].
    eapply loop_step_agrees; [exact Hss|exact Hag|exact Hev|].
    rewrite E. reflexivity.
  - assert (Hag1 : agrees contents ss s1).
    { eapply loop_step_agrees; [exact Hss|exact Hag|exact Hev|].
      rewrite E. reflexivity. }
    destruct (loop_step_break _ _ _ _ _ _ E) as (t & Et & Hsize).
    destruct (finalize s1) as [v|] eqn:Ef; [|discriminate].
    injection H as -> _.
    eapply finalize_saved; eauto.
Qed.

Lemma initial_state_agrees contents ss dropped :
  agrees contents ss (initial_state dropped).
Proof.
  unfold agrees, initial_state. cbn.
  split; [intros k p; rewrite lookup_empty; discriminate|].
  repeat split; discriminate.
Qed.

(** X13. Integrity of a transfer: if every datagram the client receives
    in its loop is one of the frames the server sent in answer to a GET
    for a file (its DATA frames and its END frame, in any order, repeated
    or missing, with timeouts and configured or random drops anywhere),
    then whatever [request_file] writes to the output file is exactly the
    contents of that file. *)
Theorem saved_file_is_the_served_file fs srv data addr filename contents srv'
    out req dm dropped sent evs saved sent' :
  1 <= segment_size srv ->
  unpack_get data = Ok filename ->
  fs filename = Found contents ->
  handle_get fs srv data addr = Ok (srv', out) ->
  received_from out evs ->
  run_loop req dm (initial_state dropped) sent evs = Ended (Saved saved) sent' ->
  saved = contents.
Proof.
  intros Hss Hu Hf Hg Hevs Hrun.
  eapply (run_loop_saved contents (segment_size srv));
    [exact Hss|apply initial_state_agrees| |exact Hrun].
  eapply Forall_impl; [exact Hevs|].
  intros [|d rnd]; [trivial|]. cbn.
  eapply handle_get_frames; eassumption.
Qed.

Lemma saved_file_is_the_served_file_witness : abc_saved = abc.
Proof.
  apply (saved_file_is_the_served_file abc_fs (UDPServer_init 4) demo_get
           demo_addr demo_name abc abc_srv abc_out demo_get ∅ ∅ []
           abc_events abc_saved abc_sent).
  - vm_compute. discriminate.
  - vm_compute. reflexivity.
  - reflexivity.
  - vm_compute. reflexivity.
  - unfold received_from, abc_events.
    repeat apply Forall_cons_2; try apply Forall_nil_2.
    + vm_compute. apply list_elem_of_further, list_elem_of_here.
    + vm_compute. do 2 apply list_elem_of_further. apply list_elem_of_here.
    + vm_compute. do 3 apply list_elem_of_further. apply list_elem_of_here.
    + vm_compute. apply list_elem_of_here.
  - vm_compute. reflexivity.
Defined.

(** * Complete delivery *)

Lemma pack_ok_demo : pack_ok = Ok demo_ok.
Proof. vm_compute. reflexivity. Qed.












(** * The write-out *)








(** * Text round trips *)

Lemma range_check (f : Z -> bool) n :
  forallb f (seqZ 0 n) = true -> forall i, 0 <= i < n -> f i = true.
Proof.
  intros H i Hi. rewrite forallb_forall in H. apply H.
  apply list_elem_of_In, elem_of_seqZ. lia.
Qed.

(** A continuation byte carries its six bits. *)
Lemma cont_byte d :
  0 <= d < 64 ->
  is_cont (byte_of (Z.lor 0x80 d)) = true /\
  cont_bits (byte_of (Z.lor 0x80 d)) = d.
Proof.
  intros Hd.
  pose proof (range_check
    (fun d => is_cont (byte_of (Z.lor 0x80 d))
              && (cont_bits (byte_of (Z.lor 0x80 d)) =? d)) 64) as H.
  specialize (H ltac:(vm_compute; reflexivity) d Hd). cbv beta in H.
  apply andb_true_iff in H as [H1 H2]. apply Z.eqb_eq in H2. auto.
Qed.

Lemma low6 x : 0 <= Z.land x 0x3F < 64.
Proof.
  change 0x3F with (Z.ones 6). rewrite Z.land_ones by lia.
  apply Z.mod_pos_bound. lia.
Qed.

(** Cutting off the low six bits and putting them back. *)
Lemma split6 x : Z.lor (Z.shiftl (Z.shiftr x 6) 6) (Z.land x 0x3F) = x.
Proof.
  change 0x3F with (Z.ones 6). rewrite <- Z.ldiff_ones_r by lia.
  apply Z.lor_ldiff_and.
Qed.

Lemma lead2 a :
  2 <= a < 32 ->
  let v0 := byte_val (byte_of (Z.lor 0xC0 a)) in
  (v0 <? 0x80) = false /\ ((0xC2 <=? v0) && (v0 <=? 0xDF)) = true /\
  Z.land v0 0x1F = a.
Proof.
  intros Ha.
  pose proof (range_check
    (fun a => (a <? 2) ||
       let v0 := byte_val (byte_of (Z.lor 0xC0 a)) in
       negb (v0 <? 0x80) && ((0xC2 <=? v0) && (v0 <=? 0xDF))
       && (Z.land v0 0x1F =? a)) 32) as H.
  specialize (H ltac:(vm_compute; reflexivity) a ltac:(lia)). cbv beta in H.
  rewrite (proj2 (Z.ltb_ge a 2)) in H by lia. cbn [orb] in H. cbv zeta in H.
  apply andb_true_iff in H as [H H3]. apply andb_true_iff in H as [H1 H2].
  apply Z.eqb_eq in H3. apply negb_true_iff in H1. auto.
Qed.

Lemma lead3 a :
  0 <= a < 16 ->
  let v0 := byte_val (byte_of (Z.lor 0xE0 a)) in
  (v0 <? 0x80) = false /\ ((0xC2 <=? v0) && (v0 <=? 0xDF)) = false /\
  ((0xE0 <=? v0) && (v0 <=? 0xEF)) = true /\
  Z.land v0 0x0F = a.
Proof.
  intros Ha.
  pose proof (range_check
    (fun a =>
       let v0 := byte_val (byte_of (Z.lor 0xE0 a)) in
       negb (v0 <? 0x80) && negb ((0xC2 <=? v0) && (v0 <=? 0xDF))
       && ((0xE0 <=? v0) && (v0 <=? 0xEF))
       && (Z.land v0 0x0F =? a)) 16) as H.
  specialize (H ltac:(vm_compute; reflexivity) a Ha). cbv beta zeta in H.
  apply andb_true_iff in H as [H H4]. apply andb_true_iff in H as [H H3].
  apply andb_true_iff in H as [H1 H2].
  apply Z.eqb_eq in H4. apply negb_true_iff in H1, H2. auto.
Qed.

Lemma lead4 a :
  0 <= a < 5 ->
  let v0 := byte_val (byte_of (Z.lor 0xF0 a)) in
  (v0 <? 0x80) = false /\ ((0xC2 <=? v0) && (v0 <=? 0xDF)) = false /\
  ((0xE0 <=? v0) && (v0 <=? 0xEF)) = false /\
  ((0xF0 <=? v0) && (v0 <=? 0xF4)) = true /\
  Z.land v0 0x07 = a.
Proof.
  intros Ha.
  pose proof (range_check
    (fun a =>
       let v0 := byte_val (byte_of (Z.lor 0xF0 a)) in
       negb (v0 <? 0x80) && negb ((0xC2 <=? v0) && (v0 <=? 0xDF))
       && negb ((0xE0 <=? v0) && (v0 <=? 0xEF))
       && ((0xF0 <=? v0) && (v0 <=? 0xF4))
       && (Z.land v0 0x07 =? a)) 5) as H.
  specialize (H ltac:(vm_compute; reflexivity) a Ha). cbv beta zeta in H.
  apply andb_true_iff in H as [H H5]. apply andb_true_iff in H as [H H4].
  apply andb_true_iff in H as [H H3]. apply andb_true_iff in H as [H1 H2].
  apply Z.eqb_eq in H5. apply negb_true_iff in H1, H2, H3. auto.
Qed.

Lemma shiftr_range x k lo hi :
  0 <= k -> lo * 2 ^ k <= x < hi * 2 ^ k -> lo <= Z.shiftr x k < hi.
Proof.
  intros Hk Hx. rewrite Z.shiftr_div_pow2 by exact Hk.
  assert (0 < 2 ^ k) by (apply Z.pow_pos_nonneg; lia). split.
  - apply Z.div_le_lower_bound; lia.
  - apply Z.div_lt_upper_bound; lia.
Qed.

(** Two, three and four groups of bits put back together. *)
Lemma join2 x : Z.lor (Z.shiftl (Z.shiftr x 6) 6) (Z.land x 0x3F) = x.
Proof. apply split6. Qed.

Lemma join3 x :
  Z.lor (Z.shiftl (Z.shiftr x 12) 12)
    (Z.lor (Z.shiftl (Z.land (Z.shiftr x 6) 0x3F) 6) (Z.land x 0x3F)) = x.
Proof.
  rewrite <- (split6 x) at 4. rewrite <- (split6 (Z.shiftr x 6)) at 2.
  rewrite Z.shiftl_lor, Z.shiftr_shiftr, Z.shiftl_shiftl by lia.
  change (6 + 6) with 12. rewrite Z.lor_assoc. reflexivity.
Qed.

Lemma join4 x :
  Z.lor (Z.shiftl (Z.shiftr x 18) 18)
    (Z.lor (Z.shiftl (Z.land (Z.shiftr x 12) 0x3F) 12)
       (Z.lor (Z.shiftl (Z.land (Z.shiftr x 6) 0x3F) 6) (Z.land x 0x3F))) = x.
Proof.
  rewrite <- (join3 x) at 5. rewrite <- (split6 (Z.shiftr x 12)) at 2.
  rewrite Z.shiftl_lor, Z.shiftr_shiftr, Z.shiftl_shiftl by lia.
  change (12 + 6) with 18. change (6 + 12) with 18.
  rewrite Z.lor_assoc. reflexivity.
Qed.

(** Decoding what [utf8_encode_cp] wrote gives the code point back and
    goes on behind it. *)
Lemma utf8_decode_encoded_cp cp b rest :
  utf8_encode_cp cp = Ok b ->
  utf8_decode (b ++ rest) = (s ← utf8_decode rest; Ok (cp :: s)).
Proof.
  unfold utf8_encode_cp.
  destruct ((0 <=? cp) && (cp <? 0x80)) eqn:E1.
  { intros [= <-]. apply andb_true_iff in E1 as [H0 H1].
    apply Z.leb_le in H0. pose proof H1 as H1'. apply Z.ltb_lt in H1'.
    cbn [app utf8_decode]. cbv zeta.
    rewrite byte_val_of, Z.mod_small by lia. rewrite H1. reflexivity. }
  destruct ((0x80 <=? cp) && (cp <? 0x800)) eqn:E2.
  { intros [= <-]. apply andb_true_iff in E2 as [H0 H1].
    apply Z.leb_le in H0. apply Z.ltb_lt in H1.
    destruct (lead2 (Z.shiftr cp 6)) as (L1 & L2 & L3);
      [apply shiftr_range; lia|].
    destruct (cont_byte (Z.land cp 0x3F) (low6 cp)) as [C1 C2].
    cbn [app utf8_decode]. cbv zeta.
    rewrite L1, L2, C1, L3, C2, split6. reflexivity. }
  destruct ((0xD800 <=? cp) && (cp <=? 0xDFFF)) eqn:E3; [discriminate|].
  destruct ((0x800 <=? cp) && (cp <? 0x10000)) eqn:E4.
  { intros [= <-]. apply andb_true_iff in E4 as [H0 H1].
    pose proof H0 as H0'. apply Z.leb_le in H0'. apply Z.ltb_lt in H1.
    destruct (lead3 (Z.shiftr cp 12)) as (L1 & L2 & L3 & L4);
      [apply shiftr_range; lia|].
    destruct (cont_byte (Z.land (Z.shiftr cp 6) 0x3F) (low6 _)) as [C1 C2].
    destruct (cont_byte (Z.land cp 0x3F) (low6 cp)) as [C3 C4].
    cbn [app utf8_decode]. cbv zeta.
    rewrite L1, L2, L3, C1, C3, L4, C2, C4, join3, H0, E3. reflexivity. }
  destruct ((0x10000 <=? cp) && (cp <=? 0x10FFFF)) eqn:E5; [|discriminate].
  intros [= <-]. apply andb_true_iff in E5 as [H0 H1].
  pose proof H0 as H0'. apply Z.leb_le in H0'.
  pose proof H1 as H1'. apply Z.leb_le in H1'.
  destruct (lead4 (Z.shiftr cp 18)) as (L1 & L2 & L3 & L4 & L5);
    [apply shiftr_range; lia|].
  destruct (cont_byte (Z.land (Z.shiftr cp 12) 0x3F) (low6 _)) as [C1 C2].
  destruct (cont_byte (Z.land (Z.shiftr cp 6) 0x3F) (low6 _)) as [C3 C4].
  destruct (cont_byte (Z.land cp 0x3F) (low6 cp)) as [C5 C6].
  cbn [app utf8_decode]. cbv zeta.
  rewrite L1, L2, L3, L4, C1, C3, C5, L5, C2, C4, C6, join4, H0, H1.
  reflexivity.
Qed.

(** [bytes.decode] undoes [str.encode]. *)
Lemma utf8_decode_encode s bs : utf8_encode s = Ok bs -> utf8_decode bs = Ok s.
Proof.
  revert bs. induction s as [|cp s IH]; intros bs; cbn [utf8_encode].
  { intros [= <-]. reflexivity. }
  destruct (utf8_encode_cp cp) as [b|] eqn:Eb; [|discriminate].
  cbn [mbind result_bind].
  destruct (utf8_encode s) as [rest|]; [|discriminate].
  cbn [mbind result_bind]. intros [= <-].
  rewrite (utf8_decode_encoded_cp _ _ rest Eb), (IH rest eq_refl). reflexivity.
Qed.

Lemma text_header_ok t x n :
  fits 8 t -> fits 8 x -> 0 <= n <= 65535 ->
  exists hdr, struct_pack [1; 1; 1; 2]%nat [t; VERSION; x; n] = Ok hdr.
Proof.
  intros Ht Hx Hn. apply struct_pack_ok.
  repeat match goal with |- Forall2 _ _ _ => constructor end;
    try assumption; unfold fits, VERSION;
    try change (2 ^ (8 * Z.of_nat 1)) with 256;
    try change (2 ^ (8 * Z.of_nat 2)) with 65536; lia.
Qed.

Lemma text_header_inv t x n hdr :
  struct_pack [1; 1; 1; 2]%nat [t; VERSION; x; n] = Ok hdr ->
  fits 8 x /\ 0 <= n <= 65535.
Proof.
  intros H.
  apply struct_pack_inv_cons in H as (_ & r1 & H & _).
  apply struct_pack_inv_cons in H as (_ & r2 & H & _).
  apply struct_pack_inv_cons in H as (Hx & r3 & H & _).
  apply struct_pack_inv_cons in H as (Hn & _).
  change (8 * Z.of_nat 2) with 16 in Hn. unfold fits in Hn.
  change (8 * Z.of_nat 1) with 8 in Hx.
  split; [exact Hx|]. change (2 ^ 16) with 65536 in Hn. lia.
Qed.

(** X15. GET round trip with its bounds: [pack_get] succeeds exactly
    when the name can be encoded as UTF-8 (it holds no lone surrogate) in
    at most 65535 bytes; [unpack_get] then gives the name back, and the
    frame is the 5-byte header followed by the encoded name. *)
Theorem get_round_trip (filename : str) :
  ((exists b, utf8_encode filename = Ok b /\ len b <= 65535) <->
   exists frame, pack_get filename = Ok frame) /\
  (forall frame, pack_get filename = Ok frame ->
     unpack_get frame = Ok filename /\
     exists b, utf8_encode filename = Ok b /\ len frame = GET_HDR_SIZE + len b).
Proof.
  unfold pack_get. split; [split|].
  - intros (b & -> & Hb). cbn [mbind result_bind].
    destruct (text_header_ok T_GET 0 (len b)) as [hdr Hh];
      [vm_compute; split; [discriminate|reflexivity]
      |vm_compute; split; [discriminate|reflexivity]
      |pose proof (len_nonneg b); lia|].
    change GET_HDR with [1; 1; 1; 2]%nat. rewrite Hh. eauto.
  - intros [frame H]. destruct (utf8_encode filename) as [b|]; [|discriminate].
    cbn [mbind result_bind] in H.
    destruct (struct_pack GET_HDR _) as [hdr|] eqn:Eh; [|discriminate].
    apply text_header_inv in Eh as [_ Hn]. exists b. split; [reflexivity|lia].
  - intros frame H. destruct (utf8_encode filename) as [b|] eqn:Eb; [|discriminate].
    cbn [mbind result_bind] in H.
    destruct (struct_pack GET_HDR _) as [hdr|] eqn:Eh; [|discriminate].
    cbn [mbind result_bind] in H. injection H as <-.
    destruct (header_unpack _ _ _ b Eh) as [Hlen Hun].
    pose proof (struct_pack_length _ _ _ Eh) as L. split.
    + unfold unpack_get, GET_HDR_SIZE. rewrite Hlen, Hun.
      cbn [mbind result_bind].
      change (negb (T_GET =? T_GET) || negb (VERSION =? VERSION)) with false.
      cbv iota. rewrite slice_after by (unfold len; rewrite L; reflexivity).
      rewrite take_all by lia. apply utf8_decode_encode, Eb.
    + exists b. split; [reflexivity|]. rewrite len_app. unfold len at 1.
      rewrite L. reflexivity.
Qed.

Lemma err_round_trip_aux (code : Z) (msg : str) :
  ((fits 8 code /\ exists b, utf8_encode msg = Ok b /\ len b <= 65535) <->
   exists frame, pack_err code msg = Ok frame) /\
  (forall frame, pack_err code msg = Ok frame ->
     unpack_err frame = Ok (code, msg)).
Proof.
  unfold pack_err. split; [split|].
  - intros (Hc & b & -> & Hb). cbn [mbind result_bind].
    destruct (text_header_ok T_ERR code (len b)) as [hdr Hh];
      [vm_compute; split; [discriminate|reflexivity]
      |exact Hc
      |pose proof (len_nonneg b); lia|].
    change ERR_HDR with [1; 1; 1; 2]%nat. rewrite Hh. eauto.
  - intros [frame H]. destruct (utf8_encode msg) as [b|]; [|discriminate].
    cbn [mbind result_bind] in H.
    destruct (struct_pack ERR_HDR _) as [hdr|] eqn:Eh; [|discriminate].
    apply text_header_inv in Eh as [Hc Hn]. split; [exact Hc|].
    exists b. split; [reflexivity|lia].
  - intros frame H. destruct (utf8_encode msg) as [b|] eqn:Eb; [|discriminate].
    cbn [mbind result_bind] in H.
    destruct (struct_pack ERR_HDR _) as [hdr|] eqn:Eh; [|discriminate].
    cbn [mbind result_bind] in H. injection H as <-.
    destruct (header_unpack _ _ _ b Eh) as [Hlen Hun].
    pose proof (struct_pack_length _ _ _ Eh) as L.
    unfold unpack_err, ERR_HDR_SIZE. change [1; 1; 1; 2]%nat with ERR_HDR.
    rewrite Hlen, Hun. cbn [mbind result_bind].
    change (negb (T_ERR =? T_ERR) || negb (VERSION =? VERSION)) with false.
    cbv iota. rewrite slice_after by (unfold len; rewrite L; reflexivity).
    rewrite take_all by lia. rewrite (utf8_decode_encode _ _ Eb). reflexivity.
Qed.

(** X16. ERR round trip with its bounds: [pack_err] succeeds exactly
    when the code fits one byte and the message can be encoded as UTF-8 in
    at most 65535 bytes; [unpack_err] then gives the code and the message
    back. *)
Theorem err_round_trip (code : Z) (msg : str) :
  ((fits 8 code /\ exists b, utf8_encode msg = Ok b /\ len b <= 65535) <->
   exists frame, pack_err code msg = Ok frame) /\
  (forall frame, pack_err code msg = Ok frame ->
     unpack_err frame = Ok (code, msg)).
Proof. apply err_round_trip_aux. Qed.

(** X17. The error path from end to end: when the server answers a GET
    for a name that is outside the data directory or is no file there, its
    reply is one ERR frame that [unpack_err] decodes to the code (2 or 1)
    and the message the server composed, the name included; the server
    state stays as it was; and a client that receives this frame in its
    loop returns [False] at once, sending nothing. *)
Theorem error_reply_reaches_client fs srv data addr filename srv' out :
  unpack_get data = Ok filename ->
  (forall contents, fs filename <> Found contents) ->
  handle_get fs srv data addr = Ok (srv', out) ->
  srv' = srv /\
  exists pkt,
    out = [pkt] /\
    (fs filename = NotFound ->
     unpack_err pkt = Ok (0x01, msg_not_found filename)) /\
    (fs filename = InvalidPath ->
     unpack_err pkt = Ok (0x02, msg_invalid_path filename)) /\
    (forall req dm st sent rnd evs,
       run_loop req dm st sent (Datagram pkt rnd :: evs) = Ended Failed sent).
Proof.
  intros Hu Hno H. unfold handle_get in H. rewrite Hu in H.
  assert (Hcl : forall code msg pkt, pack_err code msg = Ok pkt ->
            forall req dm st sent rnd evs,
              run_loop req dm st sent (Datagram pkt rnd :: evs)
              = Ended Failed sent).
  { intros code msg pkt Hp req dm st sent rnd evs.
    apply pack_err_type in Hp. destruct pkt as [|b pkt]; [discriminate|].
    cbn in Hp. cbn [run_loop loop_step]. cbv zeta. rewrite Hp.
    rewrite app_nil_r. reflexivity. }
  destruct (fs filename) as [| |contents] eqn:Hfs.
  - destruct (pack_err 2 _) as [pkt|] eqn:Ep; [|discriminate].
    injection H as <- <-. split; [reflexivity|]. exists pkt.
    split; [reflexivity|]. split; [discriminate|].
    split; [|eapply Hcl; exact Ep].
    intros _. apply (proj2 (err_round_trip_aux _ _) _ Ep).
  - destruct (pack_err 1 _) as [pkt|] eqn:Ep; [|discriminate].
    injection H as <- <-. split; [reflexivity|]. exists pkt.
    split; [reflexivity|].
    split; [intros _; apply (proj2 (err_round_trip_aux _ _) _ Ep)|].
    split; [discriminate|eapply Hcl; exact Ep].
  - exfalso. eapply Hno. reflexivity.
Qed.

Lemma error_reply_reaches_client_witness :
  UDPServer_init 4 = UDPServer_init 4 /\
  exists pkt,
    [missing_reply] = [pkt] /\
    (no_fs demo_name = NotFound ->
     unpack_err pkt = Ok (0x01, msg_not_found demo_name)) /\
    (no_fs demo_name = InvalidPath ->
     unpack_err pkt = Ok (0x02, msg_invalid_path demo_name)) /\
    (forall req dm st sent rnd evs,
       run_loop req dm st sent (Datagram pkt rnd :: evs) = Ended Failed sent).
Proof.
  apply (error_reply_reaches_client no_fs (UDPServer_init 4) demo_get demo_addr
           demo_name (UDPServer_init 4) [missing_reply]).
  - vm_compute. reflexivity.
  - discriminate.
  - vm_compute. reflexivity.
Defined.

(** * One END and NACK round *)









(** * What [_missing_segments] returns *)

Lemma max_key_spec (m : gmap Z bytes) :
  m <> ∅ ->
  exists k, max_key m = Ok k /\ is_Some (m !! k) /\
            forall j, is_Some (m !! j) -> j <= k.
Proof.
  intros Hne. unfold max_key.
  destruct (map_to_list m) as [|[k0 v0] l] eqn:El.
  { apply map_to_list_empty_iff in El. contradiction. }
  assert (Hfold : forall l' : list (Z * bytes),
            let r := foldr (fun p acc => Z.max p.1 acc) k0 l' in
            k0 <= r /\ (forall p, p ∈ l' -> p.1 <= r) /\
            (r = k0 \/ exists p, p ∈ l' /\ p.1 = r)).
  { induction l' as [|p l' (IH1 & IH2 & IH3)]; cbn.
    - split; [lia|]. split; [|auto]. intros p Hp. apply elem_of_nil in Hp.
      contradiction.
    - split; [lia|]. split.
      + intros q Hq. apply elem_of_cons in Hq as [->|Hq]; [lia|].
        specialize (IH2 q Hq). lia.
      + destruct (Z.max_spec p.1 (foldr (fun p acc => Z.max p.1 acc) k0 l'))
          as [[_ ->]|[_ ->]].
        * destruct IH3 as [IH3|(q & Hq & IH3)]; [auto|].
          right. exists q. split; [apply list_elem_of_further, Hq|exact IH3].
        * right. exists p. split; [apply list_elem_of_here|reflexivity]. }
  destruct (Hfold l) as (H1 & H2 & H3). cbv zeta in *.
  eexists. split; [reflexivity|]. split.
  - destruct H3 as [->|([k v] & Hp & <-)].
    + exists v0. apply elem_of_map_to_list. rewrite El. apply list_elem_of_here.
    + exists v. apply elem_of_map_to_list. rewrite El.
      apply list_elem_of_further, Hp.
  - intros j [v Hj]. apply elem_of_map_to_list in Hj. rewrite El in Hj.
    apply elem_of_cons in Hj as [[= -> _]|Hj]; [exact H1|].
    apply (H2 (j, v) Hj).
Qed.

Lemma seqZ_sorted n m : StronglySorted Z.lt (seqZ m (Z.of_nat n)).
Proof.
  revert m. induction n as [|n IH]; intros m.
  { cbn. constructor. }
  rewrite seqZ_cons by lia. constructor.
  - replace (Z.pred (Z.of_nat (S n))) with (Z.of_nat n) by lia. apply IH.
  - apply Forall_forall. intros i Hi. apply elem_of_seqZ in Hi. lia.
Qed.

Lemma filter_sorted {A} (R : A -> A -> Prop) (P : A -> Prop)
    `{forall x, Decision (P x)} (l : list A) :
  StronglySorted R l -> StronglySorted R (filter P l).
Proof.
  induction 1 as [|x l Hl IH Hx]; [constructor|].
  rewrite filter_cons. destruct (decide (P x)); [|exact IH].
  constructor; [exact IH|].
  apply Forall_forall. intros y Hy. apply list_elem_of_filter in Hy as [_ Hy].
  rewrite Forall_forall in Hx. apply Hx, Hy.
Qed.

Lemma missing_sorted (segs : gmap Z bytes) t :
  StronglySorted Z.lt (filter (absent segs) (seqZ 0 t)).
Proof.
  apply filter_sorted. destruct (decide (0 <= t)) as [Ht|Ht].
  - rewrite <- (Z2Nat.id t Ht). apply seqZ_sorted.
  - replace (seqZ 0 t) with (@nil Z); [constructor|].
    unfold seqZ. replace (Z.to_nat t) with O by lia. reflexivity.
Qed.

(** X19. What [_missing_segments] returns: it never raises; for an
    empty buffer the list is empty, whatever the announced total; otherwise
    it lists, in increasing order and without repetition, exactly the
    numbers from 0 on that are not stored and lie below the announced total
    or, when no total is known, below some stored number. *)
Theorem missing_segments_spec (segs : gmap Z bytes) (total : option Z) :
  exists l,
    _missing_segments segs total = Ok l /\
    StronglySorted Z.lt l /\
    forall i, i ∈ l <->
      segs <> ∅ /\ segs !! i = None /\ 0 <= i /\
      match total with
      | Some t => i < t
      | None => exists k, i < k /\ is_Some (segs !! k)
      end.
Proof.
  unfold _missing_segments. destruct (decide (segs = ∅)) as [E|E].
  { exists []. split; [reflexivity|]. split; [constructor|].
    intros i. split; [intros Hi; apply elem_of_nil in Hi; contradiction|].
    intros [Hne _]. contradiction. }
  destruct total as [t|].
  - eexists. split; [reflexivity|]. split; [apply missing_sorted|].
    intros i. rewrite elem_of_missing. split; [intros []|intros (_ & ? & ? & ?)];
      repeat split; auto; lia.
  - destruct (max_key_spec segs E) as (m & -> & Hm & Hmax).
    cbn [mbind result_bind]. eexists. split; [reflexivity|].
    split; [apply missing_sorted|].
    intros i. rewrite elem_of_missing. split.
    + intros [Hi Hnone]. split; [exact E|]. split; [exact Hnone|].
      split; [lia|]. exists m. split; [|exact Hm].
      destruct (decide (i = m)) as [->|]; [|lia].
      rewrite Hnone in Hm. destruct Hm; discriminate.
    + intros (_ & Hnone & Hi & k & Hk & Hs). split; [|exact Hnone].
      specialize (Hmax k Hs). lia.
Qed.
(** * NACKs that cannot be packed *)

Lemma missing_at_least (segs : gmap Z bytes) n :
  0 <= n ->
  n - Z.of_nat (size segs) <= len (filter (absent segs) (seqZ 0 n)).
Proof.
  intros Hn.
  pose proof (filter_app_complement (fun i => absent segs i) (seqZ 0 n)) as Hp.
  apply Permutation_length in Hp. rewrite length_app, length_seqZ in Hp.
  assert (Hsub : (list_to_set (filter (fun i => ~ absent segs i) (seqZ 0 n))
                  : gset Z) ⊆ dom segs).
  { intros k. rewrite elem_of_list_to_set, list_elem_of_filter, elem_of_dom.
    unfold absent. rewrite bool_decide_spec. intros [Hs _].
    destruct (segs !! k); [eauto|contradiction]. }
  apply subseteq_size in Hsub.
  rewrite size_list_to_set, size_dom in Hsub
    by (apply NoDup_filter, NoDup_seqZ).
  unfold len. lia.
Qed.

Lemma pack_nack_too_long l : 65535 < len l -> pack_nack l = Raise StructError.
Proof.
  intros Hl. unfold pack_nack, NACK_HDR. cbn [struct_pack].
  change ((0 <=? T_NACK) && (T_NACK <? 2 ^ (8 * Z.of_nat 1))) with true.
  change ((0 <=? VERSION) && (VERSION <? 2 ^ (8 * Z.of_nat 1))) with true.
  change ((0 <=? 0) && (0 <? 2 ^ (8 * Z.of_nat 1))) with true. cbv iota.
  replace ((0 <=? len l) && (len l <? 2 ^ (8 * Z.of_nat 2))) with false;
    [reflexivity|].
  symmetry. apply andb_false_iff. right. apply Z.ltb_ge.
  change (2 ^ (8 * Z.of_nat 2)) with 65536. lia.
Qed.

(** X20. A NACK that cannot be packed ends the client with an uncaught
    [struct.error]: this happens when an END frame (which carries no
    checksum) announces over 65535 segments more than a non-empty buffer
    holds, and on a timeout, with no total known, when a stored sequence
    number exceeds the number of stored segments by 65535 or more. *)
Theorem oversized_nack_crashes_client req dm st :
  (forall d rnd n crc,
     unpack_end d = Ok (n, crc) ->
     segments st <> ∅ ->
     Z.of_nat (size (segments st)) + 65535 < n ->
     loop_step req dm st (Datagram d rnd) = Crash StructError) /\
  (forall k,
     total_segments st = None ->
     timeout_count st + 1 < max_timeouts ->
     is_Some (segments st !! k) ->
     Z.of_nat (size (segments st)) + 65535 <= k ->
     loop_step req dm st Timeout = Crash StructError).
Proof.
  split.
  - intros d rnd n crc Hu Hne Hn.
    destruct (unpack_end_inv _ _ _ Hu) as (_ & _ & b & d' & -> & Hb).
    cbn [loop_step]. cbv zeta. rewrite Hb.
    change (T_END =? T_ERR) with false. change (T_END =? T_DATA) with false.
    change (T_END =? T_END) with true. cbv iota.
    unfold on_end. rewrite Hu. cbv zeta.
    cbn [segments total_segments set_timeout_count].
    rewrite (proj2 (Z.ltb_lt _ n)) by lia.
    unfold _missing_segments. rewrite decide_False by exact Hne.
    pose proof (missing_at_least (segments st) n ltac:(lia)) as Hl.
    destruct (filter _ _) as [|s miss] eqn:Ef.
    { exfalso. unfold len in Hl. cbn in Hl. lia. }
    unfold send_continue. rewrite pack_nack_too_long by lia. reflexivity.
  - intros k Ht Hc Hk Hsize.
    assert (Hne : segments st <> ∅).
    { intros E. rewrite E, lookup_empty in Hk. destruct Hk; discriminate. }
    destruct (max_key_spec _ Hne) as (m & Em & _ & Hmax).
    specialize (Hmax k Hk).
    cbn [loop_step]. unfold on_timeout.
    cbn [timeout_count segments total_segments set_timeout_count].
    rewrite (proj2 (Z.leb_gt _ _) Hc), Ht.
    unfold _missing_segments. rewrite decide_False by exact Hne.
    rewrite Em. cbn [mbind result_bind].
    pose proof (missing_at_least (segments st) (m + 1) ltac:(lia)) as Hl.
    destruct (filter _ _) as [|s miss] eqn:Ef.
    { exfalso. unfold len in Hl. cbn in Hl. lia. }
    unfold send_continue. rewrite pack_nack_too_long by lia. reflexivity.
Qed.

Lemma oversized_nack_crashes_client_witness :
  loop_step demo_get ∅ abc_partial (Datagram big_end false) = Crash StructError.
Proof.
  apply (proj1 (oversized_nack_crashes_client demo_get ∅ abc_partial)
           big_end false 70000 0).
  - vm_compute. reflexivity.
  - vm_compute. discriminate.
  - vm_compute. reflexivity.
Defined.
(** * What the client sends *)


Lemma send_break_ok st st' out :
  send_break st pack_ok = Break st' out -> out = [demo_ok].
Proof. rewrite pack_ok_demo. intros [= _ <-]. reflexivity. Qed.




(** * Bounds of [pack_data] *)

Lemma land_byte_fits w : fits 8 (Z.land w 0xFF).
Proof.
  unfold fits. change 0xFF with (Z.ones 8). rewrite Z.land_ones by lia.
  change (2 ^ 8) with 256. apply Z.mod_pos_bound. lia.
Qed.

(** X22. When [pack_data] succeeds: exactly when the flags fit one
    byte, the sequence number 32 bits, the total size and the offset 64
    bits and the payload is at most 65535 bytes long; the window
    identifier is masked to one byte and never makes it fail.  Otherwise it
    raises [struct.error]. *)
Theorem pack_data_bounds w s ts off p fl :
  (fits 8 fl /\ fits 32 s /\ fits 64 ts /\ fits 64 off /\ len p <= 65535 <->
   exists frame, pack_data w s ts off p fl = Ok frame) /\
  (forall e, pack_data w s ts off p fl = Raise e -> e = StructError).
Proof.
  split; [split|].
  - intros (Hfl & Hs & Hts & Hoff & Hp). unfold pack_data.
    destruct (struct_pack_ok DATA_HDR_WO_CRC
                [T_DATA; VERSION; fl; Z.land w 255; s; ts; off; len p])
      as [hw Hhw].
    { pose proof (land_byte_fits w) as Hw. pose proof (len_nonneg p).
      repeat match goal with |- Forall2 _ _ _ => constructor end;
        try assumption; unfold fits, T_DATA, VERSION;
        try change (2 ^ (8 * Z.of_nat 1)) with 256;
        try change (2 ^ (8 * Z.of_nat 2)) with 65536; lia. }
    rewrite Hhw. cbn [mbind result_bind].
    change DATA_HDR with (DATA_HDR_WO_CRC ++ [4%nat]).
    change [T_DATA; VERSION; fl; Z.land w 255; s; ts; off; len p; crc32 (hw ++ p)]
      with ([T_DATA; VERSION; fl; Z.land w 255; s; ts; off; len p]
              ++ [crc32 (hw ++ p)]).
    rewrite (struct_pack_snoc _ _ _ 4 _ Hhw) by apply (crc32_fits (hw ++ p)).
    eexists. reflexivity.
  - intros [frame H]. apply pack_data_inv in H as (hw & H & _).
    unfold data_header_vals in H.
    apply struct_pack_inv_cons in H as (_ & r1 & H & _).
    apply struct_pack_inv_cons in H as (_ & r2 & H & _).
    apply struct_pack_inv_cons in H as (Hfl & r3 & H & _).
    apply struct_pack_inv_cons in H as (_ & r4 & H & _).
    apply struct_pack_inv_cons in H as (Hs & r5 & H & _).
    apply struct_pack_inv_cons in H as (Hts & r6 & H & _).
    apply struct_pack_inv_cons in H as (Hoff & r7 & H & _).
    apply struct_pack_inv_cons in H as (Hp & _).
    change (8 * Z.of_nat 1) with 8 in Hfl. change (8 * Z.of_nat 4) with 32 in Hs.
    change (8 * Z.of_nat 8) with 64 in Hts, Hoff.
    unfold fits in Hp. change (2 ^ (8 * Z.of_nat 2)) with 65536 in Hp.
    repeat split; try assumption; try apply Hfl; try apply Hs; try apply Hts;
      try apply Hoff; lia.
  - intros e. unfold pack_data.
    assert (Hsp : forall fmt vals e', struct_pack fmt vals = Raise e' ->
                                      e' = StructError).
    { induction fmt as [|fw fmt IH]; intros [|v vals] e'; cbn [struct_pack];
        try (intros [= <-]; reflexivity).
      destruct (_ && _); [|intros [= <-]; reflexivity].
      destruct (struct_pack fmt vals) as [r|e0] eqn:E; [discriminate|].
      cbn. intros [= <-]. eapply IH, E. }
    destruct (struct_pack DATA_HDR_WO_CRC _) as [hw|e0] eqn:E1.
    + cbn [mbind result_bind].
      destruct (struct_pack DATA_HDR _) as [h|e1] eqn:E2; [discriminate|].
      cbn. intros [= <-]. eapply Hsp, E2.
    + cbn. intros [= <-]. eapply Hsp, E1.
Qed.

(** * Configured drops *)

(** X23. A configured drop is applied once per sequence number: a
    decoded DATA frame whose number is in the drop map and has not been
    dropped before is discarded (nothing is stored or sent, the number is
    recorded in [already_dropped], and the iteration still counts as a
    received datagram); once the number is recorded, the frame is handled
    exactly as with an empty drop map. *)
Theorem configured_drop_happens_once req dm st d rnd w s ts off plen p fin :
  unpack_data d = Ok (w, s, ts, off, plen, p, fin) ->
  is_Some (dm !! s) ->
  (s ∉ already_dropped st ->
   exists st',
     loop_step req dm st (Datagram d rnd) = Continue st' [] /\
     segments st' = segments st /\
     total_size st' = total_size st /\
     total_segments st' = total_segments st /\
     max_seq st' = max_seq st /\
     timeout_count st' = 0 /\
     already_dropped st' = {[s]} ∪ already_dropped st) /\
  (s ∈ already_dropped st ->
   loop_step req dm st (Datagram d rnd) = loop_step req ∅ st (Datagram d rnd)).
Proof.
  intros Hu Hdm. pose proof (unpack_data_type _ _ Hu) as Hty.
  destruct d as [|b d]; [discriminate|]. cbn in Hty. apply Z.eqb_eq in Hty.
  cbn [loop_step]. cbv zeta. rewrite Hty.
  change (T_DATA =? T_ERR) with false. change (T_DATA =? T_DATA) with true.
  cbv iota. unfold on_data. rewrite Hu.
  cbn [already_dropped set_timeout_count].
  rewrite (bool_decide_eq_true_2 _ Hdm), lookup_empty.
  rewrite (bool_decide_eq_false_2 (is_Some None)) by apply is_Some_None.
  cbn [andb]. split.
  - intros Hs. rewrite (bool_decide_eq_true_2 _ Hs).
    eexists. split; [reflexivity|]. cbn. repeat split; reflexivity.
  - intros Hs. rewrite bool_decide_eq_false_2 by (intros Hn; exact (Hn Hs)).
    reflexivity.
Qed.

Lemma configured_drop_happens_once_witness :
  (1 ∉ already_dropped (initial_state ∅) ->
   exists st',
     loop_step demo_get drop_1 (initial_state ∅) (Datagram abc_data1 false)
     = Continue st' [] /\
     segments st' = segments (initial_state ∅) /\
     total_size st' = total_size (initial_state ∅) /\
     total_segments st' = total_segments (initial_state ∅) /\
     max_seq st' = max_seq (initial_state ∅) /\
     timeout_count st' = 0 /\
     already_dropped st' = {[1]} ∪ already_dropped (initial_state ∅)) /\
  (1 ∈ already_dropped (initial_state ∅) ->
   loop_step demo_get drop_1 (initial_state ∅) (Datagram abc_data1 false)
   = loop_step demo_get ∅ (initial_state ∅) (Datagram abc_data1 false)).
Proof.
  apply (configured_drop_happens_once demo_get drop_1 (initial_state ∅)
           abc_data1 false 0 1 10 4 4 (ascii_bytes "EFGH") false).
  - vm_compute. reflexivity.
  - vm_compute. eauto.
Defined.
